(** * Expression trees of the decompiler: a shallow embedding of
      [expressions.py]

    Python objects live in a store addressed by references; an object
    carries its class, the parent link of [replaceable_t], the [is_def]
    flag of [assignable_t], the attributes set by its constructor and the
    operand list of [expr_t].  Methods are functions in a state-and-error
    monad over the store, method dispatch is a match on the class of the
    receiver.  Generators are modelled by the list of values they yield,
    recursive methods carry a recursion bound.  Slot keys are Python list
    indices: integers, the negative ones counting from the end of the
    operand list.  The database of the disassembler, which the module
    reads as a global, is a parameter of the methods that render. *)

From Stdlib Require Import ZArith String DecimalString HexadecimalString
  DecimalZ HexadecimalZ Lia.
From stdpp Require Import base option list strings gmap.

#[local] Set Warnings "-register-all".
Local Open Scope string_scope.
Local Open Scope list_scope.

(** ** Classes *)

Inductive class : Set :=
  | regloc_t | flagloc_t | value_t | var_t | arg_t
  | call_t
  | not_t | b_not_t | deref_t | address_t | neg_t
  | preinc_t | predec_t | postinc_t | postdec_t
  | comma_t | assign_t | add_t | sub_t | mul_t | div_t | shl_t | shr_t
  | xor_t | and_t | or_t | b_and_t | b_or_t
  | eq_t | neq_t | leq_t | aeq_t | lower_t | above_t
  | ternary_if_t
  | sign_t | overflow_t | parity_t | adjust_t | carry_t.

Global Instance class_eq_dec : EqDecision class.
Proof. solve_decision. Defined.

(** [isinstance(x, uexpr_t)] *)
Definition is_uexpr (c : class) : bool :=
  match c with
  | not_t | b_not_t | deref_t | address_t | neg_t
  | preinc_t | predec_t | postinc_t | postdec_t
  | sign_t | overflow_t | parity_t | adjust_t | carry_t => true
  | _ => false
  end.

(** [isinstance(x, bexpr_t)] *)
Definition is_bexpr (c : class) : bool :=
  match c with
  | comma_t | assign_t | add_t | sub_t | mul_t | div_t | shl_t | shr_t
  | xor_t | and_t | or_t | b_and_t | b_or_t
  | eq_t | neq_t | leq_t | aeq_t | lower_t | above_t => true
  | _ => false
  end.

(** [isinstance(x, texpr_t)] *)
Definition is_texpr (c : class) : bool :=
  match c with ternary_if_t => true | _ => false end.

(** [isinstance(x, expr_t)] *)
Definition is_expr (c : class) : bool :=
  match c with call_t => true | _ => is_uexpr c || is_bexpr c || is_texpr c end.

(** [isinstance(x, assignable_t)]: [regloc_t] (and its subclass
    [flagloc_t]), [var_t], [arg_t], [deref_t]. *)
Definition is_assignable (c : class) : bool :=
  match c with
  | regloc_t | flagloc_t | var_t | arg_t | deref_t => true
  | _ => false
  end.

(** The operator string each unary and binary constructor passes to
    [uexpr_t.__init__] / [bexpr_t.__init__]. *)
Definition operator_of (c : class) : string :=
  match c with
  | not_t => "~" | b_not_t => "!" | deref_t => "*" | address_t => "&"
  | neg_t => "-"
  | preinc_t => "++" | predec_t => "--" | postinc_t => "++" | postdec_t => "--"
  | comma_t => "," | assign_t => "=" | add_t => "+" | sub_t => "-"
  | mul_t => "*" | div_t => "/" | shl_t => "<<" | shr_t => ">>"
  | xor_t => "^" | and_t => "&" | or_t => "|"
  | b_and_t => "&&" | b_or_t => "||"
  | eq_t => "==" | neq_t => "!=" | leq_t => "<=" | aeq_t => ">="
  | lower_t => "<" | above_t => ">"
  | sign_t => "<sign>" | overflow_t => "<overflow>" | parity_t => "<parity>"
  | adjust_t => "<adjust>" | carry_t => "<carry>"
  | _ => ""
  end.

(** ** Objects and the store *)

(** References are store addresses. *)
Abbreviation ref := nat.

(** The attributes a constructor sets besides parent, flag and operands. *)
Inductive attrs : Type :=
  | A_regloc (which : nat) (name : option string) (index : option nat)
  | A_value (value : option Z)
  | A_named (where_ : ref) (name : string)
  | A_call
  | A_uexpr (operator : string)
  | A_bexpr (operator : string)
  | A_texpr (operator1 operator2 : string).

Global Instance attrs_eq_dec : EqDecision attrs.
Proof. solve_decision. Defined.

Record obj : Type := Obj {
  cls : class;
  parent : option (ref * Z);       (* replaceable_t.__parent *)
  is_def : bool;                   (* assignable_t.is_def *)
  fields : attrs;
  operands : list (option ref)     (* expr_t.__operands *)
}.

Definition with_parent (p : option (ref * Z)) (o : obj) : obj :=
  Obj (cls o) p (is_def o) (fields o) (operands o).
Definition with_is_def (b : bool) (o : obj) : obj :=
  Obj (cls o) (parent o) b (fields o) (operands o).
Definition with_fields (f : attrs) (o : obj) : obj :=
  Obj (cls o) (parent o) (is_def o) f (operands o).
Definition with_operands (l : list (option ref)) (o : obj) : obj :=
  Obj (cls o) (parent o) (is_def o) (fields o) l.

Abbreviation heap := (list obj).

(** ** Exceptions, results and the store monad *)

Inductive exn : Set :=
  | AssertionError | AttributeError | IndexError | RuntimeError | TypeError
  | BadReference     (* a reference that names no object: not a Python state *)
  | OutOfFuel.       (* the recursion bound of the model was reached *)

Inductive result (A : Type) : Type :=
  | Ok (a : A)
  | Raise (e : exn).
Arguments Ok {A} a.
Arguments Raise {A} e.

Global Instance result_ret : MRet result := λ A a, Ok a.
Global Instance result_bind : MBind result := λ A B f m,
  match m with Ok a => f a | Raise e => Raise e end.

(** A method call: it reads and updates the store; an exception leaves
    the updates made so far in place. *)
Definition M (A : Type) : Type := heap → result A * heap.

Global Instance M_ret : MRet M := λ A a h, (Ok a, h).
Global Instance M_bind : MBind M := λ A B f m h,
  match m h with
  | (Ok a, h') => f a h'
  | (Raise e, h') => (Raise e, h')
  end.

Definition raise {A} (e : exn) : M A := λ h, (Raise e, h).
Definition py_assert (b : bool) : M unit :=
  if b then mret tt else raise AssertionError.
(** Evaluate a read-only function of the store. *)
Definition read {A} (f : heap → result A) : M A := λ h, (f h, h).

Definition lookup_obj (h : heap) (r : ref) : result obj :=
  match h !! r with Some o => Ok o | None => Raise BadReference end.
Definition get_obj (r : ref) : M obj := read (λ h, lookup_obj h r).
Definition modify (r : ref) (f : obj → obj) : M unit := λ h,
  match h !! r with
  | Some _ => (Ok tt, alter f r h)
  | None => (Raise BadReference, h)
  end.
(** Object creation: the new object gets the next free reference. *)
Definition alloc (o : obj) : M ref := λ h, (Ok (List.length h), h ++ [o]).

(** ** [replaceable_t] *)

(** Every object of the store is an instance of one of the node classes,
    all of which derive from [replaceable_t]; [None] is not. *)
Definition isinstance_replaceable (v : option ref) : bool :=
  match v with Some _ => true | None => false end.

Definition get_parent (r : ref) : M (option (ref * Z)) :=
  o ← get_obj r; mret (parent o).
Definition set_parent (r : ref) (p : option (ref * Z)) : M unit :=
  modify r (with_parent p).

(** ** [expr_t]: operand slots *)

(** The keys a Python list of length [n] accepts: [-n <= key < n]. *)
Definition valid_key (n : nat) (key : Z) : Prop :=
  (- Z.of_nat n ≤ key < Z.of_nat n)%Z.

Global Instance valid_key_dec n key : Decision (valid_key n key).
Proof. unfold valid_key. apply _. Defined.

(** The position that a key names: a negative key counts from the end. *)
Definition slot_of (n : nat) (key : Z) : option nat :=
  if decide (valid_key n key) then
    Some (Z.to_nat (if decide (0 ≤ key)%Z then key else Z.of_nat n + key))
  else None.

(** [l[key] = value] on a list inside an object, for a key the list
    accepts. *)
Definition set_operand (key : Z) (value : option ref) (o : obj) : obj :=
  match slot_of (List.length (operands o)) key with
  | Some i => with_operands (<[i := value]> (operands o)) o
  | None => o
  end.

(** [expr_t.__getitem__]: [self.__operands[key]] *)
Definition getitem (h : heap) (self : ref) (key : Z) : result (option ref) :=
  o ← lookup_obj h self;
  if is_expr (cls o) then
    match slot_of (List.length (operands o)) key with
    | Some i =>
        match operands o !! i with
        | Some v => Ok v
        | None => Raise IndexError
        end
    | None => Raise IndexError
    end
  else Raise TypeError.

(** ** Truthiness and structural equality *)

(** [bool(v)]: [None] is false; [expr_t] defines [__len__], so a composite
    is true when it has at least one operand slot; the leaf classes define
    neither [__len__] nor [__nonzero__] and are true. *)
Definition truthy (h : heap) (v : option ref) : result bool :=
  match v with
  | None => Ok false
  | Some r =>
      o ← lookup_obj h r;
      Ok (if is_expr (cls o) then negb (Nat.eqb (List.length (operands o)) 0)
          else true)
  end.

(** The classes that define [__eq__]: all but [call_t], which inherits
    the identity comparison of [object]. *)
Definition defines_eq (c : class) : bool :=
  match c with call_t => false | _ => true end.

(** [self.__eq__(other)] for the class of [self]; [eq] is [==] on the
    attributes compared recursively. *)
Definition dunder_eq (eq : option ref → option ref → result bool)
    (h : heap) (self : ref) (other : option ref) : result bool :=
  s ← lookup_obj h self;
  match other with
  | None => Ok false
  | Some y =>
      o ← lookup_obj h y;
      match cls s with
      | regloc_t | flagloc_t =>
          if bool_decide (cls o = cls s) then
            match fields s, fields o with
            | A_regloc w _ i, A_regloc w' _ i' =>
                Ok (bool_decide (w = w') && bool_decide (i = i'))
            | _, _ => Raise AttributeError
            end
          else Ok false
      | value_t =>
          if bool_decide (cls o = value_t) then
            match fields s, fields o with
            | A_value v, A_value v' => Ok (bool_decide (v = v'))
            | _, _ => Raise AttributeError
            end
          else Ok false
      | var_t | arg_t =>
          if bool_decide (cls o = cls s) then
            match fields s, fields o with
            | A_named w _, A_named w' _ => eq (Some w) (Some w')
            | _, _ => Raise AttributeError
            end
          else Ok false
      | c =>
          if is_uexpr c then
            if is_uexpr (cls o) then
              match fields s, fields o with
              | A_uexpr op, A_uexpr op' =>
                  if String.eqb op op' then
                    a ← getitem h self 0; b ← getitem h y 0; eq a b
                  else Ok false
              | _, _ => Raise AttributeError
              end
            else Ok false
          else if is_bexpr c then
            if is_bexpr (cls o) then
              match fields s, fields o with
              | A_bexpr op, A_bexpr op' =>
                  if String.eqb op op' then
                    a1 ← getitem h self 0; b1 ← getitem h y 0; e1 ← eq a1 b1;
                    if e1 : bool then
                      a2 ← getitem h self 1; b2 ← getitem h y 1; eq a2 b2
                    else Ok false
                  else Ok false
              | _, _ => Raise AttributeError
              end
            else Ok false
          else if is_texpr c then
            if is_texpr (cls o) then
              match fields s, fields o with
              | A_texpr p q, A_texpr p' q' =>
                  if String.eqb p p' then
                    if String.eqb q q' then
                      a1 ← getitem h self 0; b1 ← getitem h y 0; e1 ← eq a1 b1;
                      if e1 : bool then
                        a2 ← getitem h self 1; b2 ← getitem h y 1; e2 ← eq a2 b2;
                        if e2 : bool then
                          a3 ← getitem h self 2; b3 ← getitem h y 2; eq a3 b3
                        else Ok false
                      else Ok false
                    else Ok false
                  else Ok false
              | _, _ => Raise AttributeError
              end
            else Ok false
          else Raise AttributeError
      end
  end.

(** [a == b]: the [__eq__] of the left operand's class, else the reflected
    [__eq__] of the right operand's class, else object identity. *)
Fixpoint py_eq (fuel : nat) (h : heap) (a b : option ref) : result bool :=
  match fuel with
  | O => Raise OutOfFuel
  | S n =>
      match a, b with
      | None, None => Ok true
      | Some x, None =>
          ox ← lookup_obj h x;
          if defines_eq (cls ox) then dunder_eq (py_eq n h) h x None else Ok false
      | None, Some y =>
          oy ← lookup_obj h y;
          if defines_eq (cls oy) then dunder_eq (py_eq n h) h y None else Ok false
      | Some x, Some y =>
          ox ← lookup_obj h x;
          oy ← lookup_obj h y;
          if defines_eq (cls ox) then dunder_eq (py_eq n h) h x (Some y)
          else if defines_eq (cls oy) then dunder_eq (py_eq n h) h y (Some x)
          else Ok (bool_decide (x = y))
      end
  end.

(** ** Traversal *)

(** The loop of [expr_t.iteroperands] over the operand list. *)
Fixpoint iter_slots (rec : ref → result (list ref)) (h : heap)
    (l : list (option ref)) : result (list ref) :=
  match l with
  | [] => Ok []
  | v :: l' =>
      t ← truthy h v;
      match v with
      | Some c =>
          if t : bool then
            a ← rec c; b ← iter_slots rec h l'; Ok (a ++ b)
          else iter_slots rec h l'
      | None => iter_slots rec h l'
      end
  end.

(** [iteroperands]: the leaf classes yield themselves, [expr_t] yields
    the enumeration of each operand and then itself. *)
Fixpoint iteroperands (fuel : nat) (h : heap) (self : ref) : result (list ref) :=
  match fuel with
  | O => Raise OutOfFuel
  | S n =>
      o ← lookup_obj h self;
      if is_expr (cls o) then
        sub ← iter_slots (iteroperands n h) h (operands o);
        Ok (sub ++ [self])
      else Ok [self]
  end.

(** ** Rendering *)

(** ['%u' % n] and ['%x' % n] on Python integers. *)
Definition fmt_u (n : Z) : string :=
  DecimalString.NilZero.string_of_int (Z.to_int n).
Definition fmt_x (n : Z) : string :=
  HexadecimalString.NilZero.string_of_int (Z.to_hex_int n).

(** [regloc_t.regs] *)
Definition regs : list string :=
  ["eax"; "ecx"; "edx"; "ebx"; "esp"; "ebp"; "esi"; "edi"].

(** [regloc_t.regname]: the table entry, or a placeholder when [which]
    is not below [len(regs)]. *)
Definition regname (which : nat) : string :=
  match regs !! which with
  | None => "<#" +:+ fmt_u (Z.of_nat which) +:+ ">"
  | Some name => name
  end.

(** The truth value of an optional string: [None] and [''] are false. *)
Definition nonempty (s : option string) : option string :=
  match s with
  | Some "" => None
  | _ => s
  end.

(** [regloc_t.__str__] *)
Definition regloc_str (which : nat) (name : option string) (index : option nat)
    : string :=
  let name := match nonempty name with Some n => n | None => regname which end in
  match index with
  | Some i => name +:+ "@" +:+ fmt_u (Z.of_nat i)
  | None => name
  end.

(** The database of the disassembler, which the module reads through
    [idc.GetString] and [idautils.Names], and Python's [repr] on strings. *)
Record ida : Type := Ida {
  GetString : Z → option string;
  Names : gmap Z string;
  repr : string → string
}.
Existing Class ida.

Section methods.
Context {db : ida}.

(** [value_t.__str__] *)
Definition value_str (value : option Z) : string :=
  match value with
  | None => "<none!>"
  | Some v =>
      match nonempty (GetString db v) with
      | Some s => repr db s
      | None =>
          match Names db !! v with
          | Some n => n
          | None =>
              if (v <? 16)%Z then fmt_u v else "0x" +:+ fmt_x v
          end
      end
  end.

(** The operand of a prefix or postfix operator: bare when its type is
    one of [(regloc_t, var_t, arg_t)], in parentheses otherwise. *)
Definition bare_operand (h : heap) (v : option ref) : result bool :=
  match v with
  | None => Ok false
  | Some r =>
      o ← lookup_obj h r;
      Ok (match cls o with regloc_t | var_t | arg_t => true | _ => false end)
  end.

Definition wrap (bare : bool) (s : string) : string :=
  if bare then s else "(" +:+ s +:+ ")".

(** [str(v)], dispatched on the class of [v]. *)
Fixpoint str (fuel : nat) (h : heap) (v : option ref) : result string :=
  match fuel with
  | O => Raise OutOfFuel
  | S n =>
      match v with
      | None => Ok "None"
      | Some r =>
          o ← lookup_obj h r;
          let unary (pre post : string) : result string :=
            op ← getitem h r 0;
            b ← bare_operand h op;
            s ← str n h op;
            Ok (pre +:+ wrap b s +:+ post) in
          let flag (f : string) : result string :=
            op ← getitem h r 0;
            s ← str n h op;
            Ok (f +:+ "(" +:+ s +:+ ")") in
          let binary (sep : string) : result string :=
            op1 ← getitem h r 0;
            s1 ← str n h op1;
            op2 ← getitem h r 1;
            s2 ← str n h op2;
            Ok (s1 +:+ sep +:+ s2) in
          match cls o with
          | regloc_t | flagloc_t =>
              match fields o with
              | A_regloc w nm i => Ok (regloc_str w nm i)
              | _ => Raise AttributeError
              end
          | value_t =>
              match fields o with
              | A_value x => Ok (value_str x)
              | _ => Raise AttributeError
              end
          | var_t =>
              match fields o with
              | A_named _ nm => Ok nm
              | _ => Raise AttributeError
              end
          | arg_t =>
              match fields o with
              | A_named w nm =>
                  ow ← lookup_obj h w;
                  if bool_decide (cls ow = regloc_t) then
                    match fields ow with
                    | A_regloc k _ _ => Ok (nm +:+ "<" +:+ regname k +:+ ">")
                    | _ => Raise AttributeError
                    end
                  else Ok nm
              | _ => Raise AttributeError
              end
          | call_t =>
              fct ← getitem h r 0;
              isv ← match fct with
                    | Some f => fo ← lookup_obj h f; Ok (bool_decide (cls fo = value_t))
                    | None => Ok false
                    end;
              name ← (if isv : bool then
                        match fct with
                        | Some f =>
                            fo ← lookup_obj h f;
                            match fields fo with
                            | A_value (Some x) =>
                                Ok (default ("sub_" +:+ fmt_x x) (Names db !! x))
                            | A_value None => Raise TypeError
                            | _ => Raise AttributeError
                            end
                        | None => Raise AttributeError
                        end
                      else s ← str n h fct; Ok ("(" +:+ s +:+ ")"));
              params ← getitem h r 1;
              p ← match params with
                  | None => Ok ""
                  | Some _ => str n h params
                  end;
              Ok (name +:+ "(" +:+ p +:+ ")")
          | not_t => unary "~" ""
          | b_not_t => unary "!" ""
          | deref_t => unary "*" ""
          | address_t => unary "&" ""
          | neg_t => unary "-" ""
          | preinc_t => unary "++" ""
          | predec_t => unary "--" ""
          | postinc_t => unary "" "++"
          | postdec_t => unary "" "--"
          | comma_t => binary ", "
          | assign_t => binary " = "
          | add_t => binary " + "
          | sub_t => binary " - "
          | mul_t => binary " * "
          | div_t => binary " / "
          | shl_t => binary " << "
          | shr_t => binary " >> "
          | xor_t => binary " ^ "
          | and_t => binary " & "
          | or_t => binary " | "
          | b_and_t => binary " && "
          | b_or_t => binary " || "
          | eq_t => binary " == "
          | neq_t => binary " != "
          | leq_t => binary " <= "
          | aeq_t => binary " >= "
          | lower_t => binary " < "
          | above_t => binary " > "
          | ternary_if_t =>
              op1 ← getitem h r 0;
              s1 ← str n h op1;
              op2 ← getitem h r 1;
              s2 ← str n h op2;
              op3 ← getitem h r 2;
              s3 ← str n h op3;
              Ok (s1 +:+ " ? " +:+ s2 +:+ " : " +:+ s3)
          | sign_t => flag "SIGN"
          | overflow_t => flag "OVERFLOW"
          | parity_t => flag "PARITY"
          | adjust_t => flag "ADJUST"
          | carry_t => flag "CARRY"
          end
      end
  end.

(** ** Assertions with a message *)

(** [str(v)] inside a method.  A rendering that runs through more
    objects than the store holds goes round a cycle and does not end: the
    interpreter cuts it off with a [RuntimeError]. *)
Definition py_str (v : option ref) : M string := λ h,
  (match str (S (List.length h)) h v with
   | Raise OutOfFuel => Raise RuntimeError
   | r => r
   end, h).

(** [assert b, message]: the message is evaluated only when [b] is
    false, and an exception it raises takes the place of the
    [AssertionError]. *)
Definition py_assert_msg {A} (b : bool) (message : M A) : M unit :=
  if b then mret tt else message;; raise AssertionError.

(** ** Slot assignment and [replace] *)

(** [self.__operands[key] = value] *)
Definition store_operand (self : ref) (key : Z) (value : option ref) : M unit :=
  o ← get_obj self;
  if decide (valid_key (List.length (operands o)) key) then
    modify self (set_operand key value)
  else raise IndexError.

(** [expr_t.__setitem__]; the message of its second assertion is built
    from class names and the key and raises nothing. *)
Definition expr_setitem (self : ref) (key : Z) (value : option ref) : M unit :=
  match value with
  | Some v =>
      py_assert (isinstance_replaceable value);;
      p ← get_parent v;
      py_assert (bool_decide (p = None));;
      set_parent v (Some (self, key))
  | None => mret tt
  end;;
  store_operand self key value.

(** [assign_t.__setitem__]; the message of its assertion is
    ['... %s (to %s)' % (str(value), str(self))]. *)
Definition assign_setitem (self : ref) (key : Z) (value : option ref) : M unit :=
  (if decide (key = 0%Z) then
     a ← match value with
         | Some v => o ← get_obj v; mret (is_assignable (cls o))
         | None => mret false
         end;
     py_assert_msg a (py_str value;; py_str (Some self));;
     match value with
     | Some v => modify v (with_is_def true)
     | None => raise AttributeError
     end
   else mret tt);;
  expr_setitem self key value.

(** [self[key] = value], dispatched on the class of [self]. *)
Definition setitem (self : ref) (key : Z) (value : option ref) : M unit :=
  o ← get_obj self;
  match cls o with
  | assign_t => assign_setitem self key value
  | c => if is_expr c then expr_setitem self key value else raise TypeError
  end.

(** [replaceable_t.replace]; past its assertion [old] is [self]. *)
Definition replace (self : ref) (new : option ref) : M (option ref) :=
  py_assert (isinstance_replaceable new);;
  p ← get_parent self;
  match p with
  | None => mret None
  | Some (owner, k) =>
      old ← read (λ h, getitem h owner k);
      py_assert (bool_decide (old = Some self));;
      p' ← get_parent self;
      match p' with
      | Some (owner', _) =>
          setitem owner' k new;;
          set_parent self None;;
          mret (Some self)
      | None => raise TypeError
      end
  end.

(** ** Constructors *)

(** [for i in range(len(operands)): self[i] = operands[i]] *)
Fixpoint assign_each (self : ref) (i : nat) (ops : list (option ref)) : M unit :=
  match ops with
  | [] => mret tt
  | v :: rest => setitem self (Z.of_nat i) v;; assign_each self (S i) rest
  end.

(** [expr_t.__init__] *)
Definition expr_init (self : ref) (ops : list (option ref)) : M unit :=
  set_parent self None;;
  modify self (with_operands (replicate (List.length ops) None));;
  assign_each self 0 ops.

(** [regloc_t(which, name, index)], also for the subclass [flagloc_t] *)
Definition new_regloc (c : class) (which : nat) (name : option string)
    (index : option nat) : M ref :=
  alloc (Obj c None false (A_regloc which name index) []).

(** [value_t(value)] *)
Definition new_value (value : option Z) : M ref :=
  alloc (Obj value_t None false (A_value value) []).

(** [var_t(where, name)] and [arg_t(where, name)]:
    [self.name = name or str(self.where)] *)
Definition new_named (fuel : nat) (c : class) (where_ : ref)
    (name : option string) : M ref :=
  nm ← match nonempty name with
       | Some n => mret n
       | None => read (λ h, str fuel h (Some where_))
       end;
  alloc (Obj c None false (A_named where_ nm) []).

(** [call_t(fct, params)] *)
Definition new_call (fct params : option ref) : M ref :=
  self ← alloc (Obj call_t None false A_call []);
  expr_init self [fct; params];;
  mret self.

(** The unary classes: [uexpr_t.__init__(self, operator, op)];
    [deref_t] runs [assignable_t.__init__] first. *)
Definition new_uexpr (c : class) (op : option ref) : M ref :=
  self ← alloc (Obj c None false (A_uexpr (operator_of c)) []);
  expr_init self [op];;
  mret self.

(** The binary classes: [bexpr_t.__init__(self, op1, operator, op2)];
    [assign_t.__init__] checks its first operand before and marks it
    as a definition after. *)
Definition new_bexpr (c : class) (op1 op2 : option ref) : M ref :=
  match c with
  | assign_t =>
      a ← match op1 with
          | Some v => o ← get_obj v; mret (is_assignable (cls o))
          | None => mret false
          end;
      py_assert a
  | _ => mret tt
  end;;
  self ← alloc (Obj c None false (A_bexpr (operator_of c)) []);
  expr_init self [op1; op2];;
  match c, op1 with
  | assign_t, Some v => modify v (with_is_def true)
  | _, _ => mret tt
  end;;
  mret self.

(** [ternary_if_t(cond, then, _else)] *)
Definition new_ternary_if (cond then_ else_ : option ref) : M ref :=
  self ← alloc (Obj ternary_if_t None false (A_texpr "?" ":") []);
  expr_init self [cond; then_; else_];;
  mret self.

(** ** Copy *)

(** [v.copy()] on an operand that may be [None] *)
Definition copy_attr (rec : ref → M ref) (v : option ref) : M ref :=
  match v with
  | Some r => rec r
  | None => raise AttributeError
  end.

(** [self.copy()]: every class but [ternary_if_t] defines it. *)
Fixpoint copy (fuel : nat) (self : ref) : M ref :=
  match fuel with
  | O => raise OutOfFuel
  | S n =>
      o ← get_obj self;
      match cls o with
      | regloc_t | flagloc_t =>
          match fields o with
          | A_regloc w nm i => new_regloc (cls o) w nm i
          | _ => raise AttributeError
          end
      | value_t =>
          match fields o with
          | A_value x => new_value x
          | _ => raise AttributeError
          end
      | var_t | arg_t =>
          match fields o with
          | A_named w nm => w' ← copy n w; new_named n (cls o) w' (Some nm)
          | _ => raise AttributeError
          end
      | call_t =>
          fct ← read (λ h, getitem h self 0);
          fct' ← copy_attr (copy n) fct;
          params ← read (λ h, getitem h self 1);
          t ← read (λ h, truthy h params);
          params' ← (if t : bool then
                       params ← read (λ h, getitem h self 1);
                       p ← copy_attr (copy n) params; mret (Some p)
                     else mret None);
          new_call (Some fct') params'
      | ternary_if_t => raise AttributeError
      | c =>
          if is_uexpr c then
            op ← read (λ h, getitem h self 0);
            op' ← copy_attr (copy n) op;
            new_uexpr c (Some op')
          else
            op1 ← read (λ h, getitem h self 0);
            op1' ← copy_attr (copy n) op1;
            op2 ← read (λ h, getitem h self 1);
            op2' ← copy_attr (copy n) op2;
            new_bexpr c (Some op1') (Some op2')
      end
  end.

End methods.

(** The methods that render name the database they read. *)
Arguments value_str : clear implicits.
Arguments str : clear implicits.
Arguments new_named : clear implicits.
Arguments copy : clear implicits.

(** ** Constant folding on [add_t] and [sub_t] *)

Definition get_value (r : option ref) : M (option Z) :=
  match r with
  | Some r =>
      o ← get_obj r;
      match fields o with
      | A_value v => mret v
      | _ => raise AttributeError
      end
  | None => raise AttributeError
  end.

(** [self.op2.value = self.op2.value (+|-) other.value] *)
Definition fold_value (op : Z → Z → Z) (self other : ref) : M unit :=
  op2 ← read (λ h, getitem h self 1);
  a ← get_value op2;
  b ← get_value (Some other);
  match op2, a, b with
  | Some r, Some x, Some y => modify r (with_fields (A_value (Some (op x y))))
  | _, _, _ => raise TypeError
  end.

Definition is_value (other : ref) : M bool :=
  o ← get_obj other; mret (bool_decide (cls o = value_t)).

(** [add_t.add], [add_t.sub], [sub_t.add], [sub_t.sub] *)
Definition add_t_add (self other : ref) : M unit :=
  v ← is_value other;
  if v : bool then fold_value Z.add self other else raise RuntimeError.
Definition add_t_sub (self other : ref) : M unit :=
  v ← is_value other;
  if v : bool then fold_value Z.sub self other else raise RuntimeError.
Definition sub_t_add (self other : ref) : M unit :=
  v ← is_value other;
  if v : bool then fold_value Z.sub self other else raise RuntimeError.
Definition sub_t_sub (self other : ref) : M unit :=
  v ← is_value other;
  if v : bool then fold_value Z.add self other else raise RuntimeError.

(** [self.add(other)] and [self.sub(other)], dispatched on the class of
    [self]; only [add_t] and [sub_t] have these methods. *)
Definition fold_add (self other : ref) : M unit :=
  o ← get_obj self;
  match cls o with
  | add_t => add_t_add self other
  | sub_t => sub_t_add self other
  | _ => raise AttributeError
  end.
Definition fold_sub (self other : ref) : M unit :=
  o ← get_obj self;
  match cls o with
  | add_t => add_t_sub self other
  | sub_t => sub_t_sub self other
  | _ => raise AttributeError
  end.

(** ** Notions used in the statements *)

(** The guard of [assign_t.__setitem__]: under the key 0 an assignment
    takes assignable objects only; under every other key, and every
    other class, any object passes. *)
Definition slot_admits (owner : class) (key : Z) (child : class) : bool :=
  match owner with
  | assign_t => if decide (key = 0%Z) then is_assignable child else true
  | _ => true
  end.

(** [str(v)] returns in the store [h]. *)
Definition renders (db : ida) (h : heap) (v : option ref) : Prop :=
  ∃ s, str db (S (List.length h)) h v = Ok s.

(** [r] is an object of the store whose parent link is [p]. *)
Definition has_parent (h : heap) (r : ref) (p : option (ref * Z)) : Prop :=
  ∃ o, h !! r = Some o ∧ parent o = p.

(** [r] is an object of the store whose [is_def] flag is [b]. *)
Definition has_is_def (h : heap) (r : ref) (b : bool) : Prop :=
  ∃ o, h !! r = Some o ∧ is_def o = b.

(** Two states of one object that differ at most in the [is_def] flag. *)
Definition same_shape (o o' : obj) : Prop :=
  cls o' = cls o ∧ parent o' = parent o ∧ fields o' = fields o ∧
  operands o' = operands o.

(** The store after the guard of [assign_t.__setitem__] has passed: under
    the key 0 an assignment flags the incoming object as a definition. *)
Definition marked (owner : class) (key : Z) (v : ref) (h : heap) : heap :=
  match owner with
  | assign_t => if decide (key = 0%Z) then alter (with_is_def true) v h else h
  | _ => h
  end.

(** The store after [self[key] = v] on a parent-less [v]. *)
Definition attached (self : ref) (key : Z) (v : ref) (h : heap) : heap :=
  alter (set_operand key (Some v)) self
    (alter (with_parent (Some (self, key))) v h).

(** A computation that creates no object and takes every object [o] at
    reference [i] to an object related to it by [R i]. *)
Definition evolves {A} (R : ref → obj → obj → Prop) (m : M A) : Prop :=
  ∀ (h : heap) r (h' : heap), m h = (r, h') →
    List.length h' = List.length h ∧
    ∀ i o, h !! i = Some o → ∃ o', h' !! i = Some o' ∧ R i o o'.

(** What [self[key] = value] may change: the operand list of [self] (not
    its length), and the parent link and [is_def] flag of [value]. *)
Definition setitem_rel (self : ref) (value : option ref) (i : ref)
    (o o' : obj) : Prop :=
  cls o' = cls o ∧ fields o' = fields o ∧
  List.length (operands o') = List.length (operands o) ∧
  (value ≠ Some i → parent o' = parent o ∧ is_def o' = is_def o) ∧
  (i ≠ self → operands o' = operands o) ∧
  (is_def o = true → is_def o' = true).

(** Weakest precondition of a computation for a postcondition on its
    result and final store. *)
Definition wp {A} (m : M A) (Q : result A → heap → Prop) (h : heap) : Prop :=
  Q (fst (m h)) (snd (m h)).


(** What [expr_t.__init__] on [self] with operands [ops] may change. *)
Definition init_rel (self : ref) (ops : list (option ref)) (i : ref)
    (o o' : obj) : Prop :=
  cls o' = cls o ∧
  (Some i ∉ ops → i ≠ self → o' = o) ∧
  (Some i ∉ ops → parent o = None → parent o' = None).



(** [r] is a literal of the store whose payload is [v]. *)
Definition has_value (h : heap) (r : ref) (v : option Z) : Prop :=
  ∃ o, h !! r = Some o ∧ cls o = value_t ∧ fields o = A_value v.

(** The prefix and postfix operator classes with the text they put before
    and after their operand. *)
Definition affixes (c : class) : option (string * string) :=
  match c with
  | not_t => Some ("~", "") | b_not_t => Some ("!", "")
  | deref_t => Some ("*", "") | address_t => Some ("&", "")
  | neg_t => Some ("-", "")
  | preinc_t => Some ("++", "") | predec_t => Some ("--", "")
  | postinc_t => Some ("", "++") | postdec_t => Some ("", "--")
  | _ => None
  end.

(** The operand is a storage location, a variable or an argument. *)
Definition plain_leaf (h : heap) (v : option ref) : Prop :=
  ∃ r o, v = Some r ∧ h !! r = Some o ∧
         (cls o = regloc_t ∨ cls o = var_t ∨ cls o = arg_t).

(** Reading back the digits that ['%u'] and ['%x'] print. *)
Definition parse_dec (s : string) : option Z :=
  Z.of_int <$> DecimalString.NilZero.int_of_string s.
Definition parse_hex (s : string) : option Z :=
  Z.of_hex_int <$> HexadecimalString.NilZero.int_of_string s.

(** ** Subtrees *)

(** A finite tree of references: a node and the subtrees of the operands
    that the traversal enters, in slot order. *)
Inductive tree : Type :=
  | Node (r : ref) (kids : list tree).

Definition root (t : tree) : ref :=
  match t with Node r _ => r end.

Fixpoint postorder (t : tree) : list ref :=
  match t with
  | Node r kids => concat (map postorder kids) ++ [r]
  end.

Fixpoint height (t : tree) : nat :=
  match t with
  | Node _ kids => S (foldr Nat.max 0%nat (map height kids))
  end.

Fixpoint size (t : tree) : nat :=
  match t with
  | Node _ kids => S (foldr Nat.add 0%nat (map size kids))
  end.

(** The loop of [iteroperands] skips an operand whose truth value is
    false: an empty slot, or a composite without operand slots. *)
Definition entered (h : heap) (c : ref) : bool :=
  match truthy h (Some c) with
  | Ok false => false
  | _ => true
  end.

Fixpoint slots_entered (h : heap) (l : list (option ref)) : list ref :=
  match l with
  | [] => []
  | None :: l' => slots_entered h l'
  | Some c :: l' =>
      if entered h c then c :: slots_entered h l' else slots_entered h l'
  end.

(** The operands of [o] that the traversal enters; the leaf classes
    have none. *)
Definition children (h : heap) (o : obj) : list ref :=
  if is_expr (cls o) then slots_entered h (operands o) else [].

(** The store holds the tree [t]: every node is an object whose entered
    operands are the roots of its subtrees. *)
Inductive represents (h : heap) : tree → Prop :=
  | represents_node r o kids :
      h !! r = Some o →
      children h o = map root kids →
      Forall (represents h) kids →
      represents h (Node r kids).

(** [x] is a node of the subtree rooted at [r]. *)
Inductive reach (h : heap) : ref → ref → Prop :=
  | reach_here r : reach h r r
  | reach_child r o c x :
      h !! r = Some o → c ∈ children h o → reach h c x → reach h r x.

(** Exclusive ownership: an object occupies at most one operand slot. *)
Definition exclusive (h : heap) : Prop :=
  ∀ r o k r' o' k' c,
    h !! r = Some o → is_expr (cls o) = true →
    operands o !! k = Some (Some c) →
    h !! r' = Some o' → is_expr (cls o') = true →
    operands o' !! k' = Some (Some c) →
    r = r' ∧ k = k'.

(** Every composite has at least one operand slot, as the constructors
    of the composite classes make them. *)
Definition slots_nonempty (h : heap) : Prop :=
  ∀ r o, h !! r = Some o → is_expr (cls o) = true → operands o ≠ [].

(** [x] comes before an occurrence of [y] in [l]. *)
Definition before (l : list ref) (x y : ref) : Prop :=
  ∃ l1 l2, l = l1 ++ y :: l2 ∧ x ∈ l1.

(** ** Objects that [copy] can clone *)




(** ** Example stores, built by the constructors from the empty store *)

(** A database that resolves nothing; [repr] is left as the identity. *)
Definition db0 : ida := Ida (λ _, None) ∅ (λ s, s).

Section scenes.
#[local] Existing Instance db0.

(** [e = add_t(value_t(1), regloc_t(0)); n = neg_t(value_t(8)); value_t(9)]:
    0 is the literal 1, 1 is [eax], 2 is [e], 3 is the literal 8 owned by
    the negation 4, and 5 is a parent-less literal 9. *)
Definition scene_add : heap := Eval vm_compute in
  snd ((v ← new_value (Some 1%Z);
        loc ← new_regloc regloc_t 0 None None;
        e ← new_bexpr add_t (Some v) (Some loc);
        w ← new_value (Some 8%Z);
        n ← new_uexpr neg_t (Some w);
        new_value (Some 9%Z)) []).

(** [e = add_t(value_t(1), value_t(2)); value_t(3); value_t(4)]: 0 and 1
    are the operands of [e], which is 2; 3 and 4 are parent-less. *)
Definition scene_literals : heap := Eval vm_compute in
  snd ((a ← new_value (Some 1%Z);
        b ← new_value (Some 2%Z);
        e ← new_bexpr add_t (Some a) (Some b);
        c ← new_value (Some 3%Z);
        new_value (Some 4%Z)) []).

(** [a = assign_t(regloc_t(0), value_t(1)); value_t(5); regloc_t(1)]:
    0 is [eax], 1 the literal 1, 2 is [a]; the literal 5 at 3 and [ecx]
    at 4 are parent-less. *)
Definition scene_assign : heap := Eval vm_compute in
  snd ((loc ← new_regloc regloc_t 0 None None;
        v ← new_value (Some 1%Z);
        a ← new_bexpr assign_t (Some loc) (Some v);
        w ← new_value (Some 5%Z);
        new_regloc regloc_t 1 None None) []).

(** [a = assign_t(regloc_t(0), call_t(value_t(None), None)); value_t(5)]:
    0 is [eax], 1 the callee without an address, 2 the call, 3 is [a] and
    4 the parent-less literal 5.  The text of the call, and so the text
    of [a], cannot be rendered. *)
Definition scene_unrendered : heap := Eval vm_compute in
  snd ((loc ← new_regloc regloc_t 0 None None;
        f ← new_value None;
        c ← new_call (Some f) None;
        a ← new_bexpr assign_t (Some loc) (Some c);
        new_value (Some 5%Z)) []).

(** [add_t(value_t(1), value_t(2))], [sub_t(value_t(1), value_t(2))] and
    [value_t(3)]: the sum is 2 with second operand 1, the difference is 5
    with second operand 4, and 6 is the literal 3. *)
Definition scene_fold : heap := Eval vm_compute in
  snd ((a ← new_value (Some 1%Z);
        b ← new_value (Some 2%Z);
        e ← new_bexpr add_t (Some a) (Some b);
        c ← new_value (Some 1%Z);
        d ← new_value (Some 2%Z);
        s ← new_bexpr sub_t (Some c) (Some d);
        new_value (Some 3%Z)) []).

(** [preinc_t(eax)] at 1, [postinc_t(eax)] at 3, [predec_t(eax)] at 5 and
    [postdec_t(eax)] at 7, each over a register object of its own. *)
Definition scene_incr : heap := Eval vm_compute in
  snd ((x ← new_regloc regloc_t 0 None None;
        p ← new_uexpr preinc_t (Some x);
        y ← new_regloc regloc_t 0 None None;
        q ← new_uexpr postinc_t (Some y);
        x' ← new_regloc regloc_t 0 None None;
        p' ← new_uexpr predec_t (Some x');
        y' ← new_regloc regloc_t 0 None None;
        new_uexpr postdec_t (Some y')) []).

(** [ternary_if_t(value_t(1), value_t(2), value_t(3))] at 3 and
    [call_t(value_t(4096), None)] at 5. *)
Definition scene_gaps : heap := Eval vm_compute in
  snd ((a ← new_value (Some 1%Z);
        b ← new_value (Some 2%Z);
        c ← new_value (Some 3%Z);
        t ← new_ternary_if (Some a) (Some b) (Some c);
        f ← new_value (Some 4096%Z);
        new_call (Some f) None) []).

(** [not_t(eax)] at 1, [not_t(flagloc_t(0))] at 3, [neg_t(value_t(5))] at
    5 and [postinc_t(not_t(eax))] at 8. *)
Definition scene_unary : heap := Eval vm_compute in
  snd ((x ← new_regloc regloc_t 0 None None;
        n ← new_uexpr not_t (Some x);
        f ← new_regloc flagloc_t 0 None None;
        m ← new_uexpr not_t (Some f);
        v ← new_value (Some 5%Z);
        g ← new_uexpr neg_t (Some v);
        x' ← new_regloc regloc_t 0 None None;
        n' ← new_uexpr not_t (Some x');
        new_uexpr postinc_t (Some n')) []).

(** [add_t(neg_t(eax), call_t(value_t(4096), None))]: the register is 0,
    the negation 1, the callee 2, the call 3 and the sum 4. *)
Definition scene_tree : heap := Eval vm_compute in
  snd ((x ← new_regloc regloc_t 0 None None;
        n ← new_uexpr neg_t (Some x);
        f ← new_value (Some 4096%Z);
        c ← new_call (Some f) None;
        new_bexpr add_t (Some n) (Some c)) []).

Definition tree_sum : tree :=
  Node 4 [Node 1 [Node 0 []]; Node 3 [Node 2 []]].

End scenes.

(** ** Notions used for the invariants of the store *)

(** The link kept by the slot assignments: whoever occupies a slot of a
    composite has that composite and a key of that slot as its parent
    link. *)
Definition owned (h : heap) : Prop :=
  ∀ r o i c, h !! r = Some o → is_expr (cls o) = true →
             operands o !! i = Some (Some c) →
             ∃ key, has_parent h c (Some (r, key)) ∧
                    slot_of (List.length (operands o)) key = Some i.

(** The ways [expr_t.__setitem__] ends: refused before any update; the
    value linked but the slot not written; the value attached; an empty
    slot written. *)
Inductive setitem_outcome (h : heap) (self : ref) (key : Z)
    (v : option ref) : result unit → heap → Prop :=
  | outcome_refused res :
      res ≠ Ok tt → setitem_outcome h self key v res h
  | outcome_linked x ox res :
      v = Some x → h !! x = Some ox → parent ox = None → res ≠ Ok tt →
      (∀ os, h !! self = Some os →
             ¬ valid_key (List.length (operands os)) key) →
      setitem_outcome h self key v res
        (alter (with_parent (Some (self, key))) x h)
  | outcome_attached x ox os :
      v = Some x → h !! x = Some ox → parent ox = None →
      h !! self = Some os → valid_key (List.length (operands os)) key →
      setitem_outcome h self key v (Ok tt) (attached self key x h)
  | outcome_cleared os :
      v = None → h !! self = Some os →
      valid_key (List.length (operands os)) key →
      setitem_outcome h self key v (Ok tt)
        (alter (set_operand key None) self h).

(** Class and number of operand slots of every object are the same in
    both stores, and no object is lost. *)
Definition same_arity (h h' : heap) : Prop :=
  (List.length h ≤ List.length h')%nat ∧
  ∀ i o, h !! i = Some o →
         ∃ o', h' !! i = Some o' ∧ cls o' = cls o ∧
               List.length (operands o') = List.length (operands o).

(** The converse link: a parent link names a slot that holds the
    object. *)
Definition linked (h : heap) : Prop :=
  ∀ c oc r k, h !! c = Some oc → parent oc = Some (r, k) →
              getitem h r k = Ok (Some c).

(** A computation keeps an invariant of the store, however it ends. *)
Definition keeps {A} (I : heap → Prop) (m : M A) : Prop :=
  ∀ (h : heap) r (h' : heap), I h → m h = (r, h') → I h'.

(** The number of operand slots that the constructor of a class makes. *)
Definition arity (c : class) : nat :=
  match c with
  | call_t => 2
  | ternary_if_t => 3
  | _ => if is_uexpr c then 1 else if is_bexpr c then 2 else 0
  end.

(** The attributes that the constructor of a class sets. *)
Definition attrs_fit (c : class) (f : attrs) : Prop :=
  match f with
  | A_regloc _ _ _ => c = regloc_t ∨ c = flagloc_t
  | A_value _ => c = value_t
  | A_named _ _ => c = var_t ∨ c = arg_t
  | A_call => c = call_t
  | A_uexpr op => is_uexpr c = true ∧ op = operator_of c
  | A_bexpr op => is_bexpr c = true ∧ op = operator_of c
  | A_texpr op1 op2 => c = ternary_if_t ∧ op1 = "?" ∧ op2 = ":"
  end.

(** An object as its constructor makes it. *)
Definition shaped (o : obj) : Prop :=
  List.length (operands o) = arity (cls o) ∧ attrs_fit (cls o) (fields o).

Definition all_shaped (h : heap) : Prop :=
  ∀ r o, h !! r = Some o → shaped o.

Definition well_formed (h : heap) : Prop := owned h ∧ all_shaped h.

(** ** Sessions: the calls a client of the module can make *)

Inductive call : Type :=
  | Cregloc (c : class) (which : nat) (name : option string)
      (index : option nat)
  | Cvalue (value : option Z)
  | Cnamed (fuel : nat) (c : class) (where_ : ref) (name : option string)
  | Ccall (fct params : option ref)
  | Cunary (c : class) (op : option ref)
  | Cbinary (c : class) (op1 op2 : option ref)
  | Cternary_if (cond then_ else_ : option ref)
  | Csetitem (self : ref) (key : Z) (value : option ref)
  | Creplace (self : ref) (new : option ref)
  | Ccopy (fuel : nat) (self : ref)
  | Cadd (self other : ref)
  | Csub (self other : ref).

(** The class named in a constructor call is one of the classes that
    have that constructor. *)
Definition proper (c : call) : bool :=
  match c with
  | Cregloc c _ _ _ => bool_decide (c = regloc_t ∨ c = flagloc_t)
  | Cnamed _ c _ _ => bool_decide (c = var_t ∨ c = arg_t)
  | Cunary c _ => is_uexpr c
  | Cbinary c _ _ => is_bexpr c
  | _ => true
  end.

(** The store after a computation, whether it returned or raised. *)
Definition after {A} (m : M A) (h : heap) : heap := snd (m h).

Definition exec (db : ida) (c : call) : heap → heap :=
  match c with
  | Cregloc c which name index => after (new_regloc c which name index)
  | Cvalue value => after (new_value value)
  | Cnamed fuel c where_ name => after (new_named db fuel c where_ name)
  | Ccall fct params => after (new_call fct params)
  | Cunary c op => after (new_uexpr c op)
  | Cbinary c op1 op2 => after (new_bexpr c op1 op2)
  | Cternary_if cond then_ else_ => after (new_ternary_if cond then_ else_)
  | Csetitem self key value => after (setitem self key value)
  | Creplace self new => after (replace self new)
  | Ccopy fuel self => after (copy db fuel self)
  | Cadd self other => after (fold_add self other)
  | Csub self other => after (fold_sub self other)
  end.

(** The store after a sequence of calls from the empty store. *)
Definition session (db : ida) (calls : list call) : heap :=
  foldl (λ h c, exec db c h) [] calls.

(** Slots and parent links agree in both directions, and every object
    has the shape of its class. *)
Definition consistent (h : heap) : Prop := well_formed h ∧ linked h.

(** The calls that edit a tree through [replace] only: every proper call
    but the direct slot assignment. *)
Definition by_replace (c : call) : bool :=
  match c with
  | Csetitem _ _ _ => false
  | _ => proper c
  end.

(** * Properties *)

(** ** Running the primitives *)

Lemma bind_run {A B} (f : A → M B) (m : M A) (h : heap) :
  (m ≫= f) h =
  match m h with
  | (Ok a, h') => f a h'
  | (Raise e, h') => (Raise e, h')
  end.
Proof. reflexivity. Qed.

Lemma bind_assoc {A B C} (m : M A) (f : A → M B) (g : B → M C) (h : heap) :
  ((m ≫= f) ≫= g) h = (m ≫= (λ x, f x ≫= g)) h.
Proof. rewrite !bind_run. by destruct (m h) as [[a|e] h']. Qed.

Lemma bind_ok {A B} (m : M A) (f : A → M B) (h h' : heap) a :
  m h = (Ok a, h') → (m ≫= f) h = f a h'.
Proof. intros E. by rewrite bind_run, E. Qed.

Lemma bind_raise {A B} (m : M A) (f : A → M B) (h h' : heap) e :
  m h = (Raise e, h') → (m ≫= f) h = (Raise e, h').
Proof. intros E. by rewrite bind_run, E. Qed.

Lemma bind_ret {A B} (a : A) (f : A → M B) (h : heap) : (mret a ≫= f) h = f a h.
Proof. reflexivity. Qed.

Lemma assert_true {B} (f : unit → M B) (h : heap) :
  (py_assert true ≫= f) h = f tt h.
Proof. reflexivity. Qed.

Lemma assert_false {B} (f : unit → M B) (h : heap) :
  (py_assert false ≫= f) h = (Raise AssertionError, h).
Proof. reflexivity. Qed.

(** One step of a computation: reassociate, then run the head. *)
Ltac mok E := rewrite ?bind_assoc; rewrite (bind_ok _ _ _ _ _ E).
Ltac mpass := rewrite ?bind_assoc; first [rewrite assert_true | rewrite bind_ret].

Lemma get_obj_run (h : heap) r o : h !! r = Some o → get_obj r h = (Ok o, h).
Proof. intros E. unfold get_obj, read, lookup_obj. by rewrite E. Qed.

Lemma get_parent_run (h : heap) r o :
  h !! r = Some o → get_parent r h = (Ok (parent o), h).
Proof. intros E. unfold get_parent. by rewrite (bind_ok _ _ _ _ _ (get_obj_run _ _ _ E)). Qed.

Lemma modify_run (h : heap) r f o :
  h !! r = Some o → modify r f h = (Ok tt, alter f r h).
Proof. intros E. unfold modify. by rewrite E. Qed.

(** ** Keys and positions *)

Lemma slot_of_Some n key i :
  slot_of n key = Some i → valid_key n key ∧ (i < n)%nat.
Proof.
  unfold slot_of. destruct (decide (valid_key n key)) as [Hv|]; [|done].
  intros [= <-]. split; [done|]. unfold valid_key in Hv.
  destruct (decide (0 ≤ key)%Z); lia.
Qed.

Lemma slot_of_valid n key : valid_key n key → is_Some (slot_of n key).
Proof. intros Hv. unfold slot_of. rewrite decide_True by done. eauto. Qed.

Lemma slot_of_None n key : ¬ valid_key n key → slot_of n key = None.
Proof. intros Hv. unfold slot_of. by rewrite decide_False. Qed.

Lemma slot_of_nat n (i : nat) : (i < n)%nat → slot_of n (Z.of_nat i) = Some i.
Proof.
  intros Hi. unfold slot_of, valid_key.
  rewrite decide_True by lia. rewrite decide_True by lia.
  by rewrite Nat2Z.id.
Qed.

(** The keys of one position: the position itself and its negative
    alias. *)
Lemma slot_of_keys n key i :
  slot_of n key = Some i →
  key = Z.of_nat i ∨ key = (Z.of_nat i - Z.of_nat n)%Z.
Proof.
  unfold slot_of, valid_key.
  destruct (decide _) as [Hv|]; [|done]. intros [= <-].
  destruct (decide (0 ≤ key)%Z); lia.
Qed.

Lemma set_operand_operands key v o i :
  slot_of (List.length (operands o)) key = Some i →
  operands (set_operand key v o) = <[i := v]> (operands o).
Proof. intros Hi. unfold set_operand. by rewrite Hi. Qed.

Lemma set_operand_length key v o :
  List.length (operands (set_operand key v o)) = List.length (operands o).
Proof.
  unfold set_operand. destruct (slot_of _ key); [|done].
  simpl. by rewrite length_insert.
Qed.

Lemma set_operand_same key v o :
  cls (set_operand key v o) = cls o ∧
  parent (set_operand key v o) = parent o ∧
  is_def (set_operand key v o) = is_def o ∧
  fields (set_operand key v o) = fields o.
Proof. unfold set_operand. by destruct (slot_of _ key). Qed.

Section store.
Context {db : ida}.

Lemma store_operand_run (h : heap) self key v o :
  h !! self = Some o → valid_key (List.length (operands o)) key →
  store_operand self key v h = (Ok tt, alter (set_operand key v) self h).
Proof.
  intros E Hk. unfold store_operand.
  rewrite (bind_ok _ _ _ _ _ (get_obj_run _ _ _ E)).
  destruct (decide _); [|done]. by apply modify_run with o.
Qed.

Lemma store_operand_range (h : heap) self key v o :
  h !! self = Some o → ¬ valid_key (List.length (operands o)) key →
  store_operand self key v h = (Raise IndexError, h).
Proof.
  intros E Hk. unfold store_operand.
  rewrite (bind_ok _ _ _ _ _ (get_obj_run _ _ _ E)).
  by destruct (decide _).
Qed.

Lemma getitem_key (h : heap) self key i o v :
  h !! self = Some o → is_expr (cls o) = true →
  slot_of (List.length (operands o)) key = Some i →
  operands o !! i = Some v →
  getitem h self key = Ok v.
Proof.
  intros E Hc Hi Hv. unfold getitem, lookup_obj. rewrite E. simpl.
  by rewrite Hc, Hi, Hv.
Qed.

Lemma getitem_run (h : heap) self (i : nat) o v :
  h !! self = Some o → is_expr (cls o) = true → operands o !! i = Some v →
  getitem h self (Z.of_nat i) = Ok v.
Proof.
  intros E Hc Hv. eapply getitem_key; eauto.
  apply slot_of_nat. by eapply lookup_lt_Some.
Qed.

Lemma getitem_run0 (h : heap) self o v :
  h !! self = Some o → is_expr (cls o) = true →
  operands o !! 0%nat = Some v → getitem h self 0 = Ok v.
Proof. apply (getitem_run h self 0). Qed.

Lemma getitem_run1 (h : heap) self o v :
  h !! self = Some o → is_expr (cls o) = true →
  operands o !! 1%nat = Some v → getitem h self 1 = Ok v.
Proof. apply (getitem_run h self 1). Qed.

Lemma getitem_run2 (h : heap) self o v :
  h !! self = Some o → is_expr (cls o) = true →
  operands o !! 2%nat = Some v → getitem h self 2 = Ok v.
Proof. apply (getitem_run h self 2). Qed.

Lemma getitem_inv (h : heap) self key v :
  getitem h self key = Ok v →
  ∃ o i, h !! self = Some o ∧ is_expr (cls o) = true ∧
         slot_of (List.length (operands o)) key = Some i ∧
         operands o !! i = Some v.
Proof.
  unfold getitem, lookup_obj. destruct (h !! self) as [o|]; simpl; [|done].
  destruct (is_expr (cls o)) eqn:Hc; [|done].
  destruct (slot_of _ key) as [i|] eqn:Hi; [|done].
  destruct (operands o !! i) as [w|] eqn:E; [|done].
  intros [= <-]. by exists o, i.
Qed.

Lemma getitem_range (h : heap) self key o :
  h !! self = Some o → is_expr (cls o) = true →
  ¬ valid_key (List.length (operands o)) key →
  getitem h self key = Raise IndexError.
Proof.
  intros E Hc Hk. unfold getitem, lookup_obj. rewrite E. simpl.
  by rewrite Hc, slot_of_None.
Qed.

(** ** Slot assignment *)

Lemma expr_setitem_run (h : heap) self key v os ov :
  h !! self = Some os → valid_key (List.length (operands os)) key →
  h !! v = Some ov → parent ov = None →
  expr_setitem self key (Some v) h = (Ok tt, attached self key v h).
Proof.
  intros Es Hk Ev Hp. unfold expr_setitem, set_parent.
  simpl isinstance_replaceable. mpass.
  mok (get_parent_run _ _ _ Ev). rewrite Hp. simpl bool_decide. mpass.
  mok (modify_run _ _ (with_parent (Some (self, key))) _ Ev).
  destruct (decide (v = self)) as [->|Hne].
  - assert (os = ov) as -> by congruence.
    eapply store_operand_run.
    + rewrite list_lookup_alter_eq, Es. reflexivity.
    + done.
  - eapply store_operand_run; [|exact Hk].
    by rewrite list_lookup_alter_ne.
Qed.

Lemma expr_setitem_owned (h : heap) self key v ov :
  h !! v = Some ov → parent ov ≠ None →
  expr_setitem self key (Some v) h = (Raise AssertionError, h).
Proof.
  intros Ev Hp. unfold expr_setitem.
  simpl isinstance_replaceable. mpass.
  mok (get_parent_run _ _ _ Ev).
  destruct (parent ov); [|congruence].
  by rewrite ?bind_assoc, assert_false.
Qed.

Lemma expr_setitem_none (h : heap) self key os :
  h !! self = Some os → valid_key (List.length (operands os)) key →
  expr_setitem self key None h = (Ok tt, alter (set_operand key None) self h).
Proof.
  intros Es Hk. unfold expr_setitem. rewrite bind_ret.
  by eapply store_operand_run.
Qed.

Lemma attached_child (h : heap) self key v ov :
  h !! v = Some ov → has_parent (attached self key v h) v (Some (self, key)).
Proof.
  intros Ev. unfold attached, has_parent.
  destruct (decide (self = v)) as [->|Hne].
  - rewrite !list_lookup_alter_eq, Ev. simpl. eexists. split; [done|].
    by destruct (set_operand_same key (Some v)
                   (with_parent (Some (v, key)) ov)) as (_ & -> & _).
  - rewrite list_lookup_alter_ne by done.
    rewrite list_lookup_alter_eq, Ev. simpl. eauto.
Qed.

Lemma attached_slot (h : heap) self key v os :
  h !! self = Some os → is_expr (cls os) = true →
  valid_key (List.length (operands os)) key →
  getitem (attached self key v h) self key = Ok (Some v).
Proof.
  intros Es Hc Hk. unfold attached.
  destruct (slot_of_valid _ _ Hk) as [i Hi].
  destruct (slot_of_Some _ _ _ Hi) as [_ Hlt].
  set (p := Some (self, key)).
  assert (∃ os1, alter (with_parent p) v h !! self = Some os1 ∧
                 cls os1 = cls os ∧ operands os1 = operands os)
    as (os1 & Es1 & Hc1 & Hops1).
  { destruct (decide (v = self)) as [->|Hne].
    - rewrite list_lookup_alter_eq, Es. simpl. eauto.
    - rewrite list_lookup_alter_ne by done. eauto. }
  destruct (set_operand_same key (Some v) os1) as (Hcls & _).
  eapply (getitem_key _ _ _ i).
  - rewrite list_lookup_alter_eq, Es1. reflexivity.
  - congruence.
  - by rewrite set_operand_length, Hops1.
  - rewrite (set_operand_operands _ _ _ i) by by rewrite Hops1.
    apply list_lookup_insert_eq. by rewrite Hops1.
Qed.

Lemma same_shape_refl o : same_shape o o.
Proof. by repeat split. Qed.

Lemma marked_lookup (h : heap) v r o :
  h !! r = Some o →
  ∃ o', alter (with_is_def true) v h !! r = Some o' ∧ same_shape o o'.
Proof.
  intros E. destruct (decide (v = r)) as [->|Hne].
  - rewrite list_lookup_alter_eq, E. simpl. eexists; split; [done|].
    by repeat split.
  - rewrite list_lookup_alter_ne by done. eauto using same_shape_refl.
Qed.

Lemma marked_is_def (h : heap) v o :
  h !! v = Some o → has_is_def (alter (with_is_def true) v h) v true.
Proof.
  intros E. unfold has_is_def. rewrite list_lookup_alter_eq, E. simpl. eauto.
Qed.

Lemma alter_is_def_set_operand (h : heap) self key v r b :
  has_is_def h r b → has_is_def (alter (set_operand key v) self h) r b.
Proof.
  intros (o & E & Hb). unfold has_is_def. rewrite list_lookup_alter.
  case_decide; subst; rewrite ?E; simpl; [|eauto].
  eexists. split; [done|].
  by destruct (set_operand_same key v o) as (_ & _ & -> & _).
Qed.

Lemma attached_is_def (h : heap) self key v r b :
  has_is_def h r b → has_is_def (attached self key v h) r b.
Proof.
  intros (o & E & Hb). unfold attached.
  apply alter_is_def_set_operand. unfold has_is_def.
  rewrite list_lookup_alter. case_decide; subst; rewrite ?E; simpl; eauto.
Qed.

(** Dispatch of [self[key] = value]. *)
Lemma setitem_expr (h : heap) self key v os :
  h !! self = Some os → is_expr (cls os) = true → cls os ≠ assign_t →
  setitem self key v h = expr_setitem self key v h.
Proof.
  intros E Hc Hn. unfold setitem. mok (get_obj_run _ _ _ E).
  by destruct (cls os).
Qed.

Lemma setitem_assign (h : heap) self key v os :
  h !! self = Some os → cls os = assign_t →
  setitem self key v h = assign_setitem self key v h.
Proof.
  intros E Hc. unfold setitem. mok (get_obj_run _ _ _ E). by rewrite Hc.
Qed.

Lemma setitem_leaf (h : heap) self key v os :
  h !! self = Some os → is_expr (cls os) = false →
  setitem self key v h = (Raise TypeError, h).
Proof.
  intros E Hc. unfold setitem. mok (get_obj_run _ _ _ E).
  by destruct (cls os).
Qed.

(** ** The guard of [assign_t.__setitem__] *)

Lemma py_str_run (h : heap) v : snd (py_str v h) = h.
Proof. reflexivity. Qed.

(** A failing assertion raises: the exception of its message, or the
    [AssertionError] when the message renders. *)
Lemma assert_msg_false {B} self value (f : unit → M B) (h : heap) :
  ∃ e, (py_assert_msg false (py_str value;; py_str (Some self)) ≫= f) h
       = (Raise e, h) ∧
       (renders db h value → renders db h (Some self) → e = AssertionError).
Proof.
  unfold py_assert_msg, renders, py_str. rewrite !bind_run.
  destruct (str db (S (List.length h)) h value) as [s1|e1] eqn:E1.
  - destruct (str db (S (List.length h)) h (Some self)) as [s2|e2] eqn:E2.
    + exists AssertionError. split; [reflexivity|done].
    + destruct e2; (eexists; split; [reflexivity|]); by intros _ [s Hs].
  - destruct e1; (eexists; split; [reflexivity|]); by intros [s Hs].
Qed.

Lemma assert_msg_true {A B} (m : M A) (f : unit → M B) (h : heap) :
  (py_assert_msg true m ≫= f) h = f tt h.
Proof. reflexivity. Qed.

Lemma assign_setitem_target (h : heap) self v ov :
  h !! v = Some ov → is_assignable (cls ov) = true →
  assign_setitem self 0 (Some v) h =
  expr_setitem self 0 (Some v) (alter (with_is_def true) v h).
Proof.
  intros E Ha. unfold assign_setitem.
  destruct (decide (0 = 0)%Z); [|done].
  mok (get_obj_run _ _ _ E). mpass. rewrite Ha.
  rewrite ?bind_assoc, assert_msg_true.
  by mok (modify_run _ _ (with_is_def true) _ E).
Qed.

(** An object that is not assignable, and [None], are refused under the
    key 0 with the store as it was. *)
Lemma assign_setitem_reject (h : heap) self value :
  (∀ v, value = Some v →
        ∃ ov, h !! v = Some ov ∧ is_assignable (cls ov) = false) →
  ∃ e, assign_setitem self 0 value h = (Raise e, h) ∧
       (renders db h value → renders db h (Some self) → e = AssertionError).
Proof.
  intros Hv. unfold assign_setitem.
  destruct (decide (0 = 0)%Z); [|done].
  destruct value as [v|].
  - destruct (Hv v eq_refl) as (ov & E & Ha).
    mok (get_obj_run _ _ _ E). mpass. rewrite Ha.
    rewrite ?bind_assoc. apply assert_msg_false.
  - mpass. rewrite ?bind_assoc. apply assert_msg_false.
Qed.

Lemma assign_setitem_other (h : heap) self key v :
  key ≠ 0%Z → assign_setitem self key v h = expr_setitem self key v h.
Proof.
  intros Hk. unfold assign_setitem. destruct (decide (key = 0%Z)); [done|].
  by rewrite bind_ret.
Qed.

Lemma marked_cases c key v (h : heap) :
  marked c key v h = h ∨ marked c key v h = alter (with_is_def true) v h.
Proof. unfold marked. destruct c; auto. destruct (decide _); auto. Qed.

Lemma marked_other c key v (h : heap) :
  ¬ (c = assign_t ∧ key = 0%Z) → marked c key v h = h.
Proof.
  intros Hn. unfold marked. destruct c; try done.
  destruct (decide _); [|done]. by destruct Hn.
Qed.

Lemma marked_target v (h : heap) :
  marked assign_t 0 v h = alter (with_is_def true) v h.
Proof. reflexivity. Qed.

Lemma slot_admits_target child :
  slot_admits assign_t 0 child = is_assignable child.
Proof. reflexivity. Qed.

Lemma slot_admits_other c key child :
  ¬ (c = assign_t ∧ key = 0%Z) → slot_admits c key child = true.
Proof.
  intros Hn. unfold slot_admits. destruct c; try done.
  destruct (decide _); [|done]. by destruct Hn.
Qed.

(** A parent-less object that the slot admits is attached. *)
Lemma setitem_run (h : heap) owner key v oo ov :
  h !! owner = Some oo → is_expr (cls oo) = true →
  valid_key (List.length (operands oo)) key →
  h !! v = Some ov → parent ov = None →
  slot_admits (cls oo) key (cls ov) = true →
  setitem owner key (Some v) h =
  (Ok tt, attached owner key v (marked (cls oo) key v h)).
Proof.
  intros Eo Hc Hk Ev Hp Ha.
  destruct (decide (cls oo = assign_t)) as [Hcl|Hcl].
  - rewrite (setitem_assign _ _ _ _ _ Eo Hcl).
    destruct (decide (key = 0%Z)) as [->|Hk0].
    + rewrite Hcl in Ha |- *. rewrite slot_admits_target in Ha.
      rewrite marked_target.
      rewrite (assign_setitem_target _ _ _ _ Ev Ha).
      destruct (marked_lookup h v _ _ Eo) as (oo' & Eo' & _ & _ & _ & Hops).
      destruct (marked_lookup h v _ _ Ev) as (ov' & Ev' & _ & Hpar & _).
      eapply expr_setitem_run; eauto; congruence.
    + rewrite assign_setitem_other by done.
      rewrite marked_other by (by intros [_ ?]).
      by eapply expr_setitem_run.
  - rewrite (setitem_expr _ _ _ _ _ Eo Hc Hcl).
    rewrite marked_other by (by intros [? _]).
    by eapply expr_setitem_run.
Qed.

(** An object that already has a parent is refused: by the assertion of
    [expr_t.__setitem__] when it passes the guard of the assignment, and
    by that guard otherwise. *)
Lemma setitem_owned (h : heap) owner key v oo ov :
  h !! owner = Some oo → is_expr (cls oo) = true →
  h !! v = Some ov → parent ov ≠ None →
  ∃ e h', setitem owner key (Some v) h = (Raise e, h') ∧
          (slot_admits (cls oo) key (cls ov) = true → e = AssertionError).
Proof.
  intros Eo Hc Ev Hp.
  destruct (decide (cls oo = assign_t)) as [Hcl|Hcl].
  - rewrite (setitem_assign _ _ _ _ _ Eo Hcl).
    destruct (decide (key = 0%Z)) as [->|Hk0].
    + rewrite Hcl, slot_admits_target.
      destruct (is_assignable (cls ov)) eqn:Ha.
      * rewrite (assign_setitem_target _ _ _ _ Ev Ha).
        destruct (marked_lookup h v _ _ Ev) as (ov' & Ev' & _ & Hpar & _).
        eexists _, _. split; [|done].
        eapply expr_setitem_owned; eauto. congruence.
      * destruct (assign_setitem_reject h owner (Some v)) as (e & E & _).
        { intros v' [= <-]. eauto. }
        exists e, h. by split.
    + rewrite assign_setitem_other by done.
      eexists _, _. split; [by eapply expr_setitem_owned|done].
  - rewrite (setitem_expr _ _ _ _ _ Eo Hc Hcl).
    eexists _, _. split; [by eapply expr_setitem_owned|done].
Qed.


End store.

(** ** Replacement *)

Section replacement.
Context {db : ida}.

Lemma read_run {A} (f : heap → result A) (h : heap) a :
  f h = Ok a → read f h = (Ok a, h).
Proof. intros E. unfold read. by rewrite E. Qed.

Lemma getitem_alter_parent (h : heap) r p self key :
  getitem (alter (with_parent p) r h) self key = getitem h self key.
Proof.
  unfold getitem, lookup_obj. rewrite list_lookup_alter.
  case_decide; subst; by destruct (h !! self).
Qed.

Lemma getitem_alter_is_def (h : heap) r b self key :
  getitem (alter (with_is_def b) r h) self key = getitem h self key.
Proof.
  unfold getitem, lookup_obj. rewrite list_lookup_alter.
  case_decide; subst; by destruct (h !! self).
Qed.

Lemma alter_is_Some (h : heap) (f : obj → obj) r i :
  is_Some (h !! i) → is_Some (alter f r h !! i).
Proof.
  intros [o E]. rewrite list_lookup_alter.
  case_decide; subst; rewrite E; simpl; eauto.
Qed.

Lemma lookup_alter_inv (h : heap) (f : obj → obj) x r o :
  alter f x h !! r = Some o →
  ∃ o0, h !! r = Some o0 ∧ (r = x ∧ o = f o0 ∨ r ≠ x ∧ o = o0).
Proof.
  rewrite list_lookup_alter. case_decide; subst.
  - destruct (h !! r) as [o0|]; [|done]. intros [= <-]. eauto.
  - intros E. eauto.
Qed.

Lemma detached (h : heap) node :
  is_Some (h !! node) → has_parent (alter (with_parent None) node h) node None.
Proof.
  intros [o E]. unfold has_parent. rewrite list_lookup_alter_eq, E. simpl. eauto.
Qed.

Lemma has_parent_alter_ne (h : heap) (f : obj → obj) r i p :
  r ≠ i → has_parent h i p → has_parent (alter f r h) i p.
Proof.
  intros Hne (o & E & Hp). exists o. by rewrite list_lookup_alter_ne.
Qed.

(** The store after a successful [node.replace(new)]. *)
Lemma replace_run (h : heap) node new owner k on onew oo :
  h !! node = Some on → parent on = Some (owner, k) →
  getitem h owner k = Ok (Some node) →
  h !! new = Some onew → parent onew = None →
  h !! owner = Some oo → slot_admits (cls oo) k (cls onew) = true →
  replace node (Some new) h =
  (Ok (Some node),
   alter (with_parent None) node
     (attached owner k new (marked (cls oo) k new h))).
Proof.
  intros En Hpn Hslot Enew Hpnew Eo Ha.
  destruct (getitem_inv _ _ _ _ Hslot) as (oo' & i & Eo' & Hc & Hi & Hops).
  assert (oo' = oo) as -> by congruence.
  assert (valid_key (List.length (operands oo)) k) as Hk
    by by destruct (slot_of_Some _ _ _ Hi).
  pose proof (setitem_run _ _ _ _ _ _ Eo Hc Hk Enew Hpnew Ha) as Hset.
  unfold replace. simpl isinstance_replaceable. mpass.
  mok (get_parent_run _ _ _ En). rewrite Hpn.
  mok (read_run (λ h, getitem h owner k) _ _ Hslot).
  rewrite bool_decide_eq_true_2 by done. mpass.
  mok (get_parent_run _ _ _ En). rewrite Hpn.
  mok Hset.
  assert (is_Some (attached owner k new (marked (cls oo) k new h) !! node))
    as [on' En'].
  { unfold attached. do 2 apply alter_is_Some.
    destruct (marked_cases (cls oo) k new h) as [-> | ->];
      [|apply alter_is_Some]; eauto. }
  unfold set_parent. by mok (modify_run _ _ (with_parent None) _ En').
Qed.

Lemma replace_root (h : heap) node new on :
  h !! node = Some on → parent on = None →
  replace node (Some new) h = (Ok None, h).
Proof.
  intros En Hp. unfold replace. simpl isinstance_replaceable. mpass.
  mok (get_parent_run _ _ _ En). by rewrite Hp.
Qed.

Lemma replace_effect (h : heap) node new owner k on onew oo :
  h !! node = Some on → parent on = Some (owner, k) →
  getitem h owner k = Ok (Some node) →
  h !! new = Some onew → parent onew = None →
  h !! owner = Some oo → slot_admits (cls oo) k (cls onew) = true →
  ∃ h', replace node (Some new) h = (Ok (Some node), h') ∧
        getitem h' owner k = Ok (Some new) ∧
        has_parent h' new (Some (owner, k)) ∧
        has_parent h' node None.
Proof.
  intros En Hpn Hslot Enew Hpnew Eo Ha.
  pose proof (replace_run _ _ _ _ _ _ _ _ En Hpn Hslot Enew Hpnew Eo Ha) as Hrun.
  pose proof (marked_cases (cls oo) k new h) as Hh0.
  set (h0 := marked (cls oo) k new h) in *.
  destruct (getitem_inv _ _ _ _ Hslot) as (oo' & i & Eo' & Hc & Hi & Hops).
  assert (oo' = oo) as -> by congruence.
  assert (valid_key (List.length (operands oo)) k) as Hk
    by by destruct (slot_of_Some _ _ _ Hi).
  assert (node ≠ new) as Hne by (intros ->; congruence).
  assert (∃ oo0, h0 !! owner = Some oo0 ∧ same_shape oo oo0) as (oo0 & Eo0 & Hs0).
  { destruct Hh0 as [-> | ->]; [eauto using same_shape_refl|].
    by apply marked_lookup. }
  assert (is_Some (h0 !! new)) as [onew0 Enew0].
  { destruct Hh0 as [-> | ->]; [|apply alter_is_Some]; eauto. }
  assert (is_Some (h0 !! node)) as Hnode0.
  { destruct Hh0 as [-> | ->]; [|apply alter_is_Some]; eauto. }
  destruct Hs0 as (Hcls & _ & _ & Hoper).
  eexists. split; [exact Hrun|]. split; [|split].
  - rewrite getitem_alter_parent.
    eapply attached_slot; eauto; congruence.
  - apply has_parent_alter_ne; [done|]. by eapply attached_child.
  - apply detached. unfold attached. by do 2 apply alter_is_Some.
Qed.

End replacement.

(** ** Frame reasoning *)

Section evolution.
Context {db : ida} (R : ref → obj → obj → Prop).
Hypothesis R_refl : ∀ i o, R i o o.
Hypothesis R_trans : ∀ i o1 o2 o3, R i o1 o2 → R i o2 o3 → R i o1 o3.

Lemma evolves_same {A} (m : M A) :
  (∀ h, snd (m h) = h) → evolves R m.
Proof.
  intros Hm h r h' E. specialize (Hm h). rewrite E in Hm. simpl in Hm.
  subst h'. split; [done|]. eauto.
Qed.

Lemma evolves_ret {A} (a : A) : evolves R (mret a).
Proof. by apply evolves_same. Qed.

Lemma evolves_raise {A} e : evolves R (raise e : M A).
Proof. by apply evolves_same. Qed.

Lemma evolves_read {A} (f : heap → result A) : evolves R (read f).
Proof. by apply evolves_same. Qed.

Lemma evolves_assert b : evolves R (py_assert b).
Proof. apply evolves_same. by destruct b. Qed.

Lemma evolves_get_obj r : evolves R (get_obj r).
Proof. by apply evolves_same. Qed.

Lemma evolves_py_str v : evolves R (py_str v).
Proof. by apply evolves_same. Qed.

Lemma evolves_bind {A B} (m : M A) (f : A → M B) :
  evolves R m → (∀ a, evolves R (f a)) → evolves R (m ≫= f).
Proof.
  intros Hm Hf h r h' E. rewrite bind_run in E.
  destruct (m h) as [[a|e] h1] eqn:E1.
  - destruct (Hm _ _ _ E1) as [Hl1 H1].
    destruct (Hf a _ _ _ E) as [Hl2 H2].
    split; [congruence|]. intros i o Hi.
    destruct (H1 _ _ Hi) as (o1 & Hi1 & Hr1).
    destruct (H2 _ _ Hi1) as (o2 & Hi2 & Hr2). eauto.
  - injection E as <- <-. by apply (Hm _ _ _ E1).
Qed.

Lemma evolves_get_parent r : evolves R (get_parent r).
Proof.
  apply evolves_bind; [apply evolves_get_obj|]. intros. apply evolves_ret.
Qed.

Lemma evolves_modify r f :
  (∀ o, R r o (f o)) → evolves R (modify r f).
Proof.
  intros Hf h res h' E. unfold modify in E.
  destruct (h !! r) as [o|] eqn:Er; injection E as <- <-.
  - split; [apply length_alter|]. intros i oi Hi.
    rewrite list_lookup_alter. case_decide; subst.
    + rewrite Er. simpl. assert (oi = o) as -> by congruence. eauto.
    + eauto.
  - split; [done|]. eauto.
Qed.

Lemma evolves_assert_msg {A} b (m : M A) :
  evolves R m → evolves R (py_assert_msg b m).
Proof.
  intros Hm. destruct b; simpl; [apply evolves_ret|].
  apply evolves_bind; [done|]. intros _. apply evolves_raise.
Qed.

End evolution.


Lemma setitem_rel_refl self value i o : setitem_rel self value i o o.
Proof. by repeat split. Qed.

Lemma setitem_rel_trans self value i o1 o2 o3 :
  setitem_rel self value i o1 o2 → setitem_rel self value i o2 o3 →
  setitem_rel self value i o1 o3.
Proof.
  unfold setitem_rel. intros (?&?&?&Hp&Ho&?) (?&?&?&Hp'&Ho'&?).
  split; [congruence|]. split; [congruence|]. split; [congruence|].
  split; [|split].
  - intros Hv. destruct (Hp Hv), (Hp' Hv). split; congruence.
  - intros Hs. rewrite Ho', Ho; auto.
  - auto.
Qed.


(** Structural proof of [evolves]; [evolve_side] closes the reflexivity
    and transitivity conditions of the relation at hand. *)
Ltac evolve_side := first [apply setitem_rel_refl | apply setitem_rel_trans].
Ltac evolve :=
  repeat (first
    [ apply evolves_ret | apply evolves_raise | apply evolves_read
    | apply evolves_assert | apply evolves_get_obj | apply evolves_get_parent
    | apply evolves_py_str | apply evolves_assert_msg
    | apply evolves_bind | apply evolves_modify
    | match goal with
      | |- evolves _ (match ?x with _ => _ end) => destruct x
      | |- _ → evolves _ _ => intros ?
      end ];
    try evolve_side).

Section slot_assignment_frame.
Context {db : ida}.

Lemma expr_setitem_evolves self key value :
  evolves (setitem_rel self value) (expr_setitem self key value).
Proof.
  unfold expr_setitem, store_operand, set_parent. evolve.
  - intros o. repeat split; intros; simpl; congruence.
  - intros o. unfold setitem_rel.
    destruct (set_operand_same key value o) as (-> & -> & -> & ->).
    rewrite set_operand_length. repeat split; intros; congruence.
Qed.

Lemma assign_setitem_evolves self key value :
  evolves (setitem_rel self value) (assign_setitem self key value).
Proof.
  unfold assign_setitem.
  apply evolves_bind;
    [apply setitem_rel_trans | | intros; apply expr_setitem_evolves].
  evolve. intros o. repeat split; intros; simpl; congruence.
Qed.

Lemma setitem_evolves self key value :
  evolves (setitem_rel self value) (setitem self key value).
Proof.
  unfold setitem.
  apply evolves_bind;
    [apply setitem_rel_trans | apply evolves_get_obj, setitem_rel_refl |].
  intros o.
  destruct (cls o); simpl;
    first [ apply assign_setitem_evolves | apply expr_setitem_evolves
          | apply evolves_raise, setitem_rel_refl ].
Qed.

End slot_assignment_frame.

(** ** Weakest preconditions *)




Lemma wp_raise {A} e (Q : result A → heap → Prop) (h : heap) :
  Q (Raise e) h → wp (raise e) Q h.
Proof. done. Qed.



Lemma wp_assert (b : bool) (Q : result unit → heap → Prop) (h : heap) :
  Q (if b then Ok tt else Raise AssertionError) h → wp (py_assert b) Q h.
Proof. by destruct b. Qed.





(** ** Constructors leave the existing objects alone *)





Lemma init_rel_refl self ops i o : init_rel self ops i o o.
Proof. by repeat split. Qed.

Lemma init_rel_trans self ops i o1 o2 o3 :
  init_rel self ops i o1 o2 → init_rel self ops i o2 o3 →
  init_rel self ops i o1 o3.
Proof.
  intros (?&He&Hp) (?&He'&Hp'). split; [congruence|]. split.
  - intros ??. rewrite He', He; auto.
  - auto.
Qed.



Ltac evolve_side ::=
  first [ apply setitem_rel_refl | apply setitem_rel_trans
        | apply init_rel_refl | apply init_rel_trans ].

Section constructors_frame.
Context {db : ida}.









End constructors_frame.



Section copy_frame.
Variable db : ida.

End copy_frame.

(** ** Assignment nodes *)

Lemma alter_new (f : obj → obj) (h : heap) o :
  alter f (List.length h) (h ++ [o]) = h ++ [f o].
Proof.
  rewrite <- (Nat.add_0_r (List.length h)) at 1. by rewrite alter_app_r.
Qed.

Lemma alloc_run (h : heap) o : alloc o h = (Ok (List.length h), h ++ [o]).
Proof. reflexivity. Qed.

(** A write leaves the other positions of the operand list alone. *)
Lemma getitem_set_operand_ne (h : heap) self k k' x o :
  h !! self = Some o →
  slot_of (List.length (operands o)) k ≠ slot_of (List.length (operands o)) k' →
  getitem (alter (set_operand k x) self h) self k' = getitem h self k'.
Proof.
  intros E Hk. unfold getitem, lookup_obj. rewrite list_lookup_alter_eq, E.
  simpl. destruct (set_operand_same k x o) as (-> & _).
  destruct (is_expr (cls o)); [|done]. rewrite set_operand_length.
  destruct (slot_of _ k') as [i'|] eqn:Hi'; [|done].
  unfold set_operand. destruct (slot_of _ k) as [i|] eqn:Hi; [|done].
  simpl. rewrite list_lookup_insert_ne; [done|congruence].
Qed.

Section assignment.
Context {db : ida}.

(** The first operand of a new assignment must be assignable. *)
Lemma new_assign_reject (h : heap) op1 op2 :
  (∀ v, op1 = Some v → ∃ ov, h !! v = Some ov ∧ is_assignable (cls ov) = false) →
  new_bexpr assign_t op1 op2 h = (Raise AssertionError, h).
Proof.
  intros Hop. unfold new_bexpr. destruct op1 as [v|].
  - destruct (Hop v eq_refl) as (ov & Ev & Ha).
    mok (get_obj_run _ _ _ Ev). mpass. rewrite Ha.
    by rewrite ?bind_assoc, assert_false.
  - mpass. by rewrite ?bind_assoc, assert_false.
Qed.

(** Writing an object that is not assignable, or [None], under the key
    0: the call raises with the store as it was, an [AssertionError] when
    the message of the assertion renders. *)
Lemma assign_slot0_reject (h : heap) a oa value :
  h !! a = Some oa → cls oa = assign_t →
  (∀ v, value = Some v → ∃ ov, h !! v = Some ov ∧ is_assignable (cls ov) = false) →
  ∃ e, setitem a 0 value h = (Raise e, h) ∧
       (renders db h value → renders db h (Some a) → e = AssertionError).
Proof.
  intros Ea Hc Hv. rewrite (setitem_assign _ _ _ _ _ Ea Hc).
  by apply assign_setitem_reject.
Qed.

(** Writing an assignable object into slot 0 flags it, whether or not
    the attachment that follows succeeds. *)
(** An object that has a parent is refused by every composite: by the
    ownership assertion, or before it by the guard of slot 0 of an
    assignment. *)
Lemma setitem_owned_raises (h : heap) owner key v oo ov :
  h !! owner = Some oo → is_expr (cls oo) = true →
  h !! v = Some ov → parent ov ≠ None →
  ∃ e h', setitem owner key (Some v) h = (Raise e, h') ∧
          (slot_admits (cls oo) key (cls ov) = true → e = AssertionError) ∧
          (renders db h (Some v) → renders db h (Some owner) →
           e = AssertionError).
Proof.
  intros Eo Hc Ev Hp. destruct (slot_admits (cls oo) key (cls ov)) eqn:Ha.
  - destruct (setitem_owned h owner key v oo ov Eo Hc Ev Hp)
      as (e & h' & E & He).
    exists e, h'. split; [done|]. split; intros; by apply He.
  - assert (cls oo = assign_t ∧ key = 0%Z ∧ is_assignable (cls ov) = false)
      as (Hcls & -> & Hna).
    { unfold slot_admits in Ha.
      destruct (cls oo); try discriminate. by case_decide. }
    destruct (assign_slot0_reject h owner oo (Some v) Eo Hcls)
      as (e & E & He).
    { intros v' [= <-]. eauto. }
    exists e, h. split; [done|]. split; [done|]. exact He.
Qed.

Lemma assign_slot0_flags (h : heap) a oa v ov :
  h !! a = Some oa → cls oa = assign_t →
  h !! v = Some ov → is_assignable (cls ov) = true →
  ∃ r h', setitem a 0 (Some v) h = (r, h') ∧ has_is_def h' v true.
Proof.
  intros Ea Hc Ev Ha. rewrite (setitem_assign _ _ _ _ _ Ea Hc).
  rewrite (assign_setitem_target _ _ _ _ Ev Ha).
  destruct (expr_setitem a 0 (Some v) (alter (with_is_def true) v h))
    as [r h'] eqn:E.
  exists r, h'. split; [done|].
  destruct (expr_setitem_evolves _ _ _ _ _ _ E) as [_ Hrel].
  destruct (marked_is_def h v _ Ev) as (o1 & E1 & Hd1).
  destruct (Hrel _ _ E1) as (o' & E' & Hr). exists o'. split; [done|].
  by apply Hr.
Qed.

Lemma new_assign_run (h : heap) v ov op2 :
  h !! v = Some ov → is_assignable (cls ov) = true → parent ov = None →
  match op2 with
  | Some w => w ≠ v ∧ has_parent h w None
  | None => True
  end →
  ∃ h', new_bexpr assign_t (Some v) op2 h = (Ok (List.length h), h') ∧
        has_is_def h' v true ∧
        getitem h' (List.length h) 0 = Ok (Some v).
Proof.
  intros Ev Ha Hp Hop2. unfold new_bexpr.
  mok (get_obj_run _ _ _ Ev). mpass. rewrite Ha. mpass.
  mok (alloc_run h (Obj assign_t None false (A_bexpr (operator_of assign_t)) [])).
  assert (v < List.length h)%nat as Hv by by eapply lookup_lt_Some.
  unfold expr_init, set_parent.
  mok (modify_run (h ++ [Obj assign_t None false (A_bexpr (operator_of assign_t)) []])
         (List.length h) (with_parent None) _ (list_lookup_middle _ _ _ _ eq_refl)).
  rewrite alter_new.
  mok (modify_run (h ++ [with_parent None
           (Obj assign_t None false (A_bexpr (operator_of assign_t)) [])])
         (List.length h)
         (with_operands (replicate (List.length [Some v; op2]) None)) _
         (list_lookup_middle _ _ _ _ eq_refl)).
  rewrite alter_new. simpl.
  set (self := List.length h) in *.
  set (o3 := Obj assign_t None false (A_bexpr "=") [None; None]).
  set (h3 := h ++ [o3]).
  assert (h3 !! self = Some o3) as E3 by by apply list_lookup_middle.
  assert (h3 !! v = Some ov) as Ev3 by by (unfold h3; rewrite lookup_app_l).
  assert (setitem self 0 (Some v) h3 =
          (Ok tt, attached self 0 v (marked assign_t 0 v h3))) as E4.
  { eapply (setitem_run h3 self 0 v o3 ov); simpl; auto. done. }
  set (h4 := attached self 0 v (marked assign_t 0 v h3)) in *.
  destruct (setitem_evolves _ _ _ _ _ _ E4) as [Hl4 Hrel4].
  destruct (Hrel4 _ _ E3) as (o4 & Eo4 & Hc4 & _ & Hlen4 & _).
  destruct (Hrel4 _ _ Ev3) as (ov4 & Ev4 & _).
  assert (getitem h4 self 0 = Ok (Some v)) as Hslot4.
  { unfold h4. rewrite marked_target.
    destruct (marked_lookup h3 v _ _ E3) as (o3' & E3' & Hc3' & _ & _ & Hops3').
    eapply attached_slot; eauto.
    - by rewrite Hc3'.
    - rewrite Hops3'. done. }
  assert (∃ h5, setitem self 1 op2 h4 = (Ok tt, h5) ∧
                getitem h5 self 0 = Ok (Some v)) as (h5 & E5 & Hslot5).
  { destruct op2 as [w|].
    - destruct Hop2 as (Hwv & ow & Ew & Hpw).
      assert (w < self)%nat as Hw by by eapply lookup_lt_Some.
      assert (h3 !! w = Some ow) as Ew3 by by (unfold h3; rewrite lookup_app_l).
      destruct (Hrel4 _ _ Ew3) as (ow4 & Ew4 & _ & _ & _ & Hpar & _).
      destruct Hpar as [Hpar _]; [congruence|].
      assert (∃ o4', alter (with_parent (Some (self, 1%Z))) w h4 !! self
                     = Some o4' ∧
                     List.length (operands o4') = 2%nat) as (o4' & Eo4' & Hl4').
      { destruct (alter_is_Some h4 (with_parent (Some (self, 1%Z))) w self)
          as [o4' Eo4']; [by eexists|].
        exists o4'. split; [done|].
        destruct (lookup_alter_inv _ _ _ _ _ Eo4') as (o0 & E0 & H0).
        assert (o0 = o4) as -> by congruence.
        by destruct H0 as [[_ ->]|[_ ->]]. }
      eexists. split.
      + eapply (setitem_run h4 self 1 w o4 ow4); auto.
        * by rewrite Hc4.
        * by rewrite Hlen4.
        * congruence.
        * by rewrite Hc4.
      + rewrite marked_other by (by intros [_ ?]). unfold attached.
        rewrite (getitem_set_operand_ne _ _ _ _ _ _ Eo4')
          by by rewrite Hl4'.
        by rewrite getitem_alter_parent.
    - eexists. split.
      + rewrite (setitem_assign _ _ _ _ _ Eo4) by by rewrite Hc4.
        rewrite assign_setitem_other by done.
        eapply expr_setitem_none; [done|]. by rewrite Hlen4.
      + by rewrite (getitem_set_operand_ne _ _ _ _ _ _ Eo4)
          by by rewrite Hlen4. }
  simpl assign_each. mok E4. mok E5. mpass.
  destruct (setitem_evolves _ _ _ _ _ _ E5) as [_ Hrel5].
  destruct (Hrel5 _ _ Ev4) as (ov5 & Ev5 & _).
  mok (modify_run _ _ (with_is_def true) _ Ev5).
  eexists. split; [reflexivity|]. split.
  - by eapply marked_is_def.
  - by rewrite getitem_alter_is_def.
Qed.

Lemma has_is_def_alter_parent (h : heap) r p i b :
  has_is_def h i b → has_is_def (alter (with_parent p) r h) i b.
Proof.
  intros (o & E & Hb). unfold has_is_def. rewrite list_lookup_alter.
  case_decide; subst; rewrite ?E; simpl; eauto.
Qed.

(** Replacing the target of an assignment by an object that is not
    assignable is refused by the slot assignment inside [replace]. *)
Lemma replace_target_reject (h : heap) node new a on oa onew :
  h !! node = Some on → parent on = Some (a, 0%Z) →
  getitem h a 0 = Ok (Some node) →
  h !! a = Some oa → cls oa = assign_t →
  h !! new = Some onew → is_assignable (cls onew) = false →
  ∃ e, replace node (Some new) h = (Raise e, h) ∧
       (renders db h (Some new) → renders db h (Some a) →
        e = AssertionError).
Proof.
  intros En Hp Hslot Ea Hc Enew Hna.
  destruct (assign_slot0_reject h a oa (Some new) Ea Hc) as (e & E & He).
  { intros v [= <-]. eauto. }
  exists e. split; [|done]. unfold replace.
  simpl isinstance_replaceable. mpass.
  mok (get_parent_run _ _ _ En). rewrite Hp.
  mok (read_run (λ h, getitem h a 0) _ _ Hslot).
  rewrite bool_decide_eq_true_2 by done. mpass.
  mok (get_parent_run _ _ _ En). rewrite Hp.
  rewrite ?bind_assoc. by apply bind_raise.
Qed.

Lemma replace_target_flags (h : heap) node new a on oa onew :
  h !! node = Some on → parent on = Some (a, 0%Z) →
  getitem h a 0 = Ok (Some node) →
  h !! a = Some oa → cls oa = assign_t →
  h !! new = Some onew → is_assignable (cls onew) = true →
  parent onew = None →
  ∃ h', replace node (Some new) h = (Ok (Some node), h') ∧
        has_is_def h' new true ∧ getitem h' a 0 = Ok (Some new).
Proof.
  intros En Hp Hslot Ea Hc Enew Ha Hpnew.
  assert (slot_admits (cls oa) 0 (cls onew) = true) as Hadm by by rewrite Hc.
  destruct (replace_effect _ _ _ _ _ _ _ _ En Hp Hslot Enew Hpnew Ea Hadm)
    as (h' & Hrun & Hget & _).
  exists h'. split; [done|]. split; [|done].
  rewrite (replace_run _ _ _ _ _ _ _ _ En Hp Hslot Enew Hpnew Ea Hadm) in Hrun.
  injection Hrun as <-. rewrite Hc, marked_target.
  apply has_is_def_alter_parent, attached_is_def. by eapply marked_is_def.
Qed.

End assignment.

(** ** Constant folding *)

Lemma fold_value_run op (h : heap) self os r2 other a b :
  h !! self = Some os → is_expr (cls os) = true →
  operands os !! 1%nat = Some (Some r2) →
  has_value h r2 (Some a) → has_value h other (Some b) →
  fold_value op self other h =
  (Ok tt, alter (with_fields (A_value (Some (op a b)))) r2 h).
Proof.
  intros Es Hc Hop (o2 & E2 & _ & Hv2) (oo & Eo & _ & Hvo).
  unfold fold_value.
  mok (read_run (λ h, getitem h self 1) h _ (getitem_run1 _ _ _ _ Es Hc Hop)).
  unfold get_value. mok (get_obj_run _ _ _ E2). rewrite Hv2. mpass.
  mok (get_obj_run _ _ _ Eo). rewrite Hvo. mpass.
  by eapply modify_run.
Qed.

Lemma is_value_run (h : heap) other b :
  has_value h other b → is_value other h = (Ok true, h).
Proof.
  intros (o & E & Hc & _). unfold is_value. mok (get_obj_run _ _ _ E).
  by rewrite Hc.
Qed.

Lemma folded_value (h : heap) r2 x v :
  has_value h r2 x →
  has_value (alter (with_fields (A_value v)) r2 h) r2 v.
Proof.
  intros (o & E & Hc & _). unfold has_value.
  rewrite list_lookup_alter_eq, E. simpl. eauto.
Qed.

Lemma folded_slot (h : heap) r2 f self key :
  getitem (alter (with_fields f) r2 h) self key = getitem h self key.
Proof.
  unfold getitem, lookup_obj. rewrite list_lookup_alter.
  case_decide; subst; by destruct (h !! self).
Qed.

(** ** Structural equality *)

(** Two unary nodes compare by operator string and operand, whatever
    their classes. *)
Lemma uexpr_eq_unfold fuel (h : heap) p q op oq s1 s2 x y :
  h !! p = Some op → h !! q = Some oq →
  is_uexpr (cls op) = true → is_uexpr (cls oq) = true →
  fields op = A_uexpr s1 → fields oq = A_uexpr s2 →
  operands op !! 0%nat = Some x → operands oq !! 0%nat = Some y →
  py_eq (S fuel) h (Some p) (Some q) =
  if String.eqb s1 s2 then py_eq fuel h x y else Ok false.
Proof.
  intros Ep Eq Hp Hq Fp Fq Xp Yq.
  assert (is_expr (cls op) = true) as Hep by (by destruct (cls op)).
  assert (is_expr (cls oq) = true) as Heq by (by destruct (cls oq)).
  assert (defines_eq (cls op) = true) as Hdp by (by destruct (cls op)).
  simpl. unfold lookup_obj at 1 2. rewrite Ep, Eq. simpl. rewrite Hdp.
  unfold dunder_eq, lookup_obj. rewrite Ep, Eq. simpl.
  rewrite (getitem_run0 _ _ _ _ Ep Hep Xp), (getitem_run0 _ _ _ _ Eq Heq Yq).
  rewrite Hq, Fp, Fq.
  destruct (cls op); try discriminate Hp; by destruct (String.eqb s1 s2).
Qed.

(** ** Rendering *)

Lemma length_append (s1 s2 : string) :
  String.length (s1 +:+ s2) = (String.length s1 + String.length s2)%nat.
Proof. induction s1 as [|a s1 IH]; simpl; [done|]. by rewrite IH. Qed.

Lemma wrap_false_longer (pre s post : string) :
  pre +:+ ("(" +:+ s +:+ ")") +:+ post ≠ pre +:+ s +:+ post.
Proof.
  intros E. apply (f_equal String.length) in E.
  rewrite !length_append in E. simpl in E. lia.
Qed.

Lemma fmt_u_parse (v : Z) : parse_dec (fmt_u v) = Some v.
Proof.
  unfold parse_dec, fmt_u.
  assert (∀ d, Z.to_int v = d → Decimal.norm d = d) as Hnorm.
  { intros d <-. by rewrite <- DecimalZ.to_of, DecimalZ.of_to. }
  rewrite DecimalString.NilZero.isi.
  - simpl. by rewrite DecimalZ.of_to.
  - intros E. by apply Hnorm in E.
  - intros E. by apply Hnorm in E.
Qed.

Lemma fmt_x_parse (v : Z) : parse_hex (fmt_x v) = Some v.
Proof.
  unfold parse_hex, fmt_x.
  assert (∀ d, Z.to_hex_int v = d → Hexadecimal.norm d = d) as Hnorm.
  { intros d <-. by rewrite <- HexadecimalZ.to_of, HexadecimalZ.of_to. }
  rewrite HexadecimalString.NilZero.isi.
  - simpl. by rewrite HexadecimalZ.of_to.
  - intros E. by apply Hnorm in E.
  - intros E. by apply Hnorm in E.
Qed.

Section rendering_facts.
Variable db : ida.

Lemma str_lookup fuel (h : heap) r s :
  str db fuel h (Some r) = Ok s → is_Some (h !! r).
Proof.
  destruct fuel as [|n]; [done|]. simpl. unfold lookup_obj.
  destruct (h !! r); [eauto|done].
Qed.

Lemma bare_operand_spec fuel (h : heap) op s :
  str db fuel h op = Ok s →
  ∃ b, bare_operand h op = Ok b ∧ (b = true ↔ plain_leaf h op).
Proof.
  intros Hs. destruct op as [r|].
  - destruct (str_lookup _ _ _ _ Hs) as [o E].
    unfold bare_operand, lookup_obj. rewrite E. simpl.
    eexists. split; [done|]. split.
    + intros Hb. exists r, o. split; [done|]. split; [done|].
      destruct (cls o); try discriminate Hb; auto.
    + intros (r' & o' & [= <-] & E' & Hc).
      assert (o' = o) as -> by congruence.
      by destruct Hc as [-> | [-> | ->]].
  - exists false. split; [done|]. split; [done|].
    by intros (r & o & ? & _).
Qed.

(** The text of a prefix or postfix operator node. *)
Lemma str_unary fuel (h : heap) node o pre post op s :
  h !! node = Some o → affixes (cls o) = Some (pre, post) →
  operands o !! 0%nat = Some op → str db fuel h op = Ok s →
  ∃ b, (b = true ↔ plain_leaf h op) ∧
       str db (S fuel) h (Some node) = Ok (pre +:+ wrap b s +:+ post).
Proof.
  intros En Ha Hop Hs.
  destruct (bare_operand_spec _ _ _ _ Hs) as (b & Hb & Hiff).
  exists b. split; [done|].
  assert (is_expr (cls o) = true) as He by (by destruct (cls o)).
  assert (lookup_obj h node = Ok o) as Hl by (unfold lookup_obj; by rewrite En).
  pose proof (getitem_run0 _ _ _ _ En He Hop) as Hg.
  simpl. rewrite Hl. simpl.
  destruct (cls o); try discriminate Ha; injection Ha as <- <-;
    rewrite Hg; simpl; rewrite Hb; simpl; by rewrite Hs.
Qed.

End rendering_facts.

(** ** Traversal *)

Lemma tree_ind' (P : tree → Prop) :
  (∀ r kids, Forall P kids → P (Node r kids)) → ∀ t, P t.
Proof.
  intros H. fix IH 1. intros [r kids]. apply H.
  induction kids as [|k kids IHk]; constructor; [apply IH|apply IHk].
Qed.

Lemma elem_of_concat {A} (x : A) (ls : list (list A)) :
  x ∈ concat ls ↔ ∃ l, l ∈ ls ∧ x ∈ l.
Proof.
  induction ls as [|l ls IH]; simpl.
  - split; [by intros ?%elem_of_nil|by intros (l & ?%elem_of_nil & _)].
  - rewrite elem_of_app, IH. split.
    + intros [Hx|(l' & Hl' & Hx)].
      * exists l. split; [left|done].
      * exists l'. split; [by right|done].
    + intros (l' & [->|Hl']%elem_of_cons & Hx); [by left|].
      right. eauto.
Qed.

Lemma represents_inv (h : heap) r kids :
  represents h (Node r kids) →
  ∃ o, h !! r = Some o ∧ children h o = map root kids ∧
       Forall (represents h) kids.
Proof. inversion 1; subst. eauto. Qed.

Lemma represents_root (h : heap) t :
  represents h t → is_Some (h !! root t).
Proof. destruct t. intros (o & E & _)%represents_inv. simpl. eauto. Qed.

Lemma root_last t : last (postorder t) = Some (root t).
Proof. destruct t. simpl. apply last_snoc. Qed.

Lemma root_in_postorder t : root t ∈ postorder t.
Proof.
  destruct t. simpl. apply elem_of_app. right. by apply list_elem_of_singleton.
Qed.

Lemma kid_in_postorder r kids k x :
  k ∈ kids → x ∈ postorder k → x ∈ postorder (Node r kids).
Proof.
  intros Hk Hx. simpl. apply elem_of_app. left.
  apply elem_of_concat. exists (postorder k). split; [|done].
  by apply (list_elem_of_fmap_2 postorder).
Qed.

Lemma postorder_inv r kids x :
  x ∈ postorder (Node r kids) →
  x = r ∨ ∃ k, k ∈ kids ∧ x ∈ postorder k.
Proof.
  simpl. intros [Hx|Hx]%elem_of_app;
    [|left; by apply list_elem_of_singleton in Hx].
  right. apply elem_of_concat in Hx as (l & Hl & Hx).
  apply (list_elem_of_fmap postorder) in Hl as (k & -> & Hk). eauto.
Qed.

(** *** The generator computes the post-order of the tree *)

Lemma iteroperands_lookup fuel (h : heap) r l :
  iteroperands fuel h r = Ok l → is_Some (h !! r).
Proof.
  destruct fuel as [|n]; [done|]. simpl. unfold lookup_obj.
  destruct (h !! r); [eauto|done].
Qed.

Lemma iter_slots_spec (rec : ref → result (list ref)) (h : heap) ops kids :
  slots_entered h ops = map root kids →
  Forall (λ k, rec (root k) = Ok (postorder k) ∧ is_Some (h !! root k)) kids →
  iter_slots rec h ops = Ok (concat (map postorder kids)).
Proof.
  revert kids. induction ops as [|[c|] ops IH]; intros kids Hkids Hrec; simpl.
  - by destruct kids.
  - simpl in Hkids. unfold entered in Hkids. unfold truthy in *.
    destruct (lookup_obj h c) as [oc|e] eqn:Ec; simpl in *.
    + destruct (if is_expr (cls oc) then _ else true).
      * destruct kids as [|k kids]; [done|]. injection Hkids as Hc Hkids.
        apply Forall_cons in Hrec as [[Hk _] Hrec]. subst c.
        rewrite Hk. simpl. by rewrite (IH kids).
      * by apply IH.
    + destruct kids as [|k kids]; [done|]. injection Hkids as Hc Hkids.
      apply Forall_cons in Hrec as [[_ [ok Ek]] _]. subst c.
      unfold lookup_obj in Ec. by rewrite Ek in Ec.
  - by apply IH.
Qed.

Lemma height_kid r kids k : k ∈ kids → (height k < height (Node r kids))%nat.
Proof.
  simpl. induction 1 as [k kids|k k' kids _ IH]; simpl; lia.
Qed.

Lemma iteroperands_postorder (h : heap) t :
  represents h t →
  ∀ fuel, (height t ≤ fuel)%nat → iteroperands fuel h (root t) = Ok (postorder t).
Proof.
  induction t as [r kids IH] using tree_ind'.
  intros (o & E & Hch & Hkids)%represents_inv [|n] Hfuel; [simpl in Hfuel; lia|].
  simpl. unfold lookup_obj. rewrite E. simpl.
  unfold children in Hch. destruct (is_expr (cls o)).
  - rewrite (iter_slots_spec _ h (operands o) kids); [done|done|].
    apply Forall_forall. intros k Hk.
    rewrite Forall_forall in IH. rewrite Forall_forall in Hkids.
    split; [|by apply represents_root, Hkids].
    apply IH; [done|by apply Hkids|].
    pose proof (height_kid r kids k Hk). lia.
  - by destruct kids.
Qed.

(** *** The post-order lists the nodes of the subtree *)

Lemma kid_of_child (kids : list tree) c :
  c ∈ map root kids → ∃ k, k ∈ kids ∧ root k = c.
Proof. intros (k & -> & Hk)%(list_elem_of_fmap root). eauto. Qed.

Lemma postorder_reach (h : heap) t x :
  represents h t → x ∈ postorder t → reach h (root t) x.
Proof.
  revert x. induction t as [r kids IH] using tree_ind'.
  intros x (o & E & Hch & Hkids)%represents_inv Hx.
  apply postorder_inv in Hx as [->|(k & Hk & Hx)]; [apply reach_here|].
  rewrite Forall_forall in IH. rewrite Forall_forall in Hkids.
  apply (reach_child h r o (root k)); [done| |by apply IH; auto].
  rewrite Hch. by apply (list_elem_of_fmap_2 root).
Qed.

Lemma reach_postorder (h : heap) r x :
  reach h r x → ∀ t, represents h t → root t = r → x ∈ postorder t.
Proof.
  induction 1 as [r|r o c x E Hc _ IH]; intros [r' kids] Hrep Hroot;
    simpl in Hroot; subst r'.
  - apply (root_in_postorder (Node r kids)).
  - apply represents_inv in Hrep as (o' & E' & Hch & Hkids).
    assert (o' = o) as -> by congruence.
    rewrite Hch in Hc. apply kid_of_child in Hc as (k & Hk & Hroot).
    rewrite Forall_forall in Hkids.
    apply (kid_in_postorder r kids k); [done|]. by apply IH; auto.
Qed.

(** *** Every operand is enumerated before its owner *)

Lemma before_kid r kids k x y :
  k ∈ kids → before (postorder k) x y → before (postorder (Node r kids)) x y.
Proof.
  intros Hk (l1 & l2 & Hl & Hx).
  apply list_elem_of_split in Hk as (ks1 & ks2 & ->).
  exists (concat (map postorder ks1) ++ l1),
         (l2 ++ concat (map postorder ks2) ++ [r]).
  split; [|apply elem_of_app; by right].
  simpl. rewrite map_app, concat_app. simpl. rewrite Hl.
  by rewrite <- !app_assoc.
Qed.

Lemma operand_before_owner (h : heap) t y o c x :
  represents h t → y ∈ postorder t → h !! y = Some o →
  c ∈ children h o → reach h c x → before (postorder t) x y.
Proof.
  revert y o c x. induction t as [r kids IH] using tree_ind'.
  intros y o c x Hrep Hy E Hc Hx.
  pose proof Hrep as (o' & E' & Hch & Hkids)%represents_inv.
  rewrite Forall_forall in IH. rewrite Forall_forall in Hkids.
  apply postorder_inv in Hy as [->|(k & Hk & Hy)].
  - assert (o' = o) as -> by congruence.
    rewrite Hch in Hc. apply kid_of_child in Hc as (k & Hk & <-).
    exists (concat (map postorder kids)), []. split; [done|].
    apply elem_of_concat. exists (postorder k).
    split; [by apply (list_elem_of_fmap_2 postorder)|].
    eapply reach_postorder; eauto.
  - apply (before_kid r kids k); [done|]. eapply IH; eauto.
Qed.

(** *** Under exclusive ownership no node is enumerated twice *)

Lemma slot_of_entered (h : heap) ops c :
  c ∈ slots_entered h ops → ∃ k, ops !! k = Some (Some c).
Proof.
  induction ops as [|[d|] ops IH]; simpl.
  - by intros ?%elem_of_nil.
  - destruct (entered h d).
    + intros [->|Hc]%elem_of_cons; [by exists 0%nat|].
      destruct (IH Hc) as [k Hk]. by exists (S k).
    + intros Hc. destruct (IH Hc) as [k Hk]. by exists (S k).
  - intros Hc. destruct (IH Hc) as [k Hk]. by exists (S k).
Qed.

Lemma slot_of_child (h : heap) o c :
  c ∈ children h o →
  is_expr (cls o) = true ∧ ∃ k, operands o !! k = Some (Some c).
Proof.
  unfold children. destruct (is_expr (cls o)); [|by intros ?%elem_of_nil].
  intros Hc. split; [done|]. by eapply slot_of_entered.
Qed.

Lemma slots_entered_NoDup (h : heap) ops :
  (∀ k k' c, ops !! k = Some (Some c) → ops !! k' = Some (Some c) → k = k') →
  NoDup (slots_entered h ops).
Proof.
  induction ops as [|[d|] ops IH]; intros Hinj; simpl.
  - constructor.
  - assert (NoDup (slots_entered h ops)) as Hnd.
    { apply IH. intros k k' c Hk Hk'.
      by pose proof (Hinj (S k) (S k') c Hk Hk') as [= ->]. }
    destruct (entered h d); [|done]. constructor; [|done].
    intros (k & Hk)%slot_of_entered.
    by pose proof (Hinj 0%nat (S k) d eq_refl Hk).
  - apply IH. intros k k' c Hk Hk'.
    by pose proof (Hinj (S k) (S k') c Hk Hk') as [= ->].
Qed.

(** A node of the tree other than the root sits in a slot of a node of
    the tree. *)
Lemma in_slot (h : heap) t x :
  represents h t → x ∈ postorder t → x ≠ root t →
  ∃ y o k, y ∈ postorder t ∧ h !! y = Some o ∧ is_expr (cls o) = true ∧
           operands o !! k = Some (Some x).
Proof.
  revert x. induction t as [r kids IH] using tree_ind'.
  intros x (o & E & Hch & Hkids)%represents_inv Hx Hne. simpl in Hne.
  rewrite Forall_forall in IH. rewrite Forall_forall in Hkids.
  apply postorder_inv in Hx as [->|(k & Hk & Hx)]; [done|].
  destruct (decide (x = root k)) as [->|Hxk].
  - assert (root k ∈ children h o) as Hc.
    { rewrite Hch. by apply (list_elem_of_fmap_2 root). }
    apply slot_of_child in Hc as (He & i & Hi).
    exists r, o, i. split; [apply (root_in_postorder (Node r kids))|done].
  - destruct (IH k Hk x (Hkids k Hk) Hx Hxk) as (y & oy & i & Hy & ?).
    exists y, oy, i. split; [by eapply kid_in_postorder|done].
Qed.

(** The store represents at most one tree at each root. *)
Lemma represents_unique (h : heap) t1 :
  represents h t1 → ∀ t2, represents h t2 → root t1 = root t2 → t1 = t2.
Proof.
  induction t1 as [r kids1 IH] using tree_ind'.
  intros (o & E & Hch & Hkids1)%represents_inv [r2 kids2]
         (o2 & E2 & Hch2 & Hkids2)%represents_inv Hroot.
  simpl in Hroot. subst r2. assert (o2 = o) as -> by congruence.
  f_equal. rewrite Hch in Hch2. clear E E2 Hch.
  revert kids2 Hkids2 Hch2.
  induction kids1 as [|k1 kids1 IHk]; intros [|k2 kids2] Hkids2 Hmap;
    try done.
  injection Hmap as Hk Hmap.
  apply Forall_cons in IH as [IH1 IH]. apply Forall_cons in Hkids1 as [H1 Hkids1].
  apply Forall_cons in Hkids2 as [H2 Hkids2].
  f_equal; [by apply IH1|by apply IHk].
Qed.

Lemma size_kid r kids k : k ∈ kids → (size k < size (Node r kids))%nat.
Proof.
  simpl. induction 1 as [k kids|k k' kids _ IH]; simpl; lia.
Qed.

Lemma subtree_at (h : heap) t x :
  represents h t → x ∈ postorder t →
  ∃ s, represents h s ∧ root s = x ∧ (size s ≤ size t)%nat.
Proof.
  revert x. induction t as [r kids IH] using tree_ind'.
  intros x Hrep Hx.
  pose proof Hrep as (o & E & Hch & Hkids)%represents_inv.
  rewrite Forall_forall in IH. rewrite Forall_forall in Hkids.
  apply postorder_inv in Hx as [->|(k & Hk & Hx)].
  - by exists (Node r kids).
  - destruct (IH k Hk x (Hkids k Hk) Hx) as (s & Hs & Hroot & Hsize).
    exists s. split; [done|]. split; [done|].
    pose proof (size_kid r kids k Hk). lia.
Qed.

(** A tree is finite: its root is not a node of one of its subtrees. *)
Lemma root_not_below (h : heap) r kids k :
  represents h (Node r kids) → k ∈ kids → r ∉ postorder k.
Proof.
  intros Hrep Hk Hr.
  pose proof Hrep as (o & E & Hch & Hkids)%represents_inv.
  rewrite Forall_forall in Hkids.
  destruct (subtree_at h k r (Hkids k Hk) Hr) as (s & Hs & Hroot & Hsize).
  assert (s = Node r kids) as -> by by apply (represents_unique h).
  pose proof (size_kid r kids k Hk). lia.
Qed.

(** Two trees of the store that share a node: one root lies in the
    other tree. *)
Lemma roots_meet (h : heap) t1 :
  exclusive h → represents h t1 →
  ∀ t2 x, represents h t2 → x ∈ postorder t1 → x ∈ postorder t2 →
          root t1 ∈ postorder t2 ∨ root t2 ∈ postorder t1.
Proof.
  intros Hex. induction t1 as [r1 kids1 IH] using tree_ind'.
  intros Hrep1 t2 x Hrep2 Hx1 Hx2.
  pose proof Hrep1 as (o1 & E1 & Hch1 & Hkids1)%represents_inv.
  rewrite Forall_forall in IH. rewrite Forall_forall in Hkids1.
  apply postorder_inv in Hx1 as [->|(k1 & Hk1 & Hx1)]; [by left|].
  destruct (IH k1 Hk1 (Hkids1 k1 Hk1) t2 x Hrep2 Hx1 Hx2) as [Hc1|Hr2].
  - destruct (decide (root k1 = root t2)) as [Heq|Hne].
    + right. rewrite <- Heq. eapply kid_in_postorder; [done|].
      apply root_in_postorder.
    + left. simpl.
      destruct (in_slot h t2 (root k1) Hrep2 Hc1 Hne)
        as (y & oy & j & Hy & Ey & Hey & Hj).
      assert (root k1 ∈ children h o1) as Hc.
      { rewrite Hch1. by apply (list_elem_of_fmap_2 root). }
      apply slot_of_child in Hc as (He1 & i & Hi).
      by destruct (Hex r1 o1 i y oy j (root k1) E1 He1 Hi Ey Hey Hj) as [-> _].
  - right. by eapply kid_in_postorder.
Qed.

Lemma NoDup_concat_kids (kids : list tree) :
  NoDup (map root kids) →
  (∀ k, k ∈ kids → NoDup (postorder k)) →
  (∀ k1 k2 x, k1 ∈ kids → k2 ∈ kids →
              x ∈ postorder k1 → x ∈ postorder k2 → root k1 = root k2) →
  NoDup (concat (map postorder kids)).
Proof.
  induction kids as [|k kids IH]; simpl; intros Hroots Hnd Hmeet.
  - constructor.
  - apply NoDup_cons in Hroots as [Hk Hroots].
    apply NoDup_app. split; [apply Hnd; left|]. split.
    + intros x Hx (l & Hl & Hxl)%elem_of_concat.
      apply (list_elem_of_fmap postorder) in Hl as (k2 & -> & Hk2).
      apply Hk. rewrite (Hmeet k k2 x); [|left|by right|done|done].
      by apply (list_elem_of_fmap_2 root).
    + apply IH; [done| |].
      * intros k' Hk'. apply Hnd. by right.
      * intros k1 k2 x H1 H2. apply Hmeet; by right.
Qed.

Lemma postorder_NoDup (h : heap) t :
  exclusive h → represents h t → NoDup (postorder t).
Proof.
  intros Hex. induction t as [r kids IH] using tree_ind'. intros Hrep.
  pose proof Hrep as (o & E & Hch & Hkids)%represents_inv.
  rewrite Forall_forall in IH. rewrite Forall_forall in Hkids.
  simpl. apply NoDup_app. split; [|split].
  - assert (∀ k1 k2, k1 ∈ kids → k2 ∈ kids →
              root k1 ∈ postorder k2 → root k1 = root k2) as Hin.
    { intros k1 k2 Hk1 Hk2 Hc1.
      destruct (decide (root k1 = root k2)) as [|Hne]; [done|].
      destruct (in_slot h k2 (root k1) (Hkids k2 Hk2) Hc1 Hne)
        as (y & oy & j & Hy & Ey & Hey & Hj).
      assert (root k1 ∈ children h o) as Hc.
      { rewrite Hch. by apply (list_elem_of_fmap_2 root). }
      apply slot_of_child in Hc as (He & i & Hi).
      destruct (Hex r o i y oy j (root k1) E He Hi Ey Hey Hj) as [-> _].
      by destruct (root_not_below h y kids k2 Hrep Hk2). }
    apply NoDup_concat_kids.
    + rewrite <- Hch. unfold children.
      destruct (is_expr (cls o)) eqn:He; [|constructor].
      apply slots_entered_NoDup. intros i j c Hi Hj.
      by destruct (Hex r o i r o j c E He Hi E He Hj).
    + intros k Hk. by apply IH; auto.
    + intros k1 k2 x Hk1 Hk2 Hx1 Hx2.
      destruct (roots_meet h k1 Hex (Hkids k1 Hk1) k2 x (Hkids k2 Hk2) Hx1 Hx2)
        as [H|H]; [by apply Hin|symmetry; by apply Hin].
  - intros x (l & Hl & Hx)%elem_of_concat ->%list_elem_of_singleton.
    apply (list_elem_of_fmap postorder) in Hl as (k & -> & Hk).
    by destruct (root_not_below h r kids k Hrep Hk).
  - apply NoDup_singleton.
Qed.

(** *** Operands are enumerated left to right *)

Lemma left_before_right (h : heap) t y o l1 c1 l2 c2 l3 x1 x2 :
  represents h t → y ∈ postorder t → h !! y = Some o →
  children h o = l1 ++ c1 :: l2 ++ c2 :: l3 →
  reach h c1 x1 → reach h c2 x2 → before (postorder t) x1 x2.
Proof.
  revert y o. induction t as [r kids IH] using tree_ind'.
  intros y o Hrep Hy E Hsplit Hx1 Hx2.
  pose proof Hrep as (o' & E' & Hch & Hkids)%represents_inv.
  rewrite Forall_forall in IH. rewrite Forall_forall in Hkids.
  apply postorder_inv in Hy as [->|(k & Hk & Hy)].
  - assert (o' = o) as -> by congruence.
    rewrite Hch in Hsplit.
    apply fmap_app_inv in Hsplit as (K1 & K' & _ & Hsplit & ->).
    symmetry in Hsplit.
    apply fmap_cons_inv in Hsplit as (k1 & K'' & -> & Hsplit & ->).
    symmetry in Hsplit.
    apply fmap_app_inv in Hsplit as (K2 & KR & _ & Hsplit & ->).
    symmetry in Hsplit.
    apply fmap_cons_inv in Hsplit as (k2 & K3 & -> & _ & ->).
    assert (x1 ∈ postorder k1) as Hin1.
    { eapply reach_postorder; eauto. apply Hkids.
      apply elem_of_app. right. left. }
    assert (x2 ∈ postorder k2) as Hin2.
    { eapply reach_postorder; eauto. apply Hkids.
      apply elem_of_app. right. right. apply elem_of_app. right. left. }
    apply list_elem_of_split in Hin2 as (a & b & Hab).
    exists (concat (map postorder K1) ++ postorder k1 ++
            concat (map postorder K2) ++ a),
           (b ++ concat (map postorder K3) ++ [r]).
    split.
    + simpl. rewrite !map_app, !concat_app. simpl.
      rewrite !map_app, !concat_app. simpl. rewrite Hab.
      by rewrite <- !app_assoc.
    + apply elem_of_app. right. apply elem_of_app. by left.
  - apply (before_kid r kids k); [done|]. eapply IH; eauto.
Qed.

(** *** Only empty slots are skipped *)

Lemma entered_nonempty (h : heap) c : slots_nonempty h → entered h c = true.
Proof.
  intros Hne. unfold entered, truthy, lookup_obj.
  destruct (h !! c) as [o|] eqn:E; simpl; [|done].
  destruct (is_expr (cls o)) eqn:He; [|done].
  specialize (Hne c o E He). by destruct (operands o).
Qed.

Lemma children_present (h : heap) o :
  slots_nonempty h → is_expr (cls o) = true →
  children h o = omap id (operands o).
Proof.
  intros Hne He. unfold children. rewrite He.
  induction (operands o) as [|[c|] ops IH]; simpl; [done| |done].
  by rewrite (entered_nonempty h c Hne), IH.
Qed.

(** ** Constructors and [copy] return *)

Section constructors_return.
Context {db : ida}.





Lemma alloc_bind {B} o (f : ref → M B) (h : heap) :
  (alloc o ≫= f) h = f (List.length h) (h ++ [o]).
Proof. reflexivity. Qed.


End constructors_return.



Section copy_returns.
Variable db : ida.





End copy_returns.

(** * The ownership protocol *)

(** C1, as the code has it.  Let [node] and [new] be objects of the store.
    If [node] occupies slot [k] of [owner], [new] has no parent and the
    slot admits it (slot 0 of an assignment takes assignable objects
    only), then [node.replace(new)] returns [node], leaves [new] in slot
    [k] of [owner] with parent link [(owner, k)], and clears the parent
    link of [node].  If [node] has no parent, [node.replace(new)] returns
    [None] and leaves the store as it is. *)
Theorem replace_spec {db : ida} (h : heap) node new on onew :
  h !! node = Some on → h !! new = Some onew →
  (∀ owner k oo,
     parent on = Some (owner, k) → getitem h owner k = Ok (Some node) →
     h !! owner = Some oo →
     parent onew = None → slot_admits (cls oo) k (cls onew) = true →
     ∃ h', replace node (Some new) h = (Ok (Some node), h') ∧
           getitem h' owner k = Ok (Some new) ∧
           has_parent h' new (Some (owner, k)) ∧
           has_parent h' node None) ∧
  (parent on = None → replace node (Some new) h = (Ok None, h)).
Proof.
  intros En Enew. split.
  - intros owner k oo Hp Hslot Eo Hpnew Ha. by eapply replace_effect.
  - intros Hp. by eapply replace_root.
Qed.

Section replace_examples.
#[local] Existing Instance db0.

(** [eax.replace(value_t(9))] inside [1 + eax], and [replace] on the
    root [1 + eax] itself. *)
Lemma replace_spec_witness :
  (∃ h', replace 1 (Some 5%nat) scene_add = (Ok (Some 1%nat), h') ∧
         getitem h' 2 1 = Ok (Some 5%nat) ∧
         has_parent h' 5 (Some (2%nat, 1%Z)) ∧ has_parent h' 1 None) ∧
  replace 2 (Some 5%nat) scene_add = (Ok None, scene_add).
Proof.
  split.
  - destruct (replace_spec scene_add 1 5 _ _ eq_refl eq_refl) as [H _].
    apply (H 2%nat 1%Z _ eq_refl eq_refl eq_refl eq_refl eq_refl).
  - destruct (replace_spec scene_add 2 5 _ _ eq_refl eq_refl) as [_ H].
    apply (H eq_refl).
Defined.

(** C1 as stated fails when the replacement already has a parent: in
    [1 + eax], [eax] occupies slot 1 of the sum, the literal 8 is an
    object owned by the negation, and [eax.replace(literal 8)] raises
    from the slot assignment instead of returning [eax]. *)
Lemma replace_refuses_owned_replacement :
  has_parent scene_add 1 (Some (2%nat, 1%Z)) ∧
  getitem scene_add 2 1 = Ok (Some 1%nat) ∧
  has_parent scene_add 3 (Some (4%nat, 0%Z)) ∧
  replace 1 (Some 3%nat) scene_add = (Raise AssertionError, scene_add).
Proof.
  split; [eexists; split; reflexivity|].
  split; [reflexivity|].
  split; [eexists; split; reflexivity|]. reflexivity.
Qed.

(** C2 fails on the code.  In [e = add_t(value_t(1), value_t(2))] the
    literal 2 occupies slot 1; after [e[1] = value_t(3)] the slot holds
    the literal 3, yet the parent link of the literal 2 is still
    [(e, 1)]: the slot assignment does not detach the former occupant,
    and the link no longer names a slot that holds it.  A later [replace]
    on the literal 2 trips the assertion of [replace] that the parent's
    operand is the object itself. *)
Theorem setitem_overwrite_keeps_link :
  getitem scene_literals 2 1 = Ok (Some 1%nat) ∧
  has_parent scene_literals 1 (Some (2%nat, 1%Z)) ∧
  ∃ h', setitem 2 1 (Some 3%nat) scene_literals = (Ok tt, h') ∧
        getitem h' 2 1 = Ok (Some 3%nat) ∧
        has_parent h' 1 (Some (2%nat, 1%Z)) ∧
        replace 1 (Some 4%nat) h' = (Raise AssertionError, h').
Proof.
  split; [reflexivity|]. split; [eexists; split; reflexivity|].
  eexists. split; [reflexivity|]. split; [reflexivity|].
  split; [eexists; split; reflexivity|reflexivity].
Qed.

End replace_examples.


Section attach_examples.
#[local] Existing Instance db0.



(** C5 does not hold of the code for a negative key.  In the store of
    [eax = 1], [a[0] = literal 5] is refused, for the literal is not
    assignable.  But [a[-2]] is slot 0 as well, and the test [key == 0] of
    [assign_t.__setitem__] lets the key -2 through: [a[-2] = literal 5]
    returns and leaves the literal in slot 0, and [a[-2] = ecx] leaves
    [ecx] in slot 0 without flagging it as a definition.  [replace] writes
    with the key of the parent link, so that [ecx.replace(literal 5)] then
    puts the literal into slot 0 just the same. *)
Theorem assign_guard_skipped_by_negative_key :
  setitem 2 0 (Some 3%nat) scene_assign = (Raise AssertionError, scene_assign) ∧
  (∃ h', setitem 2 (-2) (Some 3%nat) scene_assign = (Ok tt, h') ∧
         getitem h' 2 0 = Ok (Some 3%nat) ∧
         (∃ o, h' !! 3%nat = Some o ∧ is_assignable (cls o) = false) ∧
         has_is_def h' 3 false) ∧
  (∃ h', setitem 2 (-2) (Some 4%nat) scene_assign = (Ok tt, h') ∧
         getitem h' 2 0 = Ok (Some 4%nat) ∧
         has_is_def h' 4 false ∧
         ∃ h'', replace 4 (Some 3%nat) h' = (Ok (Some 4%nat), h'') ∧
                getitem h'' 2 0 = Ok (Some 3%nat) ∧
                has_is_def h'' 3 false).
Proof.
  split; [reflexivity|]. split.
  - eexists. split; [reflexivity|]. split; [reflexivity|].
    split; eexists; split; reflexivity.
  - eexists. split; [reflexivity|]. split; [reflexivity|].
    split; [eexists; split; reflexivity|].
    eexists. split; [reflexivity|]. split; [reflexivity|].
    eexists; split; reflexivity.
Qed.

End attach_examples.

(** * Constant folding *)

(** C6.  On an [add_t] node whose second operand is a literal of value
    [a], [add] with a literal of value [b] leaves [a + b] in that operand
    and [sub] leaves [a - b]; on a [sub_t] node the signs are opposite:
    [add] leaves [a - b] and [sub] leaves [a + b].  The operand stays in
    its slot. *)
Theorem fold_spec (h : heap) self os r2 other a b :
  h !! self = Some os → operands os !! 1%nat = Some (Some r2) →
  has_value h r2 (Some a) → has_value h other (Some b) →
  (cls os = add_t →
   (∃ h', fold_add self other h = (Ok tt, h') ∧
          has_value h' r2 (Some (a + b)%Z) ∧ getitem h' self 1 = Ok (Some r2)) ∧
   (∃ h', fold_sub self other h = (Ok tt, h') ∧
          has_value h' r2 (Some (a - b)%Z) ∧ getitem h' self 1 = Ok (Some r2))) ∧
  (cls os = sub_t →
   (∃ h', fold_add self other h = (Ok tt, h') ∧
          has_value h' r2 (Some (a - b)%Z) ∧ getitem h' self 1 = Ok (Some r2)) ∧
   (∃ h', fold_sub self other h = (Ok tt, h') ∧
          has_value h' r2 (Some (a + b)%Z) ∧ getitem h' self 1 = Ok (Some r2))).
Proof.
  intros Es Hop H2 Ho.
  assert (∀ op, cls os = add_t ∨ cls os = sub_t →
    ∃ h', fold_value op self other h = (Ok tt, h') ∧
          has_value h' r2 (Some (op a b)) ∧ getitem h' self 1 = Ok (Some r2))
    as Hfold.
  { intros op Hc.
    assert (is_expr (cls os) = true) as Hexpr by (by destruct Hc as [-> | ->]).
    eexists. split; [by eapply fold_value_run|]. split.
    - by eapply folded_value.
    - rewrite folded_slot. by eapply getitem_run1. }
  split; intros Hc; split.
  - destruct (Hfold Z.add) as (h' & E & ?); [by left|]. exists h'. split; [|done].
    unfold fold_add. mok (get_obj_run _ _ _ Es). rewrite Hc.
    unfold add_t_add. by mok (is_value_run _ _ _ Ho).
  - destruct (Hfold Z.sub) as (h' & E & ?); [by left|]. exists h'. split; [|done].
    unfold fold_sub. mok (get_obj_run _ _ _ Es). rewrite Hc.
    unfold add_t_sub. by mok (is_value_run _ _ _ Ho).
  - destruct (Hfold Z.sub) as (h' & E & ?); [by right|]. exists h'. split; [|done].
    unfold fold_add. mok (get_obj_run _ _ _ Es). rewrite Hc.
    unfold sub_t_add. by mok (is_value_run _ _ _ Ho).
  - destruct (Hfold Z.add) as (h' & E & ?); [by right|]. exists h'. split; [|done].
    unfold fold_sub. mok (get_obj_run _ _ _ Es). rewrite Hc.
    unfold sub_t_sub. by mok (is_value_run _ _ _ Ho).
Qed.

(** Folding the literal 3 into [1 + 2] gives second operand 5 by [add]
    and -1 by [sub]; into [1 - 2] it gives -1 by [add] and 5 by [sub]. *)
Lemma fold_spec_witness :
  (∃ h', fold_add 2 6 scene_fold = (Ok tt, h') ∧
         has_value h' 1 (Some 5%Z) ∧ getitem h' 2 1 = Ok (Some 1)) ∧
  (∃ h', fold_sub 2 6 scene_fold = (Ok tt, h') ∧
         has_value h' 1 (Some (-1)%Z) ∧ getitem h' 2 1 = Ok (Some 1)) ∧
  (∃ h', fold_add 5 6 scene_fold = (Ok tt, h') ∧
         has_value h' 4 (Some (-1)%Z) ∧ getitem h' 5 1 = Ok (Some 4)) ∧
  (∃ h', fold_sub 5 6 scene_fold = (Ok tt, h') ∧
         has_value h' 4 (Some 5%Z) ∧ getitem h' 5 1 = Ok (Some 4)).
Proof.
  assert (has_value scene_fold 1 (Some 2%Z)) as H1
    by (eexists; repeat split; reflexivity).
  assert (has_value scene_fold 4 (Some 2%Z)) as H4
    by (eexists; repeat split; reflexivity).
  assert (has_value scene_fold 6 (Some 3%Z)) as H6
    by (eexists; repeat split; reflexivity).
  destruct (fold_spec scene_fold 2 _ 1 6 2 3 eq_refl eq_refl H1 H6) as [Ha _].
  destruct (fold_spec scene_fold 5 _ 4 6 2 3 eq_refl eq_refl H4 H6) as [_ Hs].
  destruct (Ha eq_refl) as [Haa Has]. destruct (Hs eq_refl) as [Hsa Hss].
  split; [exact Haa|]. split; [exact Has|]. split; [exact Hsa|exact Hss].
Defined.

(** * Equality and copy *)

(** C10.  Let [p] be a pre-increment node over [x] and [q] a
    post-increment node over [y], or a pre-decrement and a post-decrement
    node, with the operator strings their constructors set.  If [x == y]
    then [p == q]: [uexpr_t.__eq__] compares the operator string and the
    operand only, and each pair shares its operator string. *)
Theorem pre_post_eq fuel (h : heap) p q op oq x y :
  h !! p = Some op → h !! q = Some oq →
  (cls op = preinc_t ∧ cls oq = postinc_t) ∨
  (cls op = predec_t ∧ cls oq = postdec_t) →
  fields op = A_uexpr (operator_of (cls op)) →
  fields oq = A_uexpr (operator_of (cls oq)) →
  operands op !! 0%nat = Some x → operands oq !! 0%nat = Some y →
  py_eq fuel h x y = Ok true →
  py_eq (S fuel) h (Some p) (Some q) = Ok true.
Proof.
  intros Ep Eq Hcls Fp Fq Xp Yq Hxy.
  destruct Hcls as [[Hp Hq]|[Hp Hq]];
    rewrite (uexpr_eq_unfold fuel h p q op oq _ _ x y Ep Eq)
      by (done || by rewrite ?Hp, ?Hq);
    by rewrite Hp, Hq.
Qed.

(** [++eax == eax++] and [--eax == eax--] on separate register objects. *)
Lemma pre_post_eq_witness :
  py_eq 2 scene_incr (Some 1) (Some 3) = Ok true ∧
  py_eq 2 scene_incr (Some 5) (Some 7) = Ok true.
Proof.
  split.
  - apply (pre_post_eq 1 scene_incr 1 3 _ _ (Some 0) (Some 2) eq_refl eq_refl);
      [left; split; reflexivity|reflexivity..].
  - apply (pre_post_eq 1 scene_incr 5 7 _ _ (Some 4) (Some 6) eq_refl eq_refl);
      [right; split; reflexivity|reflexivity..].
Defined.

(** C4 fails on the code.  [ternary_if_t] defines no [copy]: on
    [ternary_if_t(1, 2, 3)] the call raises [AttributeError] for every
    recursion bound.  [call_t] defines no [__eq__]: the copy of
    [call_t(value_t(4096), None)] is a new object, and [copy(x) == x]
    falls back to object identity and is false. *)
Theorem copy_gaps :
  (∃ o, scene_gaps !! 3%nat = Some o ∧ cls o = ternary_if_t) ∧
  (∀ fuel, fst (copy db0 (S fuel) 3 scene_gaps) = Raise AttributeError) ∧
  (∃ o, scene_gaps !! 5%nat = Some o ∧ cls o = call_t) ∧
  (∃ c h', copy db0 2 5 scene_gaps = (Ok c, h') ∧
           py_eq 3 h' (Some c) (Some 5) = Ok false ∧
           py_eq 3 h' (Some 5) (Some c) = Ok false).
Proof.
  split; [eexists; split; reflexivity|].
  split; [reflexivity|].
  split; [eexists; split; reflexivity|].
  eexists _, _. split; [reflexivity|]. split; reflexivity.
Qed.

(** * Rendering *)

(** C8.  Let [node] be a prefix or postfix operator node with operand
    [op], and [s] the text of [op].  The text of [node] is the operator
    with [s] bare if and only if [op] is a storage location, a variable or
    an argument; otherwise it is the operator with [s] in parentheses, in
    particular for condition-flag locations, literals and composites. *)
Theorem unary_render (db : ida) fuel (h : heap) node o pre post op s :
  h !! node = Some o → affixes (cls o) = Some (pre, post) →
  operands o !! 0%nat = Some op → str db fuel h op = Ok s →
  (str db (S fuel) h (Some node) = Ok (pre +:+ s +:+ post) ↔ plain_leaf h op) ∧
  (str db (S fuel) h (Some node) = Ok (pre +:+ ("(" +:+ s +:+ ")") +:+ post) ↔
   ¬ plain_leaf h op) ∧
  (∀ r oo, op = Some r → h !! r = Some oo →
     cls oo = flagloc_t ∨ cls oo = value_t ∨ is_expr (cls oo) = true →
     str db (S fuel) h (Some node) = Ok (pre +:+ ("(" +:+ s +:+ ")") +:+ post)).
Proof.
  intros En Ha Hop Hs.
  destruct (str_unary db _ _ _ _ _ _ _ _ En Ha Hop Hs) as (b & Hiff & Hstr).
  assert (str db (S fuel) h (Some node) = Ok (pre +:+ ("(" +:+ s +:+ ")") +:+ post) ↔
          ¬ plain_leaf h op) as Hparen.
  { rewrite Hstr. destruct b; simpl.
    - split.
      + intros [= E]. symmetry in E. by apply wrap_false_longer in E.
      + intros Hn. destruct Hn. by apply Hiff.
    - split; [|done]. intros _ Hl. by apply Hiff in Hl. }
  split; [|split; [done|]].
  - rewrite Hstr. destruct b; simpl.
    + split; [|done]. intros _. by apply Hiff.
    + split.
      * intros [= E]. by apply wrap_false_longer in E.
      * intros Hl. by apply Hiff in Hl.
  - intros r oo -> Er Hc. apply Hparen.
    intros (r' & o' & [= <-] & E' & Hc').
    assert (o' = oo) as -> by congruence.
    destruct Hc' as [Hc' | [Hc' | Hc']]; rewrite Hc' in Hc;
      by destruct Hc as [? | [? | ?]].
Qed.

(** [~eax], [~(eax)] for a condition flag named like the register,
    [-(5)], and [(~eax)++]. *)
Lemma unary_render_witness :
  str db0 2 scene_unary (Some 1) = Ok "~eax" ∧
  str db0 2 scene_unary (Some 3) = Ok "~(eax)" ∧
  str db0 2 scene_unary (Some 5) = Ok "-(5)" ∧
  str db0 3 scene_unary (Some 8) = Ok "(~eax)++".
Proof.
  split; [|split; [|split]].
  - destruct (unary_render db0 1 scene_unary 1 _ "~" "" (Some 0) "eax"
                eq_refl eq_refl eq_refl eq_refl) as (H & _ & _).
    apply H. exists 0%nat. eexists. split; [reflexivity|].
    split; [reflexivity|]. by left.
  - destruct (unary_render db0 1 scene_unary 3 _ "~" "" (Some 2) "eax"
                eq_refl eq_refl eq_refl eq_refl) as (_ & _ & H).
    apply (H 2%nat _ eq_refl eq_refl). by left.
  - destruct (unary_render db0 1 scene_unary 5 _ "-" "" (Some 4) "5"
                eq_refl eq_refl eq_refl eq_refl) as (_ & _ & H).
    apply (H 4%nat _ eq_refl eq_refl). right. by left.
  - destruct (unary_render db0 2 scene_unary 8 _ "" "++" (Some 7) "~eax"
                eq_refl eq_refl eq_refl eq_refl) as (_ & _ & H).
    apply (H 7%nat _ eq_refl eq_refl). right. by right.
Defined.

(** C9, as the code has it.  The text of a literal of value [v] is the
    [repr] of the string found at [v] when there is a non-empty one, else
    the name of [v] when it has one, else the decimal digits of [v] when
    [v < 16], else ["0x"] followed by the hexadecimal digits of [v],
    without padding. *)
Theorem value_render (db : ida) (v : Z) :
  (∀ s, GetString db v = Some s → s ≠ "" →
        value_str db (Some v) = repr db s) ∧
  (nonempty (GetString db v) = None →
   (∀ n, Names db !! v = Some n → value_str db (Some v) = n) ∧
   (Names db !! v = None →
    ((v < 16)%Z →
     value_str db (Some v) = fmt_u v ∧ parse_dec (fmt_u v) = Some v) ∧
    ((16 ≤ v)%Z →
     value_str db (Some v) = "0x" +:+ fmt_x v ∧
     parse_hex (fmt_x v) = Some v))).
Proof.
  unfold value_str. split.
  - intros s -> Hs. by destruct s.
  - intros ->. split.
    + by intros n ->.
    + intros ->. split.
      * intros Hv. split; [|apply fmt_u_parse].
        by rewrite (proj2 (Z.ltb_lt _ _) Hv).
      * intros Hv. split; [|apply fmt_x_parse].
        by rewrite (proj2 (Z.ltb_ge _ _) Hv).
Qed.

(** With a database that resolves nothing: 15 is ["15"], 16 is ["0x10"]
    and 4096 is ["0x1000"]. *)
Lemma value_render_witness :
  value_str db0 (Some 15%Z) = "15" ∧
  value_str db0 (Some 16%Z) = "0x10" ∧
  value_str db0 (Some 4096%Z) = "0x1000".
Proof.
  destruct (value_render db0 15) as [_ H15].
  destruct (H15 eq_refl) as [_ H15'].
  destruct (H15' eq_refl) as [Hlt _].
  destruct (value_render db0 16) as [_ H16].
  destruct (H16 eq_refl) as [_ H16'].
  destruct (H16' eq_refl) as [_ Hge16].
  destruct (value_render db0 4096) as [_ H4096].
  destruct (H4096 eq_refl) as [_ H4096'].
  destruct (H4096' eq_refl) as [_ Hge4096].
  split; [|split].
  - apply Hlt. reflexivity.
  - apply Hge16. discriminate.
  - apply Hge4096. discriminate.
Defined.

(** C9 as stated fails on the width: the hexadecimal text has no fixed
    width, 16 renders in four characters and 4096 in six. *)
Lemma hex_width_varies :
  ¬ ∃ w, ∀ v, (16 ≤ v)%Z → String.length (value_str db0 (Some v)) = w.
Proof.
  intros [w Hw].
  pose proof (Hw 16%Z ltac:(lia)) as H1.
  pose proof (Hw 4096%Z ltac:(lia)) as H2.
  vm_compute in H1, H2. congruence.
Qed.

(** * Traversal *)

(** C7.  Let the store hold the tree [t] at a node.  With a recursion
    bound of at least the height of [t], [iteroperands] on the node
    returns the post-order of [t]; the same call on the same store returns
    the same list.  This list contains exactly the nodes reachable from
    the node through entered operands; the node itself is last; every node
    of an operand's subtree comes before the owner of that operand; the
    nodes under an earlier operand come before those under a later
    operand; and under exclusive ownership no node occurs twice.  When
    every composite has an operand slot, the entered operands of a
    composite are all its slots other than the empty ones. *)
Theorem iteroperands_spec (h : heap) t :
  represents h t →
  (∀ fuel, (height t ≤ fuel)%nat →
           iteroperands fuel h (root t) = Ok (postorder t)) ∧
  (∀ x, x ∈ postorder t ↔ reach h (root t) x) ∧
  last (postorder t) = Some (root t) ∧
  (∀ y o c x, y ∈ postorder t → h !! y = Some o → c ∈ children h o →
              reach h c x → before (postorder t) x y) ∧
  (∀ y o l1 c1 l2 c2 l3 x1 x2,
     y ∈ postorder t → h !! y = Some o →
     children h o = l1 ++ c1 :: l2 ++ c2 :: l3 →
     reach h c1 x1 → reach h c2 x2 → before (postorder t) x1 x2) ∧
  (exclusive h → NoDup (postorder t)) ∧
  (slots_nonempty h →
   ∀ o, is_expr (cls o) = true → children h o = omap id (operands o)).
Proof.
  intros Hrep. split; [by apply iteroperands_postorder|].
  split; [|split; [apply root_last|split; [|split; [|split]]]].
  - intros x. split; [by apply postorder_reach|].
    intros Hx. by eapply reach_postorder.
  - intros y o c x. by apply operand_before_owner.
  - intros y o l1 c1 l2 c2 l3 x1 x2. by apply left_before_right.
  - intros Hex. by eapply postorder_NoDup.
  - intros Hne o. by apply children_present.
Qed.

(** The tree of [-(eax) + sub_1000()]: the register, the negation, the
    callee, the call, the sum. *)
Lemma iteroperands_spec_witness :
  iteroperands 3 scene_tree 4 = Ok [0; 1; 2; 3; 4]%nat ∧
  last [0; 1; 2; 3; 4]%nat = Some 4%nat ∧
  NoDup [0; 1; 2; 3; 4]%nat.
Proof.
  assert (represents scene_tree tree_sum) as Hrep.
  { unfold tree_sum.
    repeat first
      [ apply Forall_nil_2 | apply Forall_cons_2
      | eapply represents_node; [reflexivity|reflexivity|] ]. }
  assert (exclusive scene_tree) as Hex.
  { intros r o k r' o' k' c Er He Hk Er' He' Hk'.
    destruct r as [|[|[|[|[|r]]]]]; simpl in Er; try discriminate Er;
      injection Er as <-; try discriminate He;
      destruct k as [|[|k]]; simpl in Hk; try discriminate Hk;
      injection Hk as <-;
      destruct r' as [|[|[|[|[|r']]]]]; simpl in Er'; try discriminate Er';
      injection Er' as <-; try discriminate He';
      destruct k' as [|[|k']]; simpl in Hk'; try discriminate Hk'; done. }
  destruct (iteroperands_spec scene_tree tree_sum Hrep)
    as (Hrun & _ & Hlast & _ & _ & Hnd & _).
  split; [|split].
  - apply (Hrun 3%nat). simpl. lia.
  - exact Hlast.
  - exact (Hnd Hex).
Defined.

(** * Further properties of the ownership protocol *)

(** ** How a slot assignment ends *)

Section slot_assignment_outcome.
Context {db : ida}.

Lemma expr_setitem_outcome (h : heap) self key v :
  setitem_outcome h self key v
    (fst (expr_setitem self key v h)) (snd (expr_setitem self key v h)).
Proof.
  destruct v as [x|].
  - destruct (h !! x) as [ox|] eqn:Ex.
    + destruct (parent ox) as [p|] eqn:Hp.
      * rewrite (expr_setitem_owned _ _ _ _ _ Ex) by congruence.
        by apply outcome_refused.
      * unfold expr_setitem, set_parent. simpl isinstance_replaceable.
        mpass. mok (get_parent_run _ _ _ Ex). rewrite Hp. simpl bool_decide.
        mpass. mok (modify_run _ _ (with_parent (Some (self, key))) _ Ex).
        set (h1 := alter (with_parent (Some (self, key))) x h).
        destruct (h !! self) as [os|] eqn:Es.
        -- assert (∃ os1, h1 !! self = Some os1 ∧ operands os1 = operands os)
             as (os1 & Es1 & Hops).
           { unfold h1. rewrite list_lookup_alter.
             case_decide; subst; rewrite ?Ex, ?Es; simpl; eauto.
             assert (os = ox) as -> by congruence. eauto. }
           destruct (decide (valid_key (List.length (operands os)) key)) as [Hk|Hk].
           ++ rewrite (store_operand_run _ _ _ _ _ Es1) by by rewrite Hops.
              simpl. by eapply outcome_attached.
           ++ rewrite (store_operand_range _ _ _ _ _ Es1) by by rewrite Hops.
              simpl. eapply outcome_linked; eauto. intros os' Es'.
              by assert (os' = os) as -> by congruence.
        -- assert (h1 !! self = None) as Es1.
           { unfold h1. rewrite list_lookup_alter.
             case_decide; subst; by rewrite ?Ex in Es |- *. }
           unfold store_operand, get_obj, read, lookup_obj.
           rewrite bind_run, Es1. simpl.
           eapply outcome_linked; eauto. intros os. by rewrite Es.
    + unfold expr_setitem. simpl isinstance_replaceable. mpass.
      unfold get_parent, get_obj, read, lookup_obj.
      rewrite !bind_run, Ex. simpl. by apply outcome_refused.
  - unfold expr_setitem. rewrite bind_ret.
    destruct (h !! self) as [os|] eqn:Es.
    + destruct (decide (valid_key (List.length (operands os)) key)) as [Hk|Hk].
      * rewrite (store_operand_run _ _ _ _ _ Es Hk). simpl.
        by eapply outcome_cleared.
      * rewrite (store_operand_range _ _ _ _ _ Es Hk). simpl.
        by apply outcome_refused.
    + unfold store_operand, get_obj, read, lookup_obj.
      rewrite bind_run, Es. simpl. by apply outcome_refused.
Qed.

(** [self[key] = v] is [expr_t.__setitem__] from the store [h] or from
    [h] with [v] flagged as a definition, unless it is refused at once. *)
Lemma setitem_outcome_of (h : heap) self key v res (h' : heap) :
  setitem self key v h = (res, h') →
  ∃ h0, (h0 = h ∨ ∃ x, v = Some x ∧ h0 = alter (with_is_def true) x h) ∧
        setitem_outcome h0 self key v res h'.
Proof.
  intros E. unfold setitem in E. rewrite bind_run in E.
  unfold get_obj, read, lookup_obj in E.
  destruct (h !! self) as [os|] eqn:Es; simpl in E.
  - assert (∀ h0, expr_setitem self key v h0 = (res, h') →
              setitem_outcome h0 self key v res h') as Hexpr.
    { intros h0 E0. pose proof (expr_setitem_outcome h0 self key v) as H.
      by rewrite E0 in H. }
    assert (res ≠ Ok tt ∧ h' = h ∨ expr_setitem self key v h = (res, h') ∨
            ∃ x, v = Some x ∧
                 expr_setitem self key v (alter (with_is_def true) x h)
                 = (res, h')) as Hcases.
    { destruct (cls os) eqn:Hc; simpl in E;
        try (right; left; exact E);
        try (left; by injection E as <- <-).
      destruct (decide (key = 0%Z)) as [->|Hk];
        [|rewrite assign_setitem_other in E by done; right; left; exact E].
      assert (∀ e, assign_setitem self 0 v h = (Raise e, h) →
                   res ≠ Ok tt ∧ h' = h) as Hrefused.
      { intros e Er. rewrite Er in E. by injection E as <- <-. }
      destruct v as [x|].
      - destruct (h !! x) as [ox|] eqn:Ex.
        + destruct (is_assignable (cls ox)) eqn:Ha.
          * rewrite (assign_setitem_target _ _ _ _ Ex Ha) in E.
            right. right. eauto.
          * destruct (assign_setitem_reject h self (Some x)) as (e & Er & _);
              [intros v [= <-]; eauto|].
            left. by apply (Hrefused e).
        + left. apply (Hrefused BadReference).
          unfold assign_setitem. rewrite decide_True by done.
          unfold get_obj, read, lookup_obj. rewrite !bind_run, Ex. done.
      - destruct (assign_setitem_reject h self None) as (e & Er & _);
          [by intros v [=]|].
        left. by apply (Hrefused e). }
    destruct Hcases as [[Hres ->]|[E0|(x & -> & E0)]].
    + exists h. split; [by left|]. by apply outcome_refused.
    + exists h. split; [by left|]. by apply Hexpr.
    + eexists. split; [right; eauto|]. by apply Hexpr.
  - injection E as <- <-. exists h. split; [by left|].
    by apply outcome_refused.
Qed.

(** ** The link between slots and parents is kept *)

Lemma has_parent_alter_keep (h : heap) (f : obj → obj) x c p :
  (∀ o, parent (f o) = parent o) →
  has_parent h c p → has_parent (alter f x h) c p.
Proof.
  intros Hf (oc & Ec & Hp). unfold has_parent. rewrite list_lookup_alter.
  case_decide; subst; rewrite Ec; simpl; eexists; (split; [done|]);
    by rewrite ?Hf.
Qed.

Lemma set_operand_parent key v o : parent (set_operand key v o) = parent o.
Proof. by destruct (set_operand_same key v o) as (_ & ? & _). Qed.

(** The link of one slot carries over to a store in which the owner has
    as many slots and the occupant the same parent link. *)
Lemma owned_carry (h h' : heap) r o0 (o : obj) i c :
  owned h → h !! r = Some o0 → is_expr (cls o0) = true →
  operands o0 !! i = Some (Some c) →
  List.length (operands o) = List.length (operands o0) →
  (∀ p, has_parent h c p → has_parent h' c p) →
  ∃ key, has_parent h' c (Some (r, key)) ∧
         slot_of (List.length (operands o)) key = Some i.
Proof.
  intros Ho Er He Hi Hlen Hp.
  destruct (Ho r o0 i c Er He Hi) as (key & Hpc & Hs).
  exists key. split; [by apply Hp|]. by rewrite Hlen.
Qed.

(** An occupant of a slot is not a parent-less object. *)
Lemma owned_occupant (h : heap) r o i c x ox :
  owned h → h !! r = Some o → is_expr (cls o) = true →
  operands o !! i = Some (Some c) →
  h !! x = Some ox → parent ox = None → x ≠ c.
Proof.
  intros Ho Er He Hi Ex Hp ->.
  destruct (Ho r o i c Er He Hi) as (key & (? & ? & ?) & _). congruence.
Qed.

Lemma owned_alter_is_def (h : heap) x b :
  owned h → owned (alter (with_is_def b) x h).
Proof.
  intros Ho r o k c Er He Hk.
  rewrite list_lookup_alter in Er.
  assert (∃ o0, h !! r = Some o0 ∧ cls o0 = cls o ∧ operands o0 = operands o)
    as (o0 & Er0 & Hc0 & Hops0).
  { case_decide; subst; [|eauto].
    destruct (h !! r) as [o0|]; [|done]. injection Er as <-. eauto. }
  eapply (owned_carry h _ r o0 o); [done|done|congruence..|].
  intros p. by apply has_parent_alter_keep.
Qed.

Lemma owned_outcome (h : heap) self key v res (h' : heap) :
  owned h → (∀ os, h !! self = Some os → is_expr (cls os) = true) →
  setitem_outcome h self key v res h' → owned h'.
Proof.
  intros Ho Hself [res' _|x ox res' -> Ex Hp _ _|x ox os -> Ex Hp Es Hk
                  |os -> Es Hk]; [done| | |].
  - (* the value is linked, no slot is written *)
    intros r o k c Er He Hc. rewrite list_lookup_alter in Er.
    assert (∃ o0, h !! r = Some o0 ∧ cls o0 = cls o ∧ operands o0 = operands o)
      as (o0 & Er0 & Hc0 & Hops0).
    { case_decide; subst; [|eauto].
      rewrite Ex in Er. injection Er as <-. eauto. }
    assert (x ≠ c)
      by (eapply (owned_occupant h r o0 k c x); eauto; congruence).
    eapply (owned_carry h _ r o0 o); [done|done|congruence..|].
    intros p. by apply has_parent_alter_ne.
  - (* the value is attached *)
    intros r o k c Er He Hc. unfold attached in *.
    destruct (decide (r = self)) as [->|Hrs].
    + rewrite list_lookup_alter_eq in Er.
      destruct (alter (with_parent (Some (self, key))) x h !! self)
        as [o1|] eqn:E1; [|done].
      injection Er as <-.
      assert (operands o1 = operands os) as Hops1.
      { rewrite list_lookup_alter in E1. case_decide; subst.
        - rewrite Ex in E1. injection E1 as <-.
          assert (os = ox) as -> by congruence. done.
        - congruence. }
      destruct (slot_of_valid _ _ Hk) as [i0 Hi0].
      destruct (slot_of_Some _ _ _ Hi0) as [_ Hlt].
      rewrite set_operand_length, Hops1.
      rewrite (set_operand_operands key (Some x) o1 i0), Hops1 in Hc
        by by rewrite Hops1.
      destruct (decide (k = i0)) as [->|Hkk].
      * rewrite list_lookup_insert_eq in Hc by done.
        injection Hc as <-. exists key.
        split; [by eapply (attached_child h self key x)|done].
      * rewrite list_lookup_insert_ne in Hc by done.
        assert (x ≠ c) by by eapply (owned_occupant h self os k c x); eauto.
        eapply (owned_carry h _ self os os);
          [done|done|by apply Hself|done|done|].
        intros p Hpc. apply has_parent_alter_keep;
          [intros; apply set_operand_parent|].
        by apply has_parent_alter_ne.
    + rewrite list_lookup_alter_ne in Er by done.
      rewrite list_lookup_alter in Er.
      assert (∃ o0, h !! r = Some o0 ∧ cls o0 = cls o ∧
                    operands o0 = operands o) as (o0 & Er0 & Hc0 & Hops0).
      { case_decide; subst; [|eauto].
        rewrite Ex in Er. injection Er as <-. eauto. }
      assert (x ≠ c)
        by (eapply (owned_occupant h r o0 k c x); eauto; congruence).
      eapply (owned_carry h _ r o0 o); [done|done|congruence..|].
      intros p Hpc. apply has_parent_alter_keep;
        [intros; apply set_operand_parent|].
      by apply has_parent_alter_ne.
  - (* an empty slot is written *)
    intros r o k c Er He Hc. rewrite list_lookup_alter in Er.
    assert (∃ o0, h !! r = Some o0 ∧ operands o0 !! k = Some (Some c) ∧
                  cls o0 = cls o ∧
                  List.length (operands o) = List.length (operands o0))
      as (o0 & Er0 & Hk0 & Hc0 & Hlen).
    { case_decide; subst; [|eauto 6].
      rewrite Es in Er. injection Er as <-.
      destruct (slot_of_valid _ _ Hk) as [i0 Hi0].
      destruct (slot_of_Some _ _ _ Hi0) as [_ Hlt].
      rewrite (set_operand_operands _ _ _ _ Hi0) in Hc.
      destruct (set_operand_same key None os) as (Hcl & _).
      exists os. rewrite set_operand_length. split; [done|].
      split; [|done].
      destruct (decide (k = i0)) as [->|Hkk].
      - by rewrite list_lookup_insert_eq in Hc.
      - by rewrite list_lookup_insert_ne in Hc. }
    eapply (owned_carry h _ r o0 o); [done|done|congruence|done..|].
    intros p. apply has_parent_alter_keep. intros; apply set_operand_parent.
Qed.

(** Every way a slot assignment ends keeps the link from slots to
    parents. *)
Lemma owned_setitem (h : heap) self key v res (h' : heap) :
  owned h → setitem self key v h = (res, h') → owned h'.
Proof.
  intros Ho E.
  destruct (h !! self) as [os|] eqn:Es.
  - destruct (is_expr (cls os)) eqn:He.
    + destruct (setitem_outcome_of _ _ _ _ _ _ E) as (h0 & Hh0 & Hout).
      apply (owned_outcome h0 self key v res h'); [| |done].
      * destruct Hh0 as [->|(x & _ & ->)]; [done|].
        by apply owned_alter_is_def.
      * intros os0 Es0. destruct Hh0 as [->|(x & _ & ->)]; [congruence|].
        rewrite list_lookup_alter in Es0. case_decide; subst.
        -- rewrite Es in Es0. injection Es0 as <-. done.
        -- congruence.
    + rewrite (setitem_leaf _ _ _ _ _ Es He) in E. by injection E as _ <-.
  - unfold setitem, get_obj, read, lookup_obj in E.
    rewrite bind_run, Es in E. by injection E as _ <-.
Qed.

End slot_assignment_outcome.

(** ** [replace] and the two-way link *)

Section replace_links.
Context {db : ida}.

(** The ways [replace] ends: with the store as it was, or past its
    checks with the store of the slot assignment, the old node detached
    when the assignment went through. *)
Lemma replace_outcome (h : heap) self new res (h' : heap) :
  replace self new h = (res, h') →
  h' = h ∨
  ∃ owner k on n res1 h1,
    new = Some n ∧ h !! self = Some on ∧ parent on = Some (owner, k) ∧
    getitem h owner k = Ok (Some self) ∧
    setitem owner k new h = (res1, h1) ∧
    (h' = h1 ∧ res1 ≠ Ok tt ∧ res = Raise (match res1 with
                                            | Raise e => e
                                            | Ok _ => AssertionError
                                            end) ∨
     res1 = Ok tt ∧ h' = alter (with_parent None) self h1 ∧
     res = Ok (Some self)).
Proof.
  intros E. unfold replace in E.
  destruct new as [n|]; simpl isinstance_replaceable in E.
  2: { rewrite assert_false in E. left. by injection E. }
  rewrite assert_true in E.
  destruct (h !! self) as [on|] eqn:Es.
  2: { unfold get_parent, get_obj, read, lookup_obj in E.
       rewrite !bind_run, Es in E. simpl in E. left. by injection E. }
  rewrite (bind_ok _ _ _ _ _ (get_parent_run _ _ _ Es)) in E.
  destruct (parent on) as [[owner k]|] eqn:Hp.
  2: { left. by injection E. }
  rewrite bind_run in E. unfold read at 1 in E.
  destruct (getitem h owner k) as [old|e] eqn:Hg.
  2: { left. by injection E. }
  destruct (bool_decide (old = Some self)) eqn:Hold.
  2: { rewrite assert_false in E. left. by injection E. }
  apply bool_decide_eq_true in Hold. subst old.
  rewrite assert_true in E.
  rewrite (bind_ok _ _ _ _ _ (get_parent_run _ _ _ Es)), Hp in E.
  rewrite bind_run in E.
  destruct (setitem owner k (Some n) h) as [[[]|e] h1] eqn:Hset.
  - destruct (setitem_evolves owner k (Some n) h _ h1 Hset) as [_ Hobj].
    destruct (Hobj self on Es) as (on1 & Es1 & _).
    unfold set_parent in E.
    rewrite bind_run, (modify_run _ _ _ _ Es1) in E. injection E as <- <-.
    right. exists owner, k, on, n, (Ok tt), h1. eauto 10.
  - injection E as <- <-.
    right. exists owner, k, on, n, (Raise e), h1.
    split; [done|]. split; [done|]. split; [done|]. split; [done|].
    split; [done|]. left. by split.
Qed.

Lemma has_parent_functional (h : heap) c p p' :
  has_parent h c p → has_parent h c p' → p = p'.
Proof. intros (o & E & Hp) (o' & E' & Hp'). congruence. Qed.

Lemma has_parent_attached_inv (h : heap) owner k n c p :
  c ≠ n → has_parent (attached owner k n h) c p → has_parent h c p.
Proof.
  intros Hc (o & E & Hp). unfold attached in E.
  destruct (lookup_alter_inv _ _ _ _ _ E) as (o1 & E1 & H1).
  destruct (lookup_alter_inv _ _ _ _ _ E1) as (o0 & E0 & H0).
  exists o0. split; [done|].
  destruct H0 as [[-> _]|[_ ->]]; [done|].
  destruct H1 as [[_ ->]|[_ ->]]; [by rewrite set_operand_parent in Hp|done].
Qed.

Lemma lookup_alter_parent (h : heap) x p r o :
  h !! r = Some o →
  ∃ o', alter (with_parent p) x h !! r = Some o' ∧ cls o' = cls o ∧
        operands o' = operands o.
Proof.
  intros E. rewrite list_lookup_alter.
  case_decide; subst; rewrite ?E; simpl; eauto.
Qed.

(** Two keys of one slot read the same. *)
Lemma getitem_same_slot (h : heap) r k k' o :
  h !! r = Some o →
  slot_of (List.length (operands o)) k = slot_of (List.length (operands o)) k' →
  getitem h r k = getitem h r k'.
Proof.
  intros E Hs. unfold getitem, lookup_obj. rewrite E. simpl.
  by rewrite Hs.
Qed.

Lemma getitem_attached_ne (h : heap) owner k n r k' oo :
  h !! owner = Some oo →
  (r = owner → slot_of (List.length (operands oo)) k ≠
               slot_of (List.length (operands oo)) k') →
  getitem (attached owner k n h) r k' = getitem h r k'.
Proof.
  intros Eo Hne. unfold attached.
  destruct (decide (r = owner)) as [->|Hr].
  - destruct (lookup_alter_parent h n (Some (owner, k)) owner oo Eo)
      as (oo' & Eo' & _ & Hops).
    rewrite (getitem_set_operand_ne _ _ _ _ _ _ Eo')
      by (rewrite Hops; by apply Hne).
    apply getitem_alter_parent.
  - unfold getitem, lookup_obj. rewrite list_lookup_alter_ne by done.
    apply (getitem_alter_parent h n (Some (owner, k)) r k').
Qed.

Lemma linked_alter_is_def (h : heap) x b :
  linked h → linked (alter (with_is_def b) x h).
Proof.
  intros Hl c oc r k Ec Hp. rewrite getitem_alter_is_def.
  destruct (lookup_alter_inv _ _ _ _ _ Ec) as (o0 & E0 & H0).
  apply (Hl c o0 r k E0). by destruct H0 as [[_ ->]|[_ ->]].
Qed.

(** Past the checks of [replace]: the slot assignment on the owner's slot
    either changes nothing that matters, or attaches the replacement, and
    clearing the parent of the old node then leaves both links intact. *)
Lemma replace_links_step (h0 : heap) owner k n res1 (h1 : heap) self on :
  owned h0 → linked h0 →
  h0 !! self = Some on → parent on = Some (owner, k) →
  getitem h0 owner k = Ok (Some self) →
  setitem_outcome h0 owner k (Some n) res1 h1 →
  (res1 ≠ Ok tt → owned h1 ∧ linked h1) ∧
  (res1 = Ok tt →
   owned (alter (with_parent None) self h1) ∧
   linked (alter (with_parent None) self h1)).
Proof.
  intros Ho Hl Es Hp Hg Hout.
  destruct (getitem_inv _ _ _ _ Hg) as (oo & i & Eo & He & Hi & Hk).
  assert (valid_key (List.length (operands oo)) k) as Hlt
    by by destruct (slot_of_Some _ _ _ Hi).
  assert (∀ os, h0 !! owner = Some os → is_expr (cls os) = true) as Hself
    by (intros os Eos; congruence).
  pose proof (owned_outcome _ _ _ _ _ _ Ho Hself Hout) as Ho1.
  destruct Hout as [res' Hres|x ox res' Hx Ex Hpx Hres Hrange
                   |x ox os Hx Ex Hpx Eos Hkos|os Hx _ _].
  - split; [done|]. by intros ->.
  - by destruct (Hrange _ Eo).
  - injection Hx as <-. split; [done|]. intros _.
    assert (n ≠ self) as Hns by (intros ->; congruence).
    set (h1 := attached owner k n h0) in *.
    assert (has_parent h1 self (Some (owner, k))) as Hps.
    { unfold h1, attached.
      apply has_parent_alter_keep; [intros; apply set_operand_parent|].
      apply has_parent_alter_ne; [done|]. by exists on. }
    assert (getitem h1 owner k = Ok (Some n)) as Hslot
      by by eapply attached_slot.
    split.
    + intros r o k' c Er Her Hc.
      destruct (lookup_alter_inv _ _ _ _ _ Er) as (o1 & Er1 & H1).
      assert (cls o1 = cls o ∧ operands o1 = operands o) as [Hc1 Hops1]
        by by destruct H1 as [[_ ->]|[_ ->]].
      destruct (Ho1 r o1 k' c Er1) as (key' & Hpc & Hs); [congruence..|].
      destruct (decide (c = self)) as [->|Hcs].
      * pose proof (has_parent_functional _ _ _ _ Hpc Hps) as [= -> ->].
        destruct (getitem_inv _ _ _ _ Hslot)
          as (oo1 & i1 & Eo1 & _ & Hi1 & Hk1).
        congruence.
      * exists key'. split; [by apply has_parent_alter_ne|].
        by rewrite <- Hops1.
    + intros c oc r k' Ec Hpc. rewrite getitem_alter_parent.
      destruct (lookup_alter_inv _ _ _ _ _ Ec) as (oc1 & Ec1 & H1).
      destruct H1 as [[-> ->]|[Hcs ->]]; [done|].
      assert (has_parent h1 c (Some (r, k'))) as Hpc1 by by exists oc1.
      destruct (decide (c = n)) as [->|Hcn].
      * pose proof (attached_child h0 owner k n ox Ex) as Hpn.
        by pose proof (has_parent_functional _ _ _ _ Hpc1 Hpn) as [= -> ->].
      * apply has_parent_attached_inv in Hpc1; [|done].
        destruct Hpc1 as (oc0 & Ec0 & Hpc0).
        pose proof (Hl c oc0 r k' Ec0 Hpc0) as Hg0.
        unfold h1. rewrite (getitem_attached_ne _ _ _ _ _ _ oo Eo); [done|].
        intros -> Hs. rewrite (getitem_same_slot _ _ _ _ _ Eo Hs) in Hg.
        congruence.
  - done.
Qed.

Lemma links_replace (h : heap) self new res (h' : heap) :
  owned h → linked h → replace self new h = (res, h') →
  owned h' ∧ linked h'.
Proof.
  intros Ho Hl E.
  destruct (replace_outcome _ _ _ _ _ E)
    as [->|(owner & k & on & n & res1 & h1 & -> & Es & Hp & Hg & Hset & Hend)];
    [done|].
  destruct (setitem_outcome_of _ _ _ _ _ _ Hset) as (h0 & Hh0 & Hout).
  assert (owned h0 ∧ linked h0 ∧ getitem h0 owner k = Ok (Some self) ∧
          ∃ on0, h0 !! self = Some on0 ∧ parent on0 = Some (owner, k))
    as (Ho0 & Hl0 & Hg0 & on0 & Es0 & Hp0).
  { destruct Hh0 as [->|(x & _ & ->)]; [eauto 10|].
    split; [by apply owned_alter_is_def|].
    split; [by apply linked_alter_is_def|].
    split; [by rewrite getitem_alter_is_def|].
    destruct (has_parent_alter_keep h (with_is_def true) x self
                (Some (owner, k))) as (on0 & ? & ?); [done|by exists on|].
    eauto. }
  destruct (replace_links_step _ _ _ _ _ _ _ _ Ho0 Hl0 Es0 Hp0 Hg0 Hout)
    as [Hfail Hok].
  destruct Hend as [(-> & Hres & _)|(-> & -> & _)]; [by apply Hfail|].
  by apply Hok.
Qed.

End replace_links.

(** * Invariants of the store *)

(** ** Computations that keep an invariant *)

Section keeping.
Context (I : heap → Prop).

Lemma keeps_same {A} (m : M A) : (∀ h, snd (m h) = h) → keeps I m.
Proof.
  intros Hm h r h' Hi E. specialize (Hm h). rewrite E in Hm. simpl in Hm.
  by subst.
Qed.

Lemma keeps_ret {A} (a : A) : keeps I (mret a).
Proof. by apply keeps_same. Qed.

Lemma keeps_raise {A} e : keeps I (raise e : M A).
Proof. by apply keeps_same. Qed.

Lemma keeps_read {A} (f : heap → result A) : keeps I (read f).
Proof. by apply keeps_same. Qed.

Lemma keeps_assert b : keeps I (py_assert b).
Proof. destruct b; by apply keeps_same. Qed.

Lemma keeps_get_obj r : keeps I (get_obj r).
Proof. by apply keeps_same. Qed.

Lemma keeps_bind {A B} (m : M A) (f : A → M B) :
  keeps I m → (∀ a, keeps I (f a)) → keeps I (m ≫= f).
Proof.
  intros Hm Hf h r h' Hi E. rewrite bind_run in E.
  destruct (m h) as [[a|e] h1] eqn:Em.
  - eapply Hf; [|exact E]. by eapply Hm.
  - injection E as _ <-. by eapply Hm.
Qed.

Lemma keeps_modify r f :
  (∀ h o, I h → h !! r = Some o → I (alter f r h)) → keeps I (modify r f).
Proof.
  intros Hf h res h' Hi E. unfold modify in E.
  destruct (h !! r) as [o|] eqn:Er; injection E as _ <-; eauto.
Qed.

End keeping.

Lemma keeps_and {A} (I J : heap → Prop) (m : M A) :
  keeps I m → keeps J m → keeps (λ h, I h ∧ J h) m.
Proof. intros HI HJ h r h' [Hi Hj] E. split; eauto. Qed.

Lemma keeps_after {A} (I : heap → Prop) (m : M A) (h : heap) :
  keeps I m → I h → I (after m h).
Proof.
  intros Hm Hi. unfold after. destruct (m h) as [r h'] eqn:E.
  by eapply Hm.
Qed.

(** ** Shape *)

Section shape.
Context {db : ida}.

Lemma all_shaped_evolves {A} (R : ref → obj → obj → Prop) (m : M A) :
  (∀ i o o', R i o o' → shaped o → shaped o') →
  evolves R m → keeps all_shaped m.
Proof.
  intros HR Hm h res h' Hs E r o' Er.
  destruct (Hm h res h' E) as [Hlen Hobj].
  assert (is_Some (h !! r)) as [o Eo].
  { apply lookup_lt_is_Some. rewrite <- Hlen. by eapply lookup_lt_Some. }
  destruct (Hobj r o Eo) as (o'' & Er' & Hrel).
  assert (o'' = o') as -> by congruence. eauto.
Qed.

Lemma shaped_setitem_rel self value i o o' :
  setitem_rel self value i o o' → shaped o → shaped o'.
Proof.
  intros (Hc & Hf & Hl & _) [Ha Hfit]. unfold shaped.
  by rewrite Hc, Hf, Hl.
Qed.

Lemma all_shaped_setitem self key v : keeps all_shaped (setitem self key v).
Proof.
  eapply all_shaped_evolves; [|apply setitem_evolves].
  apply shaped_setitem_rel.
Qed.

Lemma all_shaped_alter (h : heap) (f : obj → obj) x :
  (∀ o, shaped o → shaped (f o)) → all_shaped h → all_shaped (alter f x h).
Proof.
  intros Hf Hs r o Er.
  destruct (lookup_alter_inv _ _ _ _ _ Er) as (o0 & E0 & [[_ ->]|[_ ->]]);
    eauto.
Qed.

Lemma well_formed_setitem self key v : keeps well_formed (setitem self key v).
Proof.
  intros h r h' [Ho Hs] E. split.
  - by eapply owned_setitem.
  - by eapply all_shaped_setitem.
Qed.

Lemma setitem_outcome_ok (h0 : heap) owner k n (h1 : heap) :
  setitem_outcome h0 owner k (Some n) (Ok tt) h1 →
  ∃ ox, h0 !! n = Some ox ∧ parent ox = None ∧ h1 = attached owner k n h0.
Proof.
  inversion 1 as [|? ? ? ? ? ? Hres|x ox os Hx Ex Hpx Eos Hkos|]; try done.
  injection Hx as <-. eauto.
Qed.

Lemma well_formed_replace self new : keeps well_formed (replace self new).
Proof.
  intros h r h' [Ho Hs] E.
  destruct (replace_outcome _ _ _ _ _ E)
    as [->|(owner & k & on & n & res1 & h1 & -> & Es & Hp & Hg & Hset & Hend)];
    [done|].
  destruct (well_formed_setitem _ _ _ _ _ _ (conj Ho Hs) Hset) as [Ho1 Hs1].
  destruct Hend as [(-> & _ & _)|(-> & -> & _)]; [done|].
  split; [|by apply all_shaped_alter].
  (* the old node no longer occupies a slot *)
  assert (n ≠ self ∧ has_parent h1 self (Some (owner, k)) ∧
          getitem h1 owner k = Ok (Some n)) as (Hns & Hps & Hslot).
  { destruct (setitem_outcome_of _ _ _ _ _ _ Hset) as (h0 & Hh0 & Hout).
    assert (getitem h0 owner k = Ok (Some self) ∧
            has_parent h0 self (Some (owner, k))) as [Hg0 Hp0].
    { destruct Hh0 as [->|(x & _ & ->)]; [split; [done|by exists on]|].
      split; [by rewrite getitem_alter_is_def|].
      apply has_parent_alter_keep; [done|by exists on]. }
    destruct (getitem_inv _ _ _ _ Hg0) as (oo & i & Eo & He & Hi & Hk).
    destruct Hp0 as (on0 & Es0 & Hpn0).
    destruct (setitem_outcome_ok _ _ _ _ _ Hout) as (ox & Ex & Hpx & ->).
    assert (n ≠ self) as Hns by (intros ->; congruence).
    split; [done|].
    split; [|eapply attached_slot;
               [done..|by destruct (slot_of_Some _ _ _ Hi)]].
    unfold attached.
    apply has_parent_alter_keep; [intros; apply set_operand_parent|].
    apply has_parent_alter_ne; [done|]. by exists on0. }
  intros r' o k' c Er Her Hc.
  destruct (lookup_alter_inv _ _ _ _ _ Er) as (o1 & Er1 & H1).
  assert (cls o1 = cls o ∧ operands o1 = operands o) as [Hc1 Hops1]
    by by destruct H1 as [[_ ->]|[_ ->]].
  destruct (Ho1 r' o1 k' c Er1) as (key' & Hpc & Hkey); [congruence..|].
  destruct (decide (c = self)) as [->|Hcs].
  - pose proof (has_parent_functional _ _ _ _ Hpc Hps) as [= -> ->].
    destruct (getitem_inv _ _ _ _ Hslot) as (oo1 & i1 & Eo1 & _ & Hi1 & Hk1).
    congruence.
  - exists key'. split; [by apply has_parent_alter_ne|]. by rewrite <- Hops1.
Qed.

(** ** Constructors *)

Lemma owned_app (h : heap) o :
  (∀ k c, operands o !! k ≠ Some (Some c)) → owned h → owned (h ++ [o]).
Proof.
  intros Hempty Ho r o' k c Er He Hk.
  destruct (decide (r < List.length h)%nat) as [Hr|Hr].
  - rewrite lookup_app_l in Er by done.
    destruct (Ho r o' k c Er He Hk) as (key & (oc & Ec & Hp) & Hkey).
    exists key. split; [|done].
    exists oc. split; [|done]. by apply lookup_app_l_Some.
  - rewrite lookup_app_r in Er by lia.
    destruct (r - List.length h)%nat; [|done].
    injection Er as <-. by destruct (Hempty k c).
Qed.

Lemma all_shaped_app (h : heap) o :
  shaped o → all_shaped h → all_shaped (h ++ [o]).
Proof.
  intros Hso Hs r o' Er.
  destruct (decide (r < List.length h)%nat) as [Hr|Hr].
  - rewrite lookup_app_l in Er by done. eauto.
  - rewrite lookup_app_r in Er by lia.
    destruct (r - List.length h)%nat; [|done]. by injection Er as <-.
Qed.

Lemma well_formed_alloc o :
  (∀ k c, operands o !! k ≠ Some (Some c)) → shaped o →
  keeps well_formed (alloc o).
Proof.
  intros Hempty Hso h r h' [Ho Hs] E. injection E as _ <-.
  split; [by apply owned_app|by apply all_shaped_app].
Qed.

Lemma well_formed_assign_each self ops :
  ∀ i, keeps well_formed (assign_each self i ops).
Proof.
  induction ops as [|v ops IH]; intros i; simpl.
  - apply keeps_ret.
  - apply keeps_bind; [apply well_formed_setitem|intros _; apply IH].
Qed.

Lemma expr_init_start c f ops (h : heap) :
  expr_init (List.length h) ops (h ++ [Obj c None false f []]) =
  assign_each (List.length h) 0 ops
    (h ++ [Obj c None false f (replicate (List.length ops) None)]).
Proof.
  unfold expr_init, set_parent.
  mok (modify_run (h ++ [Obj c None false f []]) (List.length h)
         (with_parent None) _ (list_lookup_middle _ _ _ _ eq_refl)).
  rewrite alter_new.
  mok (modify_run (h ++ [with_parent None (Obj c None false f [])])
         (List.length h) (with_operands (replicate (List.length ops) None)) _
         (list_lookup_middle _ _ _ _ eq_refl)).
  by rewrite alter_new.
Qed.

(** The shape shared by the constructors of the composite classes. *)
Lemma well_formed_new_expr c f ops :
  attrs_fit c f → List.length ops = arity c →
  keeps well_formed
    (self ← alloc (Obj c None false f []); expr_init self ops;; mret self).
Proof.
  intros Hf Hn h r h' Hwf E. rewrite alloc_bind, bind_run in E.
  rewrite expr_init_start in E.
  destruct (assign_each _ _ _ _) as [res h1] eqn:Eeach in E.
  assert (well_formed h1) as Hwf1.
  { eapply well_formed_assign_each; [|exact Eeach].
    destruct Hwf as [Ho Hs]. split.
    - apply owned_app; [|done]. simpl. intros k x Hk.
      apply lookup_replicate in Hk. by destruct Hk.
    - apply all_shaped_app; [|done]. split; simpl; [|done].
      by rewrite length_replicate. }
  destruct res; by injection E as _ <-.
Qed.

Lemma well_formed_alter_is_def (h : heap) x b :
  well_formed h → well_formed (alter (with_is_def b) x h).
Proof.
  intros [Ho Hs]. split; [by apply owned_alter_is_def|].
  by apply all_shaped_alter.
Qed.





Lemma arity_uexpr c : is_uexpr c = true → arity c = 1%nat.
Proof. by destruct c. Qed.

Lemma arity_bexpr c : is_bexpr c = true → arity c = 2%nat.
Proof. by destruct c. Qed.




End shape.

(** ** Copying and folding *)

(** One step of a proof that a computation keeps an invariant: by the
    shape of the computation, leaving constructor calls to [ctor] and
    other calls to [call]. *)
Ltac keep_step ctor call :=
  match goal with
  | |- keeps _ (mret _) => apply keeps_ret
  | |- keeps _ (raise _) => apply keeps_raise
  | |- keeps _ (read _) => apply keeps_read
  | |- keeps _ (py_assert _) => apply keeps_assert
  | |- keeps _ (get_obj _) => apply keeps_get_obj
  | |- keeps _ (mbind _ _) => apply keeps_bind
  | |- keeps _ (match ?x with _ => _ end) => destruct x
  | |- ∀ _, _ => intros ?
  | |- keeps _ (new_value _) => ctor
  | |- keeps _ (new_call _ _) => ctor
  | |- keeps _ (new_regloc _ _ _ _) => ctor
  | |- keeps _ (new_named _ _ _ _ _) => ctor
  | |- keeps _ (new_uexpr _ _) => ctor
  | |- keeps _ (new_bexpr _ _ _) => ctor
  | |- _ => call
  end.




Lemma owned_alter_data (h : heap) (f : obj → obj) x :
  (∀ o, parent (f o) = parent o ∧ cls (f o) = cls o ∧
        operands (f o) = operands o) →
  owned h → owned (alter f x h).
Proof.
  intros Hf Ho r o k c Er He Hk.
  destruct (lookup_alter_inv _ _ _ _ _ Er) as (o0 & Er0 & H0).
  assert (cls o0 = cls o ∧ operands o0 = operands o) as [Hc0 Hops0].
  { destruct H0 as [[_ ->]|[_ ->]]; [|done].
    destruct (Hf o0) as (_ & -> & ->). done. }
  eapply (owned_carry h _ r o0 o); [done|done|congruence..|].
  intros p. apply has_parent_alter_keep. intros o'; apply Hf.
Qed.

Lemma all_shaped_alter_at (h : heap) (f : obj → obj) x o :
  h !! x = Some o → shaped (f o) → all_shaped h → all_shaped (alter f x h).
Proof.
  intros Ex Hfo Hs r o' Er.
  destruct (lookup_alter_inv _ _ _ _ _ Er) as (o0 & E0 & [[-> ->]|[_ ->]]);
    [|eauto].
  by assert (o0 = o) as -> by congruence.
Qed.

Lemma get_value_same v (h : heap) : snd (get_value v h) = h.
Proof.
  destruct v as [r|]; [|done]. unfold get_value.
  rewrite bind_run. unfold get_obj, read, lookup_obj.
  destruct (h !! r) as [o|]; [|done]. by destruct (fields o).
Qed.

Lemma get_value_inv v (h : heap) a (h' : heap) :
  get_value v h = (Ok a, h') →
  ∃ r o, v = Some r ∧ h !! r = Some o ∧ fields o = A_value a.
Proof.
  destruct v as [r|]; [|done]. unfold get_value.
  rewrite bind_run. unfold get_obj, read, lookup_obj.
  destruct (h !! r) as [o|] eqn:Er; [|done]. simpl.
  destruct (fields o) eqn:Hf; intros E; try (by inversion E).
  injection E as <- _. by exists r, o.
Qed.

(** The ways the update of [self.op2.value] ends: with the store as it
    was, or with a new payload in a literal. *)
Lemma fold_value_outcome op self other (h : heap) res (h' : heap) :
  fold_value op self other h = (res, h') →
  h' = h ∨
  ∃ r o a v, getitem h self 1 = Ok (Some r) ∧ h !! r = Some o ∧
             fields o = A_value a ∧
             h' = alter (with_fields (A_value v)) r h.
Proof.
  intros E. unfold fold_value in E. rewrite bind_run in E.
  unfold read at 1 in E.
  destruct (getitem h self 1) as [op2|e] eqn:Hg; [|left; by injection E].
  rewrite bind_run in E.
  pose proof (get_value_same op2 h) as Hsame.
  destruct (get_value op2 h) as [[a|e] h1] eqn:Ea; simpl in Hsame; subst h1;
    [|left; by injection E].
  destruct (get_value_inv _ _ _ _ Ea) as (r & o & -> & Er & Hf).
  rewrite bind_run in E.
  pose proof (get_value_same (Some other) h) as Hsame.
  destruct (get_value (Some other) h) as [[b|e] h1] eqn:Eb; simpl in Hsame;
    subst h1; [|left; by injection E].
  destruct a as [x|]; [|left; by injection E].
  destruct b as [y|]; [|left; by injection E].
  rewrite (modify_run _ _ _ _ Er) in E. injection E as _ <-.
  right. eauto 10.
Qed.

Lemma well_formed_fold_value op self other :
  keeps well_formed (fold_value op self other).
Proof.
  intros h res h' [Ho Hs] E.
  destruct (fold_value_outcome _ _ _ _ _ _ E)
    as [->|(r & o & a & v & _ & Er & Hf & ->)]; [done|].
  split.
  - by apply owned_alter_data.
  - apply (all_shaped_alter_at h _ r o); [done| |done].
    destruct (Hs r o Er) as [Hlen Hfit]. rewrite Hf in Hfit.
    split; [done|]. simpl in *. done.
Qed.



(** ** Every call of a session keeps the store well-formed *)


Lemma well_formed_empty : well_formed [].
Proof. split; intros r o; by rewrite ?lookup_nil. Qed.


Lemma owned_exclusive (h : heap) : owned h → exclusive h.
Proof.
  intros Ho r o k r' o' k' c Er He Hk Er' He' Hk'.
  destruct (Ho _ _ _ _ Er He Hk) as (key & Hp & Hs).
  destruct (Ho _ _ _ _ Er' He' Hk') as (key' & Hp' & Hs').
  pose proof (has_parent_functional _ _ _ _ Hp Hp') as [= -> ->].
  assert (o' = o) as -> by congruence. split; [done|congruence].
Qed.


(** ** The converse link through the constructors *)

Section converse_link.
Context {db : ida}.

Lemma getitem_set_operand_other (h : heap) self key v r k os :
  h !! self = Some os →
  (r = self → slot_of (List.length (operands os)) key ≠
              slot_of (List.length (operands os)) k) →
  getitem (alter (set_operand key v) self h) r k = getitem h r k.
Proof.
  intros Es Hne. destruct (decide (r = self)) as [->|Hr].
  - apply (getitem_set_operand_ne _ _ _ _ _ os); [done|by apply Hne].
  - unfold getitem, lookup_obj. by rewrite list_lookup_alter_ne.
Qed.

(** Reading a slot by its position. *)
Lemma getitem_nat_inv (h : heap) self (i : nat) v :
  getitem h self (Z.of_nat i) = Ok v →
  ∃ o, h !! self = Some o ∧ is_expr (cls o) = true ∧
       operands o !! i = Some v.
Proof.
  intros Hg. destruct (getitem_inv _ _ _ _ Hg) as (o & i' & E & He & Hi & Hv).
  destruct (slot_of_Some _ _ _ Hi) as [[_ Hlt] _].
  rewrite slot_of_nat in Hi by lia. injection Hi as <-. eauto.
Qed.

(** A slot assignment leaves the other slots alone, however it ends. *)
Lemma setitem_other_slots (h : heap) self key v res (h' : heap) r k :
  setitem self key v h = (res, h') →
  (∀ os, h !! self = Some os → r = self →
         slot_of (List.length (operands os)) key ≠
         slot_of (List.length (operands os)) k) →
  getitem h' r k = getitem h r k.
Proof.
  intros E Hne.
  destruct (h !! self) as [os|] eqn:Es.
  2: { unfold setitem, get_obj, read, lookup_obj in E.
       rewrite bind_run, Es in E. by injection E as _ <-. }
  specialize (Hne os eq_refl).
  destruct (setitem_outcome_of _ _ _ _ _ _ E) as (h0 & Hh0 & Hout).
  assert (∀ r k, getitem h0 r k = getitem h r k) as Hsame.
  { intros r0 k0. destruct Hh0 as [->|(x & _ & ->)]; [done|].
    apply getitem_alter_is_def. }
  assert (∀ os0, h0 !! self = Some os0 → operands os0 = operands os)
    as Hops.
  { intros os0 Es0. destruct Hh0 as [->|(x & _ & ->)]; [congruence|].
    destruct (lookup_alter_inv _ _ _ _ _ Es0) as (o1 & E1 & H1).
    assert (o1 = os) as -> by congruence.
    by destruct H1 as [[_ ->]|[_ ->]]. }
  rewrite <- Hsame.
  destruct Hout as [res' _|x ox res' _ _ _ _ _|x ox os' _ _ _ Es' _
                   |os' _ Es' _].
  - done.
  - apply getitem_alter_parent.
  - apply (getitem_attached_ne _ _ _ _ _ _ os'); [done|].
    by rewrite (Hops _ Es').
  - apply (getitem_set_operand_other _ _ _ _ _ _ os'); [done|].
    by rewrite (Hops _ Es').
Qed.

Lemma linked_outcome (h : heap) self key v res (h' : heap) :
  linked h → getitem h self key = Ok None →
  setitem_outcome h self key v res h' → linked h'.
Proof.
  intros Hl Hg Hout.
  destruct (getitem_inv _ _ _ _ Hg) as (oo & i & Eo & He & Hi & Hk).
  assert (valid_key (List.length (operands oo)) key) as Hlt
    by by destruct (slot_of_Some _ _ _ Hi).
  assert (∀ c k, getitem h self k = Ok (Some c) →
                 slot_of (List.length (operands oo)) key ≠
                 slot_of (List.length (operands oo)) k) as Hother.
  { intros c k Hgk Hs. rewrite (getitem_same_slot _ _ _ _ _ Eo Hs) in Hg.
    congruence. }
  destruct Hout as [res' _|x ox res' _ _ _ _ Hrange
                   |x ox os' -> Ex Hpx _ _|os' _ _ _].
  - done.
  - by destruct (Hrange _ Eo).
  - intros c oc r k Ec Hpc.
    assert (has_parent (attached self key x h) c (Some (r, k))) as Hp
      by by exists oc.
    destruct (decide (c = x)) as [->|Hcx].
    + pose proof (attached_child h self key x ox Ex) as Hpx'.
      pose proof (has_parent_functional _ _ _ _ Hp Hpx') as [= -> ->].
      by eapply attached_slot.
    + apply has_parent_attached_inv in Hp; [|done].
      destruct Hp as (oc0 & Ec0 & Hpc0).
      pose proof (Hl c oc0 r k Ec0 Hpc0) as Hg0.
      rewrite (getitem_attached_ne _ _ _ _ _ _ oo Eo); [done|].
      intros ->. by apply (Hother c).
  - intros c oc r k Ec Hpc.
    destruct (lookup_alter_inv _ _ _ _ _ Ec) as (oc0 & Ec0 & H0).
    assert (parent oc0 = Some (r, k)) as Hpc0.
    { destruct H0 as [[_ ->]|[_ ->]]; [|done].
      by rewrite set_operand_parent in Hpc. }
    pose proof (Hl c oc0 r k Ec0 Hpc0) as Hg0.
    rewrite (getitem_set_operand_other _ _ _ _ _ _ oo Eo); [done|].
    intros ->. by apply (Hother c).
Qed.

(** A slot assignment into an empty slot keeps the converse link. *)
Lemma linked_setitem (h : heap) self key v res (h' : heap) :
  linked h → getitem h self key = Ok None →
  setitem self key v h = (res, h') → linked h'.
Proof.
  intros Hl Hg E.
  destruct (setitem_outcome_of _ _ _ _ _ _ E) as (h0 & Hh0 & Hout).
  apply (linked_outcome h0 self key v res h'); [| |done].
  - destruct Hh0 as [->|(x & _ & ->)]; [done|].
    by apply linked_alter_is_def.
  - destruct Hh0 as [->|(x & _ & ->)]; [done|].
    by rewrite getitem_alter_is_def.
Qed.

Lemma linked_assign_each self ops :
  ∀ i (h : heap) res (h' : heap),
    linked h →
    (∀ j, (j < List.length ops)%nat →
          getitem h self (Z.of_nat (i + j)) = Ok None) →
    assign_each self i ops h = (res, h') → linked h'.
Proof.
  induction ops as [|v ops IH]; intros i h res h' Hl Hnone E; simpl in E.
  - by injection E as _ <-.
  - rewrite bind_run in E.
    destruct (setitem self (Z.of_nat i) v h) as [r1 h1] eqn:E1.
    assert (linked h1) as Hl1.
    { eapply linked_setitem; [done| |exact E1].
      specialize (Hnone 0%nat). rewrite Nat.add_0_r in Hnone.
      apply Hnone. simpl. lia. }
    destruct r1 as [[]|e]; [|by injection E as _ <-].
    apply (IH (S i) h1 res h' Hl1); [|done].
    intros j Hj.
    assert (getitem h self (Z.of_nat (S i + j)) = Ok None) as Hg.
    { replace (S i + j)%nat with (i + S j)%nat by lia.
      apply Hnone. simpl. lia. }
    rewrite (setitem_other_slots _ _ _ _ _ _ _ _ E1); [done|].
    intros os Es _.
    destruct (getitem_nat_inv _ _ _ _ Hg) as (o & Eo & _ & Hj').
    assert (o = os) as -> by congruence.
    apply lookup_lt_Some in Hj'.
    rewrite !slot_of_nat by lia. intros [= ?]. lia.
Qed.

Lemma linked_app (h : heap) o :
  parent o = None → linked h → linked (h ++ [o]).
Proof.
  intros Hp Hl c oc r k Ec Hpc.
  destruct (decide (c < List.length h)%nat) as [Hc|Hc].
  - rewrite lookup_app_l in Ec by done.
    pose proof (Hl c oc r k Ec Hpc) as Hg.
    destruct (getitem_inv _ _ _ _ Hg) as (oo & i & Eo & He & Hi & Hk).
    eapply getitem_key; [|done..]. by apply lookup_app_l_Some.
  - rewrite lookup_app_r in Ec by lia.
    destruct (c - List.length h)%nat; [|done]. injection Ec as <-.
    congruence.
Qed.

Lemma linked_new_expr c f ops :
  is_expr c = true →
  keeps linked
    (self ← alloc (Obj c None false f []); expr_init self ops;; mret self).
Proof.
  intros Hc h r h' Hl E. rewrite alloc_bind, bind_run in E.
  rewrite expr_init_start in E.
  destruct (assign_each _ _ _ _) as [res h1] eqn:Eeach in E.
  assert (linked h1) as Hl1.
  { eapply linked_assign_each; [| |exact Eeach].
    - by apply linked_app.
    - intros j Hj. simpl. eapply getitem_run.
      + by apply list_lookup_middle.
      + done.
      + simpl. by apply lookup_replicate. }
  destruct res; by injection E as _ <-.
Qed.

Lemma linked_alter_data (h : heap) (f : obj → obj) x :
  (∀ o, parent (f o) = parent o ∧ cls (f o) = cls o ∧
        operands (f o) = operands o) →
  linked h → linked (alter f x h).
Proof.
  intros Hf Hl c oc r k Ec Hpc.
  destruct (lookup_alter_inv _ _ _ _ _ Ec) as (oc0 & Ec0 & H0).
  assert (parent oc0 = Some (r, k)) as Hpc0.
  { destruct H0 as [[_ ->]|[_ ->]]; [|done].
    destruct (Hf oc0) as (Hp & _). congruence. }
  pose proof (Hl c oc0 r k Ec0 Hpc0) as Hg.
  destruct (getitem_inv _ _ _ _ Hg) as (oo & i & Eo & He & Hi & Hk).
  destruct (decide (r = x)) as [->|Hr].
  - destruct (Hf oo) as (_ & Hcls & Hops).
    eapply (getitem_key _ _ _ i (f oo)).
    + by rewrite list_lookup_alter_eq, Eo.
    + by rewrite Hcls.
    + by rewrite Hops.
    + by rewrite Hops.
  - eapply getitem_key; [|done..]. by rewrite list_lookup_alter_ne.
Qed.

(** ** Consistency through every call but the slot assignment *)

Lemma consistent_alloc o :
  (∀ k c, operands o !! k ≠ Some (Some c)) → shaped o → parent o = None →
  keeps consistent (alloc o).
Proof.
  intros Hempty Hso Hp h r h' [Hwf Hl] E. split.
  - by eapply well_formed_alloc.
  - injection E as _ <-. by apply linked_app.
Qed.

Lemma consistent_new_expr c f ops :
  is_expr c = true → attrs_fit c f → List.length ops = arity c →
  keeps consistent
    (self ← alloc (Obj c None false f []); expr_init self ops;; mret self).
Proof.
  intros Hc Hf Hn h r h' [Hwf Hl] E. split.
  - by eapply well_formed_new_expr.
  - by eapply linked_new_expr.
Qed.

Lemma consistent_new_regloc c which name index :
  c = regloc_t ∨ c = flagloc_t →
  keeps consistent (new_regloc c which name index).
Proof.
  intros Hc. apply consistent_alloc; [done| |done].
  split; simpl; [by destruct Hc as [->| ->]|done].
Qed.

Lemma consistent_new_value value : keeps consistent (new_value value).
Proof. by apply consistent_alloc. Qed.

Lemma consistent_new_named fuel c where_ name :
  c = var_t ∨ c = arg_t →
  keeps consistent (new_named db fuel c where_ name).
Proof.
  intros Hc. unfold new_named. apply keeps_bind.
  - destruct (nonempty name); [apply keeps_ret|apply keeps_read].
  - intros nm. apply consistent_alloc; [done| |done].
    split; simpl; [by destruct Hc as [->| ->]|done].
Qed.

Lemma consistent_new_call fct params :
  keeps consistent (new_call fct params).
Proof. by apply consistent_new_expr. Qed.

Lemma is_expr_uexpr c : is_uexpr c = true → is_expr c = true.
Proof. by destruct c. Qed.

Lemma is_expr_bexpr c : is_bexpr c = true → is_expr c = true.
Proof. by destruct c. Qed.

Lemma consistent_new_uexpr c op :
  is_uexpr c = true → keeps consistent (new_uexpr c op).
Proof.
  intros Hc. apply consistent_new_expr; [by apply is_expr_uexpr|done|].
  by rewrite arity_uexpr.
Qed.

Lemma consistent_alter_is_def (h : heap) x b :
  consistent h → consistent (alter (with_is_def b) x h).
Proof.
  intros [Hwf Hl]. split; [by apply well_formed_alter_is_def|].
  by apply linked_alter_is_def.
Qed.

Lemma consistent_new_bexpr c op1 op2 :
  is_bexpr c = true → keeps consistent (new_bexpr c op1 op2).
Proof.
  intros Hc. unfold new_bexpr. apply keeps_bind.
  { destruct c; try apply keeps_ret.
    apply keeps_bind; [|intros a; apply keeps_assert].
    destruct op1; [|apply keeps_ret].
    apply keeps_bind; [apply keeps_get_obj|intros o; apply keeps_ret]. }
  intros _.
  assert (keeps consistent
            (self ← alloc (Obj c None false (A_bexpr (operator_of c)) []);
             expr_init self [op1; op2];; mret self)) as Hnew.
  { apply consistent_new_expr; [by apply is_expr_bexpr|done|].
    by rewrite arity_bexpr. }
  intros h r h' Hwf E. rewrite bind_run in E.
  destruct (alloc _ h) as [[self|e] h1] eqn:Ea; [|done].
  rewrite bind_run in E.
  destruct (expr_init self [op1; op2] h1) as [[[]|e] h2] eqn:Ei.
  - assert (consistent h2) as Hwf2.
    { eapply (Hnew h (Ok self) h2); [done|].
      rewrite bind_run, Ea, bind_run, Ei. done. }
    revert E. apply keeps_bind; [|intros _; apply keeps_ret|done].
    destruct c; try apply keeps_ret.
    destruct op1; [|apply keeps_ret].
    apply keeps_modify. intros h0 o Hwf0 _.
    by apply consistent_alter_is_def.
  - injection E as _ <-. eapply (Hnew h (Raise e) h2); [done|].
    rewrite bind_run, Ea, bind_run, Ei. done.
Qed.

Lemma consistent_new_ternary_if cond then_ else_ :
  keeps consistent (new_ternary_if cond then_ else_).
Proof. by apply consistent_new_expr. Qed.

Lemma consistent_replace self new : keeps consistent (replace self new).
Proof.
  intros h r h' [Hwf Hl] E. split.
  - by eapply well_formed_replace.
  - destruct Hwf as [Ho _]. by eapply links_replace.
Qed.

End converse_link.

Ltac consistent_ctor :=
  first [ apply consistent_new_value
        | apply consistent_new_call
        | apply consistent_new_regloc; auto
        | apply consistent_new_named; auto
        | apply consistent_new_uexpr; reflexivity
        | apply consistent_new_bexpr; reflexivity ].

Lemma consistent_copy_attr (rec : ref → M ref) v :
  (∀ r, keeps consistent (rec r)) → keeps consistent (copy_attr rec v).
Proof. intros Hrec. destruct v; [apply Hrec|apply keeps_raise]. Qed.

Lemma consistent_copy db fuel :
  ∀ self, keeps consistent (copy db fuel self).
Proof.
  induction fuel as [|n IH]; intros self; simpl; [apply keeps_raise|].
  apply keeps_bind; [apply keeps_get_obj|]. intros o.
  pose proof (consistent_copy_attr (copy db n)) as Hattr.
  destruct (cls o) eqn:Hc; lazy beta iota delta [is_uexpr];
    repeat keep_step consistent_ctor
      ltac:(first [apply IH | apply Hattr; exact IH]).
Qed.

Lemma consistent_fold_value op self other :
  keeps consistent (fold_value op self other).
Proof.
  intros h res h' [Hwf Hl] E. split; [by eapply well_formed_fold_value|].
  destruct (fold_value_outcome _ _ _ _ _ _ E)
    as [->|(r & o & a & v & _ & Er & Hf & ->)]; [done|].
  by apply linked_alter_data.
Qed.

Lemma consistent_fold_add self other :
  keeps consistent (fold_add self other).
Proof.
  unfold fold_add, add_t_add, sub_t_add, is_value.
  pose proof consistent_fold_value as Hfold.
  apply keeps_bind; [apply keeps_get_obj|]. intros o.
  destruct (cls o); repeat keep_step consistent_ctor ltac:(apply Hfold).
Qed.

Lemma consistent_fold_sub self other :
  keeps consistent (fold_sub self other).
Proof.
  unfold fold_sub, add_t_sub, sub_t_sub, is_value.
  pose proof consistent_fold_value as Hfold.
  apply keeps_bind; [apply keeps_get_obj|]. intros o.
  destruct (cls o); repeat keep_step consistent_ctor ltac:(apply Hfold).
Qed.

Lemma consistent_exec db c (h : heap) :
  by_replace c = true → consistent h → consistent (exec db c h).
Proof.
  intros Hc Hwf. destruct c; simpl in *; try done; apply keeps_after;
    try done.
  - apply consistent_new_regloc. by apply bool_decide_eq_true in Hc.
  - apply consistent_new_value.
  - apply consistent_new_named. by apply bool_decide_eq_true in Hc.
  - apply consistent_new_call.
  - by apply consistent_new_uexpr.
  - by apply consistent_new_bexpr.
  - apply consistent_new_ternary_if.
  - apply consistent_replace.
  - apply consistent_copy.
  - apply consistent_fold_add.
  - apply consistent_fold_sub.
Qed.

Lemma consistent_empty : consistent [].
Proof.
  split; [apply well_formed_empty|]. intros c oc r k. by rewrite lookup_nil.
Qed.

Lemma consistent_session db calls :
  Forall (λ c, by_replace c = true) calls → consistent (session db calls).
Proof.
  unfold session. generalize consistent_empty. generalize ([] : heap).
  induction calls as [|c calls IH]; intros h Hwf Hall; simpl; [done|].
  inversion Hall as [|? ? Hc Hrest]; subst.
  apply IH; [|done]. by apply consistent_exec.
Qed.

(** ** A slot index out of range *)

Section out_of_range.
Context {db : ida}.

Lemma expr_setitem_range (h : heap) self key x os ox :
  h !! self = Some os → ¬ valid_key (List.length (operands os)) key →
  h !! x = Some ox → parent ox = None →
  expr_setitem self key (Some x) h =
  (Raise IndexError, alter (with_parent (Some (self, key))) x h).
Proof.
  intros Es Hk Ex Hp. unfold expr_setitem, set_parent.
  simpl isinstance_replaceable.
  mpass. mok (get_parent_run _ _ _ Ex). rewrite Hp. simpl bool_decide.
  mpass. mok (modify_run _ _ (with_parent (Some (self, key))) _ Ex).
  destruct (alter_is_Some h (with_parent (Some (self, key))) x self)
    as [os1 Es1]; [by eexists|].
  destruct (lookup_alter_inv _ _ _ _ _ Es1) as (os0 & Es0 & H0).
  assert (os0 = os) as -> by congruence.
  apply (store_operand_range _ _ _ _ os1); [done|].
  by destruct H0 as [[_ ->]|[_ ->]].
Qed.

Lemma setitem_range (h : heap) self key x os ox :
  h !! self = Some os → is_expr (cls os) = true →
  ¬ valid_key (List.length (operands os)) key →
  h !! x = Some ox → parent ox = None →
  slot_admits (cls os) key (cls ox) = true →
  setitem self key (Some x) h =
  (Raise IndexError,
   alter (with_parent (Some (self, key))) x (marked (cls os) key x h)).
Proof.
  intros Es Hc Hk Ex Hp Ha.
  destruct (decide (cls os = assign_t)) as [Hcl|Hcl].
  - rewrite (setitem_assign _ _ _ _ _ Es Hcl).
    destruct (decide (key = 0%Z)) as [->|Hk0].
    + rewrite Hcl, slot_admits_target in Ha. rewrite Hcl, marked_target.
      rewrite (assign_setitem_target _ _ _ _ Ex Ha).
      destruct (marked_lookup h x _ _ Es) as (os' & Es' & _ & _ & _ & Hops).
      destruct (marked_lookup h x _ _ Ex) as (ox' & Ex' & _ & Hpar & _).
      eapply expr_setitem_range; eauto; congruence.
    + rewrite assign_setitem_other by done.
      rewrite marked_other by (by intros [_ ?]).
      by eapply expr_setitem_range.
  - rewrite (setitem_expr _ _ _ _ _ Es Hc Hcl).
    rewrite marked_other by (by intros [? _]).
    by eapply expr_setitem_range.
Qed.

End out_of_range.

(** ** The example stores as sessions *)

Lemma scene_add_session :
  scene_add =
  session db0 [Cvalue (Some 1%Z); Cregloc regloc_t 0 None None;
               Cbinary add_t (Some 0%nat) (Some 1%nat); Cvalue (Some 8%Z);
               Cunary neg_t (Some 3%nat); Cvalue (Some 9%Z)].
Proof. reflexivity. Qed.

Lemma scene_literals_session :
  scene_literals =
  session db0 [Cvalue (Some 1%Z); Cvalue (Some 2%Z);
               Cbinary add_t (Some 0%nat) (Some 1%nat); Cvalue (Some 3%Z);
               Cvalue (Some 4%Z)].
Proof. reflexivity. Qed.

Lemma scene_add_consistent : consistent scene_add.
Proof.
  rewrite scene_add_session. apply consistent_session.
  repeat constructor.
Qed.

Lemma scene_literals_consistent : consistent scene_literals.
Proof.
  rewrite scene_literals_session. apply consistent_session.
  repeat constructor.
Qed.

(** ** Folding: what [add] and [sub] touch *)

Lemma fold_value_cases op self other (h : heap) :
  (∃ e, fold_value op self other h = (Raise e, h)) ∨
  (∃ r o a b,
     getitem h self 1 = Ok (Some r) ∧ h !! r = Some o ∧
     fields o = A_value (Some a) ∧
     (∃ oo, h !! other = Some oo ∧ fields oo = A_value (Some b)) ∧
     fold_value op self other h =
     (Ok tt, alter (with_fields (A_value (Some (op a b)))) r h)).
Proof.
  unfold fold_value. rewrite bind_run. unfold read at 1.
  destruct (getitem h self 1) as [op2|e] eqn:Hg; [|left; eexists; reflexivity].
  rewrite bind_run.
  pose proof (get_value_same op2 h) as Hsame.
  destruct (get_value op2 h) as [[a|e] h1] eqn:Ea; simpl in Hsame; subst h1;
    [|left; eexists; reflexivity].
  destruct (get_value_inv _ _ _ _ Ea) as (r & o & -> & Er & Hf).
  rewrite bind_run.
  pose proof (get_value_same (Some other) h) as Hsame.
  destruct (get_value (Some other) h) as [[b|e] h1] eqn:Eb; simpl in Hsame;
    subst h1; [|left; eexists; reflexivity].
  destruct (get_value_inv _ _ _ _ Eb) as (r' & oo & [= <-] & Eo & Hfo).
  destruct a as [x|]; [|left; eexists; reflexivity].
  destruct b as [y|]; [|left; eexists; reflexivity].
  right. exists r, o, x, y.
  split; [done|]. split; [done|]. split; [done|]. split; [eauto|].
  unfold read. rewrite Hg. cbv beta iota.
  rewrite (bind_ok _ _ _ _ _ Ea), (bind_ok _ _ _ _ _ Eb).
  by apply (modify_run _ _ _ o).
Qed.

Lemma is_value_cases other (h : heap) :
  match h !! other with
  | Some oo => is_value other h = (Ok (bool_decide (cls oo = value_t)), h)
  | None => is_value other h = (Raise BadReference, h)
  end.
Proof.
  unfold is_value, get_obj, read, lookup_obj. rewrite bind_run.
  by destruct (h !! other).
Qed.


(** The dispatch of [add] and [sub]: on a literal argument, the update
    of the payload that the class of [self] prescribes. *)
Lemma fold_add_value (h : heap) self os other b :
  h !! self = Some os → has_value h other b →
  fold_add self other h =
  match cls os with
  | add_t => fold_value Z.add self other h
  | sub_t => fold_value Z.sub self other h
  | _ => (Raise AttributeError, h)
  end.
Proof.
  intros Es Ho. unfold fold_add. mok (get_obj_run _ _ _ Es).
  unfold add_t_add, sub_t_add.
  destruct (cls os); try done; by mok (is_value_run _ _ _ Ho).
Qed.

Lemma fold_sub_value (h : heap) self os other b :
  h !! self = Some os → has_value h other b →
  fold_sub self other h =
  match cls os with
  | add_t => fold_value Z.sub self other h
  | sub_t => fold_value Z.add self other h
  | _ => (Raise AttributeError, h)
  end.
Proof.
  intros Es Ho. unfold fold_sub. mok (get_obj_run _ _ _ Es).
  unfold add_t_sub, sub_t_sub.
  destruct (cls os); try done; by mok (is_value_run _ _ _ Ho).
Qed.

(** The guard on the argument: a call either raises with the store as
    it was, with [RuntimeError] when the argument is an object that is
    not a literal, or goes on to the update of the payload. *)
Lemma fold_guard_cases op self other (h : heap) :
  (∃ e, (v ← is_value other;
         if v : bool then fold_value op self other
         else raise RuntimeError) h = (Raise e, h) ∧
        ∀ oo, h !! other = Some oo → cls oo ≠ value_t → e = RuntimeError) ∨
  ((v ← is_value other;
    if v : bool then fold_value op self other
    else raise RuntimeError) h = fold_value op self other h ∧
   ∃ oo, h !! other = Some oo ∧ cls oo = value_t).
Proof.
  pose proof (is_value_cases other h) as Hv.
  destruct (h !! other) as [oo|] eqn:Eo.
  - destruct (decide (cls oo = value_t)) as [Hc|Hc].
    + right. rewrite bool_decide_eq_true_2 in Hv by done.
      split; [by rewrite (bind_ok _ _ _ _ _ Hv)|eauto].
    + left. rewrite bool_decide_eq_false_2 in Hv by done.
      exists RuntimeError. split; [|done].
      by rewrite (bind_ok _ _ _ _ _ Hv).
  - left. exists BadReference. split; [|intros oo; congruence].
    by rewrite (bind_raise _ _ _ _ _ Hv).
Qed.

(** Either method either raises with the store as it was or is one of
    the two updates of the payload. *)
Lemma fold_cases (m : ref → ref → M unit) self other (h : heap) :
  m = fold_add ∨ m = fold_sub →
  (∃ e, m self other h = (Raise e, h) ∧
        ∀ os oo, h !! self = Some os → cls os = add_t ∨ cls os = sub_t →
                 h !! other = Some oo → cls oo ≠ value_t →
                 e = RuntimeError) ∨
  (∃ op, m self other h = fold_value op self other h ∧
         ∃ oo, h !! other = Some oo ∧ cls oo = value_t).
Proof.
  intros Hm.
  destruct (h !! self) as [os|] eqn:Es.
  2: { left. exists BadReference. split; [|intros os oo; congruence].
       destruct Hm as [-> | ->]; unfold fold_add, fold_sub, get_obj, read,
         lookup_obj; by rewrite bind_run, Es. }
  assert (∀ op,
    (∃ e, (v ← is_value other;
           if v : bool then fold_value op self other
           else raise RuntimeError) h = (Raise e, h) ∧
          ∀ os' oo, Some os = Some os' → cls os' = add_t ∨ cls os' = sub_t →
                    h !! other = Some oo → cls oo ≠ value_t →
                    e = RuntimeError) ∨
    (∃ op', (v ← is_value other;
             if v : bool then fold_value op self other
             else raise RuntimeError) h = fold_value op' self other h ∧
            ∃ oo, h !! other = Some oo ∧ cls oo = value_t)) as Hone.
  { intros op. destruct (fold_guard_cases op self other h)
      as [(e & E & He)|[E Ho]]; [left|right; eauto].
    exists e. split; [done|]. intros; eauto. }
  destruct Hm as [-> | ->].
  - unfold fold_add. mok (get_obj_run _ _ _ Es).
    destruct (cls os) eqn:Hc;
      try (left; exists AttributeError; split;
           [done|by intros os' oo' [= <-] [?|?]; congruence]).
    + apply (Hone Z.add).
    + apply (Hone Z.sub).
  - unfold fold_sub. mok (get_obj_run _ _ _ Es).
    destruct (cls os) eqn:Hc;
      try (left; exists AttributeError; split;
           [done|by intros os' oo' [= <-] [?|?]; congruence]).
    + apply (Hone Z.sub).
    + apply (Hone Z.add).
Qed.

Lemma alter_alter_id (h : heap) (f g : obj → obj) r o :
  h !! r = Some o → g (f o) = o → alter g r (alter f r h) = h.
Proof.
  intros Er Hgf. apply list_eq. intros i.
  rewrite !list_lookup_alter. case_decide; subst; [|done].
  rewrite decide_True by done. rewrite Er. simpl. congruence.
Qed.

Lemma has_value_functional (h : heap) r a b :
  has_value h r a → has_value h r b → a = b.
Proof. intros (o & E & _ & Hf) (o' & E' & _ & Hf'). congruence. Qed.

Lemma has_value_alter_ne (h : heap) (f : obj → obj) r x a :
  r ≠ x → has_value h x a → has_value (alter f r h) x a.
Proof.
  intros Hne (o & E & Hc & Hf). exists o.
  by rewrite list_lookup_alter_ne.
Qed.

(** * Further properties: slots and parent links *)

(** X1.  A slot assignment [self[key] = v] keeps the link from slots to
    parents, however it ends: if in the store before the call every
    object that occupies an operand slot has that slot as its parent
    link, then so it is in the store after the call, whether the call
    returned or raised; in particular no object occupies two slots. *)
Theorem slot_assignment_keeps_links {db : ida} (h : heap) self key v res
    (h' : heap) :
  owned h → setitem self key v h = (res, h') → owned h' ∧ exclusive h'.
Proof.
  intros Ho E. assert (owned h') by by eapply owned_setitem.
  split; [done|]. by apply owned_exclusive.
Qed.

Section link_examples.
#[local] Existing Instance db0.

(** In [e = add_t(value_t(1), value_t(2))], overwriting slot 1 with the
    literal 3. *)
Lemma slot_assignment_keeps_links_witness :
  owned (snd (setitem 2 1 (Some 3%nat) scene_literals)) ∧
  exclusive (snd (setitem 2 1 (Some 3%nat) scene_literals)).
Proof.
  apply (slot_assignment_keeps_links scene_literals 2 1 (Some 3%nat)
           (fst (setitem 2 1 (Some 3%nat) scene_literals))).
  - apply scene_literals_consistent.
  - reflexivity.
Defined.

(** X2.  [replace] keeps slots and parent links consistent in both
    directions, however it ends: if every occupant of a slot has that
    slot as its parent link and every parent link names a slot that holds
    the object, then the same is true after [self.replace(new)], whether
    it returned or raised. *)
Theorem replace_keeps_two_way_link {db : ida} (h : heap) self new res
    (h' : heap) :
  owned h → linked h → replace self new h = (res, h') →
  owned h' ∧ linked h'.
Proof. apply links_replace. Qed.

(** [eax.replace(value_t(9))] inside [1 + eax]. *)
Lemma replace_keeps_two_way_link_witness :
  owned (snd (replace 1 (Some 5%nat) scene_add)) ∧
  linked (snd (replace 1 (Some 5%nat) scene_add)).
Proof.
  apply (replace_keeps_two_way_link scene_add 1 (Some 5%nat)
           (fst (replace 1 (Some 5%nat) scene_add))).
  - apply scene_add_consistent.
  - apply scene_add_consistent.
  - reflexivity.
Defined.

End link_examples.



(** X4.  A client that builds trees with the constructors and edits them
    through [replace], [copy], [add] and [sub] only, without direct slot
    assignments, keeps the converse link as well: in every store it
    reaches, whether the calls return or raise, a parent link [(owner, k)]
    names a slot that holds the object. *)
Theorem session_two_way_link (db : ida) (calls : list call) :
  Forall (λ c, by_replace c = true) calls → linked (session db calls).
Proof. intros Hall. by destruct (consistent_session db calls Hall). Qed.

(** [e = add_t(value_t(1), eax)], [eax.replace(value_t(7))], [e.copy()]. *)
Lemma session_two_way_link_witness :
  linked
    (session db0 [Cvalue (Some 1%Z); Cregloc regloc_t 0 None None;
                  Cbinary add_t (Some 0%nat) (Some 1%nat);
                  Cvalue (Some 7%Z); Creplace 1 (Some 3%nat); Ccopy 3 2]).
Proof.
  apply session_two_way_link. repeat constructor.
Defined.

(** X5.  A slot assignment with a key outside the slots of [self]
    raises [IndexError] only after it has set the parent link of the
    value: the parent-less [x] is left with the parent link [(self, key)]
    although no slot holds it, and from then on every composite refuses
    it: the assignment raises, an assertion failure whenever the slot
    admits [x] or the texts of [x] and of the composite can be
    rendered. *)
Theorem out_of_range_assignment_links {db : ida} (h : heap) self key x os ox :
  h !! self = Some os → is_expr (cls os) = true →
  ¬ valid_key (List.length (operands os)) key →
  h !! x = Some ox → parent ox = None →
  slot_admits (cls os) key (cls ox) = true →
  ∃ h', setitem self key (Some x) h = (Raise IndexError, h') ∧
        has_parent h' x (Some (self, key)) ∧
        getitem h' self key = Raise IndexError ∧
        ∀ owner k oo,
          h' !! owner = Some oo → is_expr (cls oo) = true →
          ∃ e h'', setitem owner k (Some x) h' = (Raise e, h'') ∧
                   (slot_admits (cls oo) k (cls ox) = true →
                    e = AssertionError) ∧
                   (renders db h' (Some x) → renders db h' (Some owner) →
                    e = AssertionError).
Proof.
  intros Es Hc Hk Ex Hp Ha. eexists. split; [by eapply setitem_range|].
  set (h0 := marked (cls os) key x h).
  assert (∀ r o, h !! r = Some o → ∃ o', h0 !! r = Some o' ∧ same_shape o o')
    as Hmarked.
  { intros r o Er. unfold h0.
    destruct (marked_cases (cls os) key x h) as [-> | ->].
    - exists o. split; [done|apply same_shape_refl].
    - by apply marked_lookup. }
  destruct (Hmarked x ox Ex) as (ox0 & Ex0 & Hclsx & _).
  destruct (Hmarked self os Es) as (os0 & Es0 & Hcls0 & _ & _ & Hops0).
  assert (has_parent (alter (with_parent (Some (self, key))) x h0) x
            (Some (self, key))) as Hpx.
  { exists (with_parent (Some (self, key)) ox0).
    by rewrite list_lookup_alter_eq, Ex0. }
  split; [done|]. split.
  - rewrite getitem_alter_parent.
    apply (getitem_range _ _ _ os0); [done|congruence|by rewrite Hops0].
  - intros owner k oo Eo Hco.
    assert (alter (with_parent (Some (self, key))) x h0 !! x
            = Some (with_parent (Some (self, key)) ox0)) as Ex1
      by by rewrite list_lookup_alter_eq, Ex0.
    destruct (setitem_owned_raises _ owner k x oo _ Eo Hco Ex1)
      as (e & h'' & E & Hadm & Hren); [done|].
    exists e, h''. split; [done|]. split; [|done].
    intros Hs. apply Hadm. simpl. by rewrite Hclsx.
Qed.

Section assignment_examples.
#[local] Existing Instance db0.

(** In [e = add_t(value_t(1), value_t(2))]: [e[2] = value_t(3)]. *)
Lemma out_of_range_assignment_links_witness :
  ∃ h', setitem 2 2 (Some 3%nat) scene_literals = (Raise IndexError, h') ∧
        has_parent h' 3 (Some (2%nat, 2%Z)) ∧
        getitem h' 2 2 = Raise IndexError ∧
        ∀ owner k oo,
          h' !! owner = Some oo → is_expr (cls oo) = true →
          ∃ e h'', setitem owner k (Some 3%nat) h' = (Raise e, h'') ∧
                   (slot_admits (cls oo) k value_t = true →
                    e = AssertionError) ∧
                   (renders db0 h' (Some 3%nat) →
                    renders db0 h' (Some owner) → e = AssertionError).
Proof.
  assert (¬ valid_key 2 2) as Hk by (unfold valid_key; lia).
  exact (out_of_range_assignment_links scene_literals 2 2 3 _ _
           eq_refl eq_refl Hk eq_refl eq_refl eq_refl).
Defined.

End assignment_examples.

(** X8.  The guard of slot 0 of an assignment, under the key 0.
    Constructing an assignment whose first operand is not assignable
    raises an assertion failure; constructing one from an assignable,
    parent-less first operand flags that operand as a definition.  On an
    existing assignment [a], [a[0] = value] for a value that is not
    assignable raises and leaves the store as it was; what it raises is
    an assertion failure when the texts of the value and of [a] can be
    rendered, for the message of the assertion is built from both.  An
    assignable value is flagged as a definition.  [replace] on the node
    in slot 0, linked under the key 0, does the same. *)
Theorem assign_target_spec {db : ida} (h : heap) :
  (∀ op1 op2,
     (∀ v, op1 = Some v →
           ∃ ov, h !! v = Some ov ∧ is_assignable (cls ov) = false) →
     new_bexpr assign_t op1 op2 h = (Raise AssertionError, h)) ∧
  (∀ v ov op2,
     h !! v = Some ov → is_assignable (cls ov) = true → parent ov = None →
     match op2 with
     | Some w => w ≠ v ∧ has_parent h w None
     | None => True
     end →
     ∃ h', new_bexpr assign_t (Some v) op2 h = (Ok (List.length h), h') ∧
           has_is_def h' v true ∧
           getitem h' (List.length h) 0 = Ok (Some v)) ∧
  (∀ a oa, h !! a = Some oa → cls oa = assign_t →
     (∀ value,
        (∀ v, value = Some v →
              ∃ ov, h !! v = Some ov ∧ is_assignable (cls ov) = false) →
        ∃ e, setitem a 0 value h = (Raise e, h) ∧
             (renders db h value → renders db h (Some a) →
              e = AssertionError)) ∧
     (∀ v ov, h !! v = Some ov → is_assignable (cls ov) = true →
        ∃ r h', setitem a 0 (Some v) h = (r, h') ∧ has_is_def h' v true) ∧
     (∀ node on new onew,
        h !! node = Some on → parent on = Some (a, 0%Z) →
        getitem h a 0 = Ok (Some node) → h !! new = Some onew →
        (is_assignable (cls onew) = false →
         ∃ e, replace node (Some new) h = (Raise e, h) ∧
              (renders db h (Some new) → renders db h (Some a) →
               e = AssertionError)) ∧
        (is_assignable (cls onew) = true → parent onew = None →
         ∃ h', replace node (Some new) h = (Ok (Some node), h') ∧
               has_is_def h' new true ∧
               getitem h' a 0 = Ok (Some new)))).
Proof.
  split; [|split].
  - intros op1 op2. apply new_assign_reject.
  - intros v ov op2. apply new_assign_run.
  - intros a oa Ea Hc. split; [|split].
    + intros value. by eapply assign_slot0_reject.
    + intros v ov. by eapply assign_slot0_flags.
    + intros node on new onew En Hp Hslot Enew. split.
      * intros Hna. by eapply replace_target_reject.
      * by eapply replace_target_flags.
Qed.

Section guard_examples.
#[local] Existing Instance db0.

(** In the store of [eax = 1]: [assign_t(literal 5, None)] is refused and
    [assign_t(ecx, literal 5)] flags [ecx]; on the existing assignment,
    [a[0] = literal 5] is refused and [a[0] = ecx] flags [ecx];
    [eax.replace(literal 5)] is refused and [eax.replace(ecx)] flags
    [ecx]. *)
Lemma assign_target_spec_witness :
  new_bexpr assign_t (Some 3%nat) None scene_assign =
    (Raise AssertionError, scene_assign) ∧
  (∃ h', new_bexpr assign_t (Some 4%nat) (Some 3%nat) scene_assign
         = (Ok 5%nat, h') ∧
         has_is_def h' 4 true ∧ getitem h' 5 0 = Ok (Some 4%nat)) ∧
  setitem 2 0 (Some 3%nat) scene_assign
    = (Raise AssertionError, scene_assign) ∧
  (∃ r h', setitem 2 0 (Some 4%nat) scene_assign = (r, h') ∧
           has_is_def h' 4 true) ∧
  replace 0 (Some 3%nat) scene_assign
    = (Raise AssertionError, scene_assign) ∧
  (∃ h', replace 0 (Some 4%nat) scene_assign = (Ok (Some 0%nat), h') ∧
         has_is_def h' 4 true ∧ getitem h' 2 0 = Ok (Some 4%nat)).
Proof.
  destruct (assign_target_spec scene_assign) as (Hnew & Hflag & Hslot).
  destruct (Hslot 2%nat _ eq_refl eq_refl) as (Hrej & Hset & Hrep).
  split; [|split; [|split; [|split; [|split]]]].
  - apply Hnew. intros v [= <-]. eexists. split; reflexivity.
  - apply (Hflag 4%nat _ (Some 3%nat) eq_refl eq_refl eq_refl).
    split; [discriminate|]. eexists; split; reflexivity.
  - destruct (Hrej (Some 3%nat)) as (e & E & He).
    { intros v [= <-]. eexists. split; reflexivity. }
    rewrite E. f_equal. f_equal. apply He; eexists; reflexivity.
  - apply (Hset 4%nat _ eq_refl eq_refl).
  - destruct (Hrep 0%nat _ 3%nat _ eq_refl eq_refl eq_refl eq_refl)
      as [H _].
    destruct (H eq_refl) as (e & E & He).
    rewrite E. f_equal. f_equal. apply He; eexists; reflexivity.
  - destruct (Hrep 0%nat _ 4%nat _ eq_refl eq_refl eq_refl eq_refl)
      as [_ H].
    apply H; reflexivity.
Defined.

(** X9.  The message of the guard is evaluated before the assertion
    failure is raised.  In the store of
    [a = assign_t(eax, call_t(value_t(None), None))] the text of [a]
    cannot be rendered: [str(a)] raises [TypeError], and so do
    [a[0] = literal 5] and [eax.replace(literal 5)], which leave the
    store as it was, although the text of the literal is rendered. *)
Theorem assign_guard_message_raises :
  str db0 6 scene_unrendered (Some 3%nat) = Raise TypeError ∧
  renders db0 scene_unrendered (Some 4%nat) ∧
  setitem 3 0 (Some 4%nat) scene_unrendered
    = (Raise TypeError, scene_unrendered) ∧
  replace 0 (Some 4%nat) scene_unrendered
    = (Raise TypeError, scene_unrendered).
Proof.
  split; [reflexivity|]. split; [eexists; reflexivity|].
  split; reflexivity.
Qed.

End guard_examples.

(** * Further properties: constant folding *)

(** X6.  [add] and [sub] are all-or-nothing.  A call that raises leaves
    the store exactly as it was, and it raises [RuntimeError] when [self]
    is a sum or a difference and the argument is an object that is not a
    literal.  A call that returns has changed one thing only: the payload
    of the literal in the second operand slot of [self]; classes, parent
    links, operand slots and every other object are as before. *)
Theorem fold_all_or_nothing (h : heap) self other res (h' : heap) :
  fold_add self other h = (res, h') ∨ fold_sub self other h = (res, h') →
  (∀ e, res = Raise e →
        h' = h ∧
        ∀ os oo, h !! self = Some os → cls os = add_t ∨ cls os = sub_t →
                 h !! other = Some oo → cls oo ≠ value_t →
                 e = RuntimeError) ∧
  (res = Ok tt →
   ∃ r o a v, getitem h self 1 = Ok (Some r) ∧ h !! r = Some o ∧
              fields o = A_value (Some a) ∧
              h' = alter (with_fields (A_value (Some v))) r h).
Proof.
  intros Hcall.
  assert (∃ m, (m = fold_add ∨ m = fold_sub) ∧ m self other h = (res, h'))
    as (m & Hm & E) by (destruct Hcall; eauto).
  destruct (fold_cases m self other h Hm)
    as [(e & E' & He)|(op & E' & oo' & Eo' & Hv)].
  - (* refused before the update *)
    rewrite E' in E. injection E as <- <-.
    split; [|done]. intros e' [= <-]. by split.
  - (* the argument is a literal: the update of the payload *)
    rewrite E' in E.
    destruct (fold_value_cases op self other h)
      as [(e & Ev)|(r & o & a & b & Hg & Er & Hf & _ & Ev)];
      rewrite Ev in E; injection E as <- <-.
    + split; [|done]. intros e' [= <-]. split; [done|].
      intros os oo Es Hc Eo Hco. congruence.
    + split; [done|]. intros _. eauto 10.
Qed.

(** In [1 + 2]: folding the sum itself into the sum is refused with
    [RuntimeError]; the store is as before. *)
Lemma fold_all_or_nothing_witness :
  (∀ e, Raise RuntimeError = @Raise unit e →
        scene_fold = scene_fold ∧
        ∀ os oo, scene_fold !! 2%nat = Some os →
                 cls os = add_t ∨ cls os = sub_t →
                 scene_fold !! 2%nat = Some oo → cls oo ≠ value_t →
                 e = RuntimeError) ∧
  (Raise RuntimeError = Ok tt →
   ∃ r o a v, getitem scene_fold 2 1 = Ok (Some r) ∧
              scene_fold !! r = Some o ∧ fields o = A_value (Some a) ∧
              scene_fold = alter (with_fields (A_value (Some v))) r scene_fold).
Proof.
  apply (fold_all_or_nothing scene_fold 2 2 (Raise RuntimeError) scene_fold).
  left. reflexivity.
Defined.

(** X7.  Folding a literal in and out again.  On a sum or a difference
    whose second operand is a literal, [add] followed by [sub] with the
    same literal argument (and [sub] followed by [add]) returns and
    restores the store exactly, provided the argument is not the second
    operand itself.  When it is, the methods read the payload they are
    about to overwrite, and [add] followed by [sub] leaves the payload 0
    whatever it was. *)
Theorem fold_round_trip (h : heap) self os r2 other a b :
  h !! self = Some os → cls os = add_t ∨ cls os = sub_t →
  operands os !! 1%nat = Some (Some r2) →
  has_value h r2 (Some a) → has_value h other (Some b) →
  (other ≠ r2 →
   (∃ h1, fold_add self other h = (Ok tt, h1) ∧
          fold_sub self other h1 = (Ok tt, h)) ∧
   (∃ h1, fold_sub self other h = (Ok tt, h1) ∧
          fold_add self other h1 = (Ok tt, h))) ∧
  (other = r2 →
   ∃ h1 h2, fold_add self other h = (Ok tt, h1) ∧
            fold_sub self other h1 = (Ok tt, h2) ∧
            has_value h2 r2 (Some 0%Z)).
Proof.
  intros Es Hc Hop H2 Ho.
  assert (is_expr (cls os) = true) as Hexpr by (by destruct Hc as [-> | ->]).
  assert (self ≠ r2) as Hsr.
  { intros ->. destruct H2 as (o2 & E2 & Hc2 & _).
    assert (o2 = os) as -> by congruence.
    destruct Hc as [Hc|Hc]; congruence. }
  (* one update of the payload, and the facts that survive it *)
  assert (∀ op x y (h0 : heap),
            h0 !! self = Some os → has_value h0 r2 (Some x) →
            has_value h0 other (Some y) →
            fold_value op self other h0 =
            (Ok tt, alter (with_fields (A_value (Some (op x y)))) r2 h0))
    as Hrun by (intros; by eapply fold_value_run).
  assert (∀ v (h0 : heap),
            h0 !! self = Some os →
            alter (with_fields (A_value v)) r2 h0 !! self = Some os)
    as Hself by (intros; by rewrite list_lookup_alter_ne).
  assert (∀ (h0 : heap) x, h0 !! self = Some os → has_value h0 other x →
            fold_add self other h0 =
            fold_value (if bool_decide (cls os = add_t) then Z.add else Z.sub)
              self other h0 ∧
            fold_sub self other h0 =
            fold_value (if bool_decide (cls os = add_t) then Z.sub else Z.add)
              self other h0) as Hdisp.
  { intros h0 x Es0 Ho0.
    rewrite (fold_add_value _ _ _ _ _ Es0 Ho0).
    rewrite (fold_sub_value _ _ _ _ _ Es0 Ho0).
    by destruct Hc as [-> | ->]. }
  assert (∀ x y (f g : obj → obj) (h0 : heap),
            has_value h0 r2 (Some x) →
            f = with_fields (A_value (Some y)) →
            g = with_fields (A_value (Some x)) →
            alter g r2 (alter f r2 h0) = h0) as Hback.
  { intros x y f g h0 (o2 & E2 & _ & Hf2) -> ->.
    apply (alter_alter_id h0 _ _ r2 o2); [done|].
    destruct o2; simpl in *. by subst. }
  split.
  - intros Hne.
    set (add_op := if bool_decide (cls os = add_t) then Z.add else Z.sub).
    set (sub_op := if bool_decide (cls os = add_t) then Z.sub else Z.add).
    assert (∀ x y, sub_op (add_op x y) y = x ∧ add_op (sub_op x y) y = x)
      as Hinv.
    { intros x y. unfold add_op, sub_op.
      destruct (bool_decide (cls os = add_t)); lia. }
    split.
    + destruct (Hdisp h _ Es Ho) as [-> _]. fold add_op.
      eexists. split; [by apply Hrun|].
      set (h1 := alter _ r2 h).
      assert (h1 !! self = Some os) as Es1 by by apply Hself.
      assert (has_value h1 other (Some b)) as Ho1
        by by apply has_value_alter_ne.
      destruct (Hdisp h1 _ Es1 Ho1) as [_ ->]. fold sub_op.
      rewrite (Hrun sub_op (add_op a b) b h1 Es1); [|by eapply folded_value|done].
      f_equal. unfold h1. destruct (Hinv a b) as [-> _].
      by eapply Hback.
    + destruct (Hdisp h _ Es Ho) as [_ ->]. fold sub_op.
      eexists. split; [by apply Hrun|].
      set (h1 := alter _ r2 h).
      assert (h1 !! self = Some os) as Es1 by by apply Hself.
      assert (has_value h1 other (Some b)) as Ho1
        by by apply has_value_alter_ne.
      destruct (Hdisp h1 _ Es1 Ho1) as [-> _]. fold add_op.
      rewrite (Hrun add_op (sub_op a b) b h1 Es1); [|by eapply folded_value|done].
      f_equal. unfold h1. destruct (Hinv a b) as [_ ->].
      by eapply Hback.
  - intros ->.
    assert (b = a) as -> by (pose proof (has_value_functional _ _ _ _ H2 Ho);
                             congruence).
    set (add_op := if bool_decide (cls os = add_t) then Z.add else Z.sub).
    set (sub_op := if bool_decide (cls os = add_t) then Z.sub else Z.add).
    destruct (Hdisp h _ Es Ho) as [-> _]. fold add_op.
    eexists _, _. split; [by apply Hrun|].
    set (h1 := alter _ r2 h).
    assert (h1 !! self = Some os) as Es1 by by apply Hself.
    assert (has_value h1 r2 (Some (add_op a a))) as H21
      by by eapply folded_value.
    destruct (Hdisp h1 _ Es1 H21) as [_ ->]. fold sub_op.
    split; [by apply Hrun|].
    assert (sub_op (add_op a a) (add_op a a) = 0%Z) as ->.
    { unfold add_op, sub_op. destruct (bool_decide (cls os = add_t)); lia. }
    by eapply folded_value.
Qed.

(** In [1 + 2]: folding the literal 3 in and out; folding the second
    operand into its own sum and out again leaves 0. *)
Lemma fold_round_trip_witness :
  ((∃ h1, fold_add 2 6 scene_fold = (Ok tt, h1) ∧
          fold_sub 2 6 h1 = (Ok tt, scene_fold)) ∧
   (∃ h1, fold_sub 2 6 scene_fold = (Ok tt, h1) ∧
          fold_add 2 6 h1 = (Ok tt, scene_fold))) ∧
  (∃ h1 h2, fold_add 2 1 scene_fold = (Ok tt, h1) ∧
            fold_sub 2 1 h1 = (Ok tt, h2) ∧ has_value h2 1 (Some 0%Z)).
Proof.
  assert (has_value scene_fold 1 (Some 2%Z)) as H1
    by (eexists; repeat split; reflexivity).
  assert (has_value scene_fold 6 (Some 3%Z)) as H6
    by (eexists; repeat split; reflexivity).
  split.
  - destruct (fold_round_trip scene_fold 2 _ 1 6 2 3 eq_refl
                (or_introl eq_refl) eq_refl H1 H6) as [H _].
    apply H. discriminate.
  - destruct (fold_round_trip scene_fold 2 _ 1 1 2 2 eq_refl
                (or_introl eq_refl) eq_refl H1 H1) as [_ H].
    apply H. reflexivity.
Defined.
